(** * LudoGame: a shallow embedding of [LudoGame.py] and its specification

    The Python program keeps its state in mutable objects: a [LudoGame] owns a
    dictionary of [Player] objects and a [Board]; every [Player] owns two
    [Token] objects, and the board dictionary is keyed by those tokens.  The
    embedding below threads that state explicitly:

    - [Player] objects live in a store (a list indexed by address), because
      the board keeps references to tokens (and through them to their owning
      player) that may outlive the entry of the player in the dictionary;
    - Python dictionaries are insertion-ordered association lists;
    - a Python exception is the [Raise] result of a small error monad. *)

From Stdlib Require Import ZArith Lia DecimalString.
From stdpp Require Import base decidable option list strings.

Local Open Scope string_scope.
Local Open Scope Z_scope.

(** ** Exceptions and results *)

(** The exceptions the program can raise.  [DanglingRef] is not a Python
    exception: it is the model's answer for a store address that was never
    allocated, which no state built by [player_setup] contains. *)
Inductive exn : Type :=
  | TypeError
  | AttributeError
  | ValueError
  | IndexError
  | DanglingRef.

Inductive res (A : Type) : Type :=
  | OK (a : A)
  | Raise (e : exn).

Arguments OK {A} a.
Arguments Raise {A} e.

Definition bind {A B : Type} (m : res A) (k : A -> res B) : res B :=
  match m with
  | OK a => k a
  | Raise e => Raise e
  end.

Notation "x <- m ;; k" := (bind m (fun x => k))
  (at level 100, m at next level, right associativity).

(** ** Python built-ins used by the program *)

(** [str(n)] on an integer. *)
Definition str (n : Z) : string := NilZero.string_of_int (Z.to_int n).

(** [s[-1]] on a string, as a one-character string. *)
Fixpoint last_char (s : string) : string :=
  match s with
  | EmptyString => EmptyString
  | String c EmptyString => String c EmptyString
  | String _ rest => last_char rest
  end.

(** [int(x)] where [x] is [None] or a string. *)
Definition int (x : option string) : res Z :=
  match x with
  | None => Raise TypeError
  | Some s =>
      match NilZero.int_of_string s with
      | Some i => OK (Z.of_int i)
      | None => Raise ValueError
      end
  end.

(** [x in l] and [l.index(x)] on a list. *)
Definition list_in {A : Type} `{EqDecision A} (x : A) (l : list A) : bool :=
  bool_decide (x ∈ l).

Fixpoint list_index {A : Type} `{EqDecision A} (x : A) (l : list A) : res nat :=
  match l with
  | [] => Raise ValueError
  | y :: rest =>
      if decide (y = x) then OK 0%nat
      else (i <- list_index x rest;; OK (S i))
  end.

(** [l[i]] on a list. *)
Definition list_get {A : Type} (l : list A) (i : nat) : res A :=
  match l !! i with
  | Some x => OK x
  | None => Raise IndexError
  end.

(** Dictionaries keep insertion order; assigning to an existing key keeps the
    key in place. *)
Fixpoint dict_set {K V : Type} `{EqDecision K} (d : list (K * V)) (k : K) (v : V)
  : list (K * V) :=
  match d with
  | [] => [(k, v)]
  | (k', v') :: rest =>
      if decide (k' = k) then (k, v) :: rest
      else (k', v') :: dict_set rest k v
  end.

Fixpoint dict_get {K V : Type} `{EqDecision K} (d : list (K * V)) (k : K)
  : option V :=
  match d with
  | [] => None
  | (k', v') :: rest => if decide (k' = k) then Some v' else dict_get rest k
  end.

Definition dict_keys {K V : Type} (d : list (K * V)) : list K := d.*1.
Definition dict_values {K V : Type} (d : list (K * V)) : list V := d.*2.

(** ** Data model *)

(** The four strings stored in [Player._token_locs]. *)
Inductive Loc : Type :=
  | InTheHomeYard        (* 'in the home yard' *)
  | ReadyToGo            (* 'ready to go' *)
  | SomewhereOnTheBoard  (* 'somewhere on the board' *)
  | HasFinished.         (* 'has finished' *)

#[global] Instance Loc_eq_dec : EqDecision Loc.
Proof. solve_decision. Defined.

(** The two strings stored in [LudoGame._game_state]. *)
Inductive GameState : Type :=
  | StillPlaying   (* 'Still Playing' *)
  | GameComplete.  (* 'Game Complete' *)

#[global] Instance GameState_eq_dec : EqDecision GameState.
Proof. solve_decision. Defined.

(** Address of a [Player] object in the store. *)
Definition addr : Type := nat.

(** class Token.  The [_owner] attribute is carried by the reference to the
    token ([TokenRef] below), which is how the program reaches a token. *)
Record Token : Type := mkToken {
  token_identity : string;
  stacked : bool
}.

(** class Player *)
Record Player : Type := mkPlayer {
  position : string;
  start : option string;
  end_ : option string;
  token_locs : Loc * Loc;
  p_steps : Z;
  q_steps : Z;
  completed : bool;
  token_p : Token;
  token_q : Token
}.

(** A token object is identified by its owner and by which of the owner's two
    attributes ([_token_p] or [_token_q]) holds it. *)
Inductive slot : Type := SlotP | SlotQ.

#[global] Instance slot_eq_dec : EqDecision slot.
Proof. solve_decision. Defined.

Definition TokenRef : Type := addr * slot.

(** Square names are strings; [get_space_name] returns [None] outside the
    counter range. *)
Definition Space : Type := option string.

(** class Board *)
Record Board : Type := mkBoard {
  tokens_in_play : list (TokenRef * Space)
}.

(** class LudoGame, with the store of the [Player] objects it created. *)
Record LudoGame : Type := mkLudoGame {
  game_state : GameState;
  players : list (string * addr);
  board : Board;
  store : list Player
}.

(** ** class Token *)

Definition set_stacked (t : Token) (status : bool) : Token :=
  mkToken (token_identity t) status.

Definition get_owner (t : TokenRef) : addr := fst t.

(** ** class Player *)

(** [Player(position)]. *)
Definition new_Player (pos : string) : Player :=
  mkPlayer pos None None (InTheHomeYard, InTheHomeYard) (-1) (-1) false
           (mkToken (pos ++ "p") false)
           (mkToken (pos ++ "q") false).

Definition get_token_p (self : addr) : TokenRef := (self, SlotP).
Definition get_token_q (self : addr) : TokenRef := (self, SlotQ).

Definition get_completed (pl : Player) : bool :=
  bool_decide (fst (token_locs pl) = snd (token_locs pl))
  && bool_decide (snd (token_locs pl) = HasFinished).

Definition get_space_name (pl : Player) (steps : Z) : res Space :=
  if steps =? -1 then OK (Some "H")
  else if steps =? 0 then OK (Some "R")
  else if (1 <=? steps) && (steps <=? 50) then
    s <- int (start pl);;
    let space_name := s + steps - 1 in
    let space_name := if space_name >? 56 then space_name - 56 else space_name in
    OK (Some (str space_name))
  else if (51 <=? steps) && (steps <=? 56) then
    OK (Some (position pl ++ last_char (str steps)))
  else if steps =? 57 then OK (Some "E")
  else OK None.

Definition with_start_end (pl : Player) (s e : option string) : Player :=
  mkPlayer (position pl) s e (token_locs pl) (p_steps pl) (q_steps pl)
           (completed pl) (token_p pl) (token_q pl).

Definition set_start_end (pl : Player) : Player :=
  if String.eqb (position pl) "A" then with_start_end pl (Some "1") (Some "50")
  else if String.eqb (position pl) "B" then with_start_end pl (Some "15") (Some "8")
  else if String.eqb (position pl) "C" then with_start_end pl (Some "29") (Some "22")
  else if String.eqb (position pl) "D" then with_start_end pl (Some "43") (Some "36")
  else pl.

Definition set_token_p_step_count (pl : Player) (step : Z) : Player :=
  mkPlayer (position pl) (start pl) (end_ pl) (token_locs pl) step (q_steps pl)
           (completed pl) (token_p pl) (token_q pl).

Definition set_token_q_step_count (pl : Player) (step : Z) : Player :=
  mkPlayer (position pl) (start pl) (end_ pl) (token_locs pl) (p_steps pl) step
           (completed pl) (token_p pl) (token_q pl).

Definition set_token_locs (pl : Player) (token : string) (location : Loc) : Player :=
  let locs :=
    if String.eqb token "p" then (location, snd (token_locs pl))
    else if String.eqb token "q" then (fst (token_locs pl), location)
    else token_locs pl in
  mkPlayer (position pl) (start pl) (end_ pl) locs (p_steps pl) (q_steps pl)
           (completed pl) (token_p pl) (token_q pl).

Definition can_token_stack (pl : Player) : bool :=
  if (0 <? p_steps pl) && (p_steps pl =? q_steps pl) && (q_steps pl <? 57) then
    if p_steps pl =? q_steps pl then true else false
  else false.

(** [stack_tokens], and the pair of [set_stacked] calls of [kick_home]. *)
Definition set_both_stacked (pl : Player) (status : bool) : Player :=
  mkPlayer (position pl) (start pl) (end_ pl) (token_locs pl) (p_steps pl)
           (q_steps pl) (completed pl)
           (set_stacked (token_p pl) status) (set_stacked (token_q pl) status).

Definition stack_tokens (pl : Player) : Player := set_both_stacked pl true.

(** ** The store of [Player] objects *)

Definition deref (st : list Player) (a : addr) : res Player :=
  match st !! a with
  | Some pl => OK pl
  | None => Raise DanglingRef
  end.

(** ** class Board *)

Definition new_Board : Board := mkBoard [].

Fixpoint set_tokens_in_play (st : list Player) (b : Board) (player_list : list addr)
  : res Board :=
  match player_list with
  | [] => OK b
  | player :: rest =>
      pl <- deref st player;;
      let p_steps := p_steps pl in
      let q_steps := q_steps pl in
      p_space <- get_space_name pl p_steps;;
      q_space <- get_space_name pl q_steps;;
      let d := dict_set (tokens_in_play b) (get_token_p player) p_space in
      let d := dict_set d (get_token_q player) q_space in
      set_tokens_in_play st (mkBoard d) rest
  end.

Definition get_tokens_in_play (b : Board) : list (TokenRef * Space) :=
  tokens_in_play b.

Definition occupied_spaces (b : Board) : list Space :=
  dict_values (tokens_in_play b).

(** ** class LudoGame *)

Definition new_LudoGame : LudoGame := mkLudoGame StillPlaying [] new_Board [].

Definition with_game_state (g : LudoGame) (s : GameState) : LudoGame :=
  mkLudoGame s (players g) (board g) (store g).

Definition with_board (g : LudoGame) (b : Board) : LudoGame :=
  mkLudoGame (game_state g) (players g) b (store g).

(** Writing back the mutated [Player] object at address [a]. *)
Definition write (g : LudoGame) (a : addr) (pl : Player) : LudoGame :=
  mkLudoGame (game_state g) (players g) (board g) (<[a := pl]> (store g)).

(** [self._board.set_tokens_in_play(self._players.values())] *)
Definition refresh_board (g : LudoGame) : res LudoGame :=
  b <- set_tokens_in_play (store g) (board g) (dict_values (players g));;
  OK (with_board g b).

(** The value returned by [get_player_by_position]: a [Player] object or a
    string. *)
Inductive PlayerOrStr : Type :=
  | PlayerObj (a : addr)
  | StrObj (s : string).

Definition get_player_by_position (g : LudoGame) (pos : string) : res PlayerOrStr :=
  match dict_get (players g) pos with
  | Some a => OK (PlayerObj a)
  | None => OK (StrObj "Player not found!")
  end.

Definition player_setup (g : LudoGame) (pos : string) : LudoGame :=
  let a := length (store g) in
  mkLudoGame (game_state g) (dict_set (players g) pos a) (board g)
             (store g ++ [set_start_end (new_Player pos)]).

Definition home_yard_check (pl : Player) : option string :=
  if bool_decide (token_locs pl = (InTheHomeYard, InTheHomeYard)) then Some "both"
  else if bool_decide (fst (token_locs pl) <> InTheHomeYard)
          && bool_decide (snd (token_locs pl) = InTheHomeYard) then Some "q"
  else if bool_decide (fst (token_locs pl) = InTheHomeYard)
          && bool_decide (snd (token_locs pl) <> InTheHomeYard) then Some "p"
  else None.

(** [x in range(51, 57)] *)
Definition in_range_51_57 (x : Z) : bool := (51 <=? x) && (x <? 57).

Definition final_stretch_check (pl : Player) : option string :=
  if in_range_51_57 (p_steps pl) && in_range_51_57 (q_steps pl) then Some "both"
  else if in_range_51_57 (p_steps pl) then Some "p"
  else if in_range_51_57 (q_steps pl) then Some "q"
  else None.

Definition furthest_token (player : addr) (pl : Player) : option TokenRef :=
  if p_steps pl <=? q_steps pl then Some (get_token_p player)
  else if p_steps pl >? q_steps pl then Some (get_token_q player)
  else None.

Definition can_player_attack (g : LudoGame) (player : addr) (roll : Z)
  : res (option TokenRef) :=
  pl <- deref (store g) player;;
  let potential_space_p := p_steps pl + roll in
  let potential_space_q := q_steps pl + roll in
  new_space_p <- get_space_name pl potential_space_p;;
  new_space_q <- get_space_name pl potential_space_q;;
  let keys := dict_keys (get_tokens_in_play (board g)) in
  if list_in new_space_p (occupied_spaces (board g))
     && list_in new_space_q (occupied_spaces (board g)) then
    OK (furthest_token player pl)
  else if list_in new_space_p (occupied_spaces (board g)) then
    index <- list_index new_space_p (occupied_spaces (board g));;
    k <- list_get keys index;;
    if bool_decide (player <> get_owner k) then OK (Some (get_token_p player))
    else OK (furthest_token player pl)
  else if list_in new_space_q (occupied_spaces (board g)) then
    index <- list_index new_space_q (occupied_spaces (board g));;
    k <- list_get keys index;;
    if bool_decide (player <> get_owner k) then OK (Some (get_token_q player))
    else OK (furthest_token player pl)
  else OK (furthest_token player pl).

Definition can_token_finish (g : LudoGame) (player : addr) (roll : Z)
  : res (option TokenRef) :=
  pl <- deref (store g) player;;
  if bool_decide (final_stretch_check pl = Some "both") then
    if p_steps pl + roll =? 57 then OK (Some (get_token_p player))
    else if q_steps pl + roll =? 57 then OK (Some (get_token_q player))
    else OK (furthest_token player pl)
  else if bool_decide (final_stretch_check pl = Some "p") then
    if p_steps pl + roll =? 57 then OK (Some (get_token_p player))
    else OK (Some (get_token_q player))
  else if bool_decide (final_stretch_check pl = Some "q") then
    if q_steps pl + roll =? 57 then OK (Some (get_token_q player))
    else OK (Some (get_token_p player))
  else can_player_attack g player roll.

Definition token_determination (g : LudoGame) (player : addr) (roll : Z)
  : res (option TokenRef) :=
  pl <- deref (store g) player;;
  if roll =? 6 then
    if bool_decide (home_yard_check pl = Some "both") then OK (Some (get_token_p player))
    else if bool_decide (home_yard_check pl = Some "p") then OK (Some (get_token_p player))
    else if bool_decide (home_yard_check pl = Some "q") then OK (Some (get_token_q player))
    else can_token_finish g player roll
  else if negb (roll =? 6) then
    if bool_decide (home_yard_check pl = Some "both") then OK None
    else if bool_decide (home_yard_check pl = Some "p") then OK (Some (get_token_q player))
    else if bool_decide (home_yard_check pl = Some "q") then OK (Some (get_token_p player))
    else can_token_finish g player roll
  else OK None.

(** Lines 281-293 of [kick_home]: the mutation of the kicked player. *)
Definition send_home (pl : Player) (index : nat) : Player :=
  let pl :=
    if (index mod 2 =? 0)%nat then
      set_token_locs (set_token_p_step_count pl (-1)) "p" InTheHomeYard
    else
      set_token_locs (set_token_q_step_count pl (-1)) "q" InTheHomeYard in
  if stacked (token_p pl) then
    let pl := set_both_stacked pl false in
    let pl := set_token_p_step_count pl (-1) in
    let pl := set_token_q_step_count pl (-1) in
    let pl := set_token_locs pl "p" InTheHomeYard in
    set_token_locs pl "q" InTheHomeYard
  else pl.

Definition kick_home (g : LudoGame) (player : addr) (index : nat) : res LudoGame :=
  pl <- deref (store g) player;;
  refresh_board (write g player (send_home pl index)).

Definition occupied_space_check (g : LudoGame) (player : addr) (token : TokenRef)
  (roll : Z) : res LudoGame :=
  let keys := dict_keys (get_tokens_in_play (board g)) in
  pl <- deref (store g) player;;
  if bool_decide (token = get_token_p player) then
    let potential_space_p := p_steps pl + roll in
    new_space <- get_space_name pl potential_space_p;;
    if list_in new_space (occupied_spaces (board g)) then
      index <- list_index new_space (occupied_spaces (board g));;
      k <- list_get keys index;;
      if bool_decide (player <> get_owner k) then kick_home g (get_owner k) index
      else OK g
    else OK g
  else
    let potential_space_q := q_steps pl + roll in
    new_space <- get_space_name pl potential_space_q;;
    if list_in new_space (occupied_spaces (board g)) then
      index <- list_index new_space (occupied_spaces (board g));;
      k <- list_get keys index;;
      if bool_decide (player <> get_owner k) then kick_home g (get_owner k) index
      else OK g
    else OK g.

(** The last statement of [move_token]:
    [if not player_obj.get_token_p().get_stacked() and player_obj.can_token_stack()]. *)
Definition stack_if_possible (pl : Player) : Player :=
  if negb (stacked (token_p pl)) && can_token_stack pl then stack_tokens pl
  else pl.

(** The blocks of [move_token] that mutate the moving player only, in the
    order of the source: the release (lines 57-58 and 80-81), the advance
    (lines 61-71 and 84-94) and the update of a stacked sibling (lines 72-75
    and 95-98). *)
Definition release_p (pl : Player) : Player :=
  let pl := set_token_p_step_count pl 0 in
  set_token_locs pl "p" ReadyToGo.

Definition advance_p (pl : Player) (dice_roll : Z) : Player :=
  let new_steps := p_steps pl + dice_roll in
  let pl :=
    if new_steps >? 57 then
      let adjustment := new_steps - 57 in
      let new_steps := 57 - adjustment in
      set_token_p_step_count pl new_steps
    else set_token_p_step_count pl new_steps in
  if negb (p_steps pl =? 57) then set_token_locs pl "p" SomewhereOnTheBoard
  else set_token_locs pl "p" HasFinished.

Definition stacked_follow_p (pl : Player) : Player :=
  if stacked (token_p pl) then
    let pl := set_token_q_step_count pl (p_steps pl) in
    if p_steps pl =? 57 then set_token_locs pl "q" HasFinished else pl
  else pl.

Definition release_q (pl : Player) : Player :=
  let pl := set_token_q_step_count pl 0 in
  set_token_locs pl "q" ReadyToGo.

Definition advance_q (pl : Player) (dice_roll : Z) : Player :=
  let new_steps := q_steps pl + dice_roll in
  let pl :=
    if new_steps >? 57 then
      let adjustment := new_steps - 57 in
      let new_steps := 57 - adjustment in
      set_token_p_step_count pl new_steps
    else set_token_q_step_count pl new_steps in
  if negb (q_steps pl =? 57) then set_token_locs pl "q" SomewhereOnTheBoard
  else set_token_locs pl "q" HasFinished.

Definition stacked_follow_q (pl : Player) : Player :=
  if stacked (token_q pl) then
    let pl := set_token_p_step_count pl (q_steps pl) in
    if p_steps pl =? 57 then set_token_locs pl "p" HasFinished else pl
  else pl.

Definition move_token (g : LudoGame) (player_obj : addr) (token : string)
  (dice_roll : Z) : res LudoGame :=
  pl <- deref (store g) player_obj;;
  if String.eqb token "p" then
    if p_steps pl =? 57 then OK g
    else
      g <- (if bool_decide (home_yard_check pl = Some token)
               || bool_decide (home_yard_check pl = Some "both") then
              OK (write g player_obj (release_p pl))
            else
              g <- occupied_space_check g player_obj (get_token_p player_obj) dice_roll;;
              pl <- deref (store g) player_obj;;
              OK (write g player_obj (advance_p pl dice_roll)));;
      pl <- deref (store g) player_obj;;
      OK (write g player_obj (stack_if_possible (stacked_follow_p pl)))
  else if String.eqb token "q" then
    if q_steps pl =? 57 then OK g
    else
      g <- (if bool_decide (home_yard_check pl = Some token) then
              OK (write g player_obj (release_q pl))
            else
              g <- occupied_space_check g player_obj (get_token_q player_obj) dice_roll;;
              pl <- deref (store g) player_obj;;
              OK (write g player_obj (advance_q pl dice_roll)));;
      pl <- deref (store g) player_obj;;
      OK (write g player_obj (stack_if_possible (stacked_follow_q pl)))
  else OK (write g player_obj (stack_if_possible pl)).

(** The first loop of [play_game]. *)
Fixpoint setup_players (g : LudoGame) (player_list : list string) : res LudoGame :=
  match player_list with
  | [] => OK g
  | pos :: rest =>
      g <- refresh_board (player_setup g pos);;
      setup_players g rest
  end.

(** One iteration of the second loop of [play_game].  When the position is
    unknown, [turn_player] is a string and the first attribute access of
    [token_determination] (through [home_yard_check]) raises.  A token that
    is neither of the player's two stays a [Token] object, for which
    [move_token] runs its last statement only. *)
Definition take_turn (g : LudoGame) (turn : string * Z) : res LudoGame :=
  turn_player <- get_player_by_position g (fst turn);;
  let dice_roll := snd turn in
  match turn_player with
  | StrObj _ => Raise AttributeError
  | PlayerObj turn_player =>
      token <- token_determination g turn_player dice_roll;;
      g <- match token with
           | Some t =>
               if bool_decide (t = get_token_p turn_player) then
                 move_token g turn_player "p" dice_roll
               else if bool_decide (t = get_token_q turn_player) then
                 move_token g turn_player "q" dice_roll
               else
                 pl <- deref (store g) turn_player;;
                 OK (write g turn_player (stack_if_possible pl))
           | None => OK g
           end;;
      refresh_board g
  end.

Fixpoint take_turns (g : LudoGame) (turn_list : list (string * Z)) : res LudoGame :=
  match turn_list with
  | [] => OK g
  | turn :: rest =>
      g <- take_turn g turn;;
      take_turns g rest
  end.

(** The third loop of [play_game]: the number of entries of [player_list]
    whose player has completed. *)
Fixpoint count_completed (g : LudoGame) (player_list : list string) : res Z :=
  match player_list with
  | [] => OK 0
  | player :: rest =>
      p <- get_player_by_position g player;;
      match p with
      | StrObj _ => Raise AttributeError
      | PlayerObj a =>
          pl <- deref (store g) a;;
          n <- count_completed g rest;;
          OK (if get_completed pl then 1 + n else n)
      end
  end.

Definition play_game (g : LudoGame) (player_list : list string)
  (turn_list : list (string * Z)) : res (LudoGame * list Space) :=
  g <- setup_players g player_list;;
  g <- take_turns g turn_list;;
  count_finished <- count_completed g player_list;;
  let g :=
    if count_finished =? Z.of_nat (length player_list) - 1 then
      with_game_state g GameComplete
    else g in
  OK (g, occupied_spaces (board g)).

Definition get_game_state (g : LudoGame) : GameState := game_state g.

(** * Definitions used by the statements

    Nothing below is part of the program: these definitions name what the
    theorems talk about. *)

(** The entry offsets of the four seats, as the specification lists them. *)
Definition entry_offset (pos : string) : Z :=
  if String.eqb pos "A" then 1
  else if String.eqb pos "B" then 15
  else if String.eqb pos "C" then 29
  else 43.

(** The parts of the game a move never touches. *)
Definition same_seats (g g' : LudoGame) : Prop :=
  game_state g' = game_state g
  /\ players g' = players g
  /\ length (store g') = length (store g).

(** What [move_token] makes of the record of the moving player. *)
Definition moved_player (pl : Player) (token : string) (dice_roll : Z) : Player :=
  if String.eqb token "p" then
    if p_steps pl =? 57 then pl
    else
      stack_if_possible (stacked_follow_p
        (if bool_decide (home_yard_check pl = Some "p")
            || bool_decide (home_yard_check pl = Some "both")
         then release_p pl else advance_p pl dice_roll))
  else if String.eqb token "q" then
    if q_steps pl =? 57 then pl
    else
      stack_if_possible (stacked_follow_q
        (if bool_decide (home_yard_check pl = Some "q")
         then release_q pl else advance_q pl dice_roll))
  else stack_if_possible pl.

(** The stores a capture check can leave: the same one, or the one where
    some other player has been sent home. *)
Definition after_check (a : addr) (st st1 : list Player) : Prop :=
  st1 = st
  \/ exists (other : addr) (index : nat) (plo : Player),
       other <> a /\ st !! other = Some plo
       /\ st1 = <[other := send_home plo index]> st.

(** The invariant of stacked tokens: the two flags of a player agree, and
    stacked tokens share their counter and, at 57, are both finished. *)
Definition twin_ok (pl : Player) : bool :=
  bool_decide (stacked (token_p pl) = stacked (token_q pl))
  && (negb (stacked (token_p pl))
      || ((p_steps pl =? q_steps pl)
          && (negb (p_steps pl =? 57)
              || bool_decide (token_locs pl = (HasFinished, HasFinished))))).

(** The counter, location tag and stacked flag of the token named ['p'] or
    ['q'], and the name of the other token of the player. *)
Definition steps_of (pl : Player) (token : string) : Z :=
  if String.eqb token "p" then p_steps pl else q_steps pl.

Definition loc_of (pl : Player) (token : string) : Loc :=
  if String.eqb token "p" then fst (token_locs pl) else snd (token_locs pl).

Definition stacked_of (pl : Player) (token : string) : bool :=
  if String.eqb token "p" then stacked (token_p pl) else stacked (token_q pl).

Definition sibling (token : string) : string :=
  if String.eqb token "p" then "q" else "p".

(** The games on which no call raises: every position has its start square
    and every address held by the players dictionary or by the board is
    allocated. *)
Definition valid_player (pl : Player) : Prop :=
  exists offset : Z, int (start pl) = OK offset.

Definition valid_game (g : LudoGame) : Prop :=
  Forall (fun e : string * addr => (snd e < length (store g))%nat) (players g)
  /\ Forall (fun e : TokenRef * Space =>
               (get_owner (fst e) < length (store g))%nat)
            (tokens_in_play (board g))
  /\ Forall valid_player (store g).

(** The game states the program can reach: a new game, and whatever the
    methods that change a game return. *)
Inductive reachable : LudoGame -> Prop :=
  | reachable_new : reachable new_LudoGame
  | reachable_player_setup (g : LudoGame) (pos : string) :
      reachable g -> reachable (player_setup g pos)
  | reachable_refresh_board (g g' : LudoGame) :
      reachable g -> refresh_board g = OK g' -> reachable g'
  | reachable_move_token (g g' : LudoGame) (a : addr) (token : string) (roll : Z) :
      reachable g -> move_token g a token roll = OK g' -> reachable g'
  | reachable_play_game (g g' : LudoGame) (player_list : list string)
      (turn_list : list (string * Z)) (out : list Space) :
      reachable g -> play_game g player_list turn_list = OK (g', out) ->
      reachable g'.

(** Whether some token of another player is recorded on [space]. *)
Definition occupied_by_opponent (g : LudoGame) (player : addr) (space : Space)
  : bool :=
  existsb (fun e : TokenRef * Space =>
             bool_decide (snd e = space)
             && bool_decide (get_owner (fst e) <> player))
          (tokens_in_play (board g)).

(** Whether both tokens of the seat at [pos] are finished, and the number of
    entries of [player_list] for which they are. *)
Definition both_finished (pl : Player) : bool :=
  bool_decide (fst (token_locs pl) = HasFinished)
  && bool_decide (snd (token_locs pl) = HasFinished).

Definition seat_finished (g : LudoGame) (pos : string) : bool :=
  match dict_get (players g) pos with
  | Some a =>
      match store g !! a with
      | Some pl => both_finished pl
      | None => false
      end
  | None => false
  end.

Definition seats_finished (g : LudoGame) (player_list : list string) : nat :=
  length (List.filter (seat_finished g) player_list).

(** ** Example games *)

Definition rolls (pos : string) (roll : Z) (n : nat) : list (string * Z) :=
  replicate n (pos, roll).

(** A six to leave the yard, eleven fives and a two: the turns that take one
    token of [pos] from the yard to the finish. *)
Definition lap (pos : string) : list (string * Z) :=
  (pos, 6) :: rolls pos 5 11 ++ [(pos, 2)].

(** The game [play_game] leaves when called on a new game (the new game
    itself should the call raise). *)
Definition game_after (player_list : list string) (turn_list : list (string * Z))
  : LudoGame :=
  match play_game new_LudoGame player_list turn_list with
  | OK (g, _) => g
  | Raise _ => new_LudoGame
  end.

(** The counters, location tags and stacked flags of the player at [a]. *)
Definition tokens_at (g : LudoGame) (a : addr)
  : option (Z * Z * (Loc * Loc) * (bool * bool)) :=
  pl ← store g !! a;
  Some (p_steps pl, q_steps pl, token_locs pl,
        (stacked (token_p pl), stacked (token_q pl))).

(** Seat A alone, both tokens on square 5 and stacked. *)
Definition stacked_turns : list (string * Z) :=
  [("A", 6); ("A", 5); ("A", 6); ("A", 2); ("A", 3)].

Definition stacked_game : LudoGame := game_after ["A"] stacked_turns.

(** Seat A alone, 'p' at 56 and 'q' at 54. *)
Definition overshoot_turns : list (string * Z) :=
  ("A", 6) :: rolls "A" 5 11 ++ [("A", 1); ("A", 6)] ++ rolls "A" 5 10
  ++ [("A", 4)].

Definition overshoot_game : LudoGame := game_after ["A"] overshoot_turns.

(** Seat A alone, 'p' at 51 and 'q' at 0. *)
Definition final_stretch_turns : list (string * Z) :=
  ("A", 6) :: rolls "A" 5 10 ++ [("A", 1); ("A", 6)].

Definition final_stretch_game : LudoGame :=
  game_after ["A"] final_stretch_turns.

(** Seats A and B: A has 'p' on square 5 and 'q' on square 2, B has 'p' on
    square 8. *)
Definition attack_turns : list (string * Z) :=
  ("B", 6) :: rolls "B" 5 10 ++ [("A", 6); ("A", 5); ("A", 6); ("A", 2)].

Definition attack_game : LudoGame := game_after ["A"; "B"] attack_turns.

(** Seats A and B: 'p' of B has finished, 'p' of A is at 55. *)
Definition finished_turns : list (string * Z) :=
  lap "B" ++ ("A", 6) :: rolls "A" 5 11.

Definition finished_game : LudoGame := game_after ["A"; "B"] finished_turns.

(** Seats A and B: 'q' of A and 'p' of B have finished, 'p' of A is at 55. *)
Definition shadow_turns : list (string * Z) :=
  lap "A" ++ lap "A" ++ lap "B" ++ ("A", 6) :: rolls "A" 5 11.

Definition shadow_game : LudoGame := game_after ["A"; "B"] shadow_turns.

(** * Definitions used by the further properties *)

(** The first token the board records on [space], if any. *)
Definition first_on (b : Board) (space : Space) : option TokenRef :=
  fst <$> List.find (fun e : TokenRef * Space => bool_decide (snd e = space))
                    (tokens_in_play b).

(** The keys of a board come in pairs: token 'p' of a player, then token 'q'
    of the same player. *)
Fixpoint paired (keys : list TokenRef) : bool :=
  match keys with
  | [] => true
  | (a, SlotP) :: (b, SlotQ) :: rest => bool_decide (a = b) && paired rest
  | _ => false
  end.

(** The board shows, for the tokens of the player at [a], the squares named
    by the counters of that player. *)
Definition board_shows (g : LudoGame) (a : addr) : Prop :=
  exists (pl : Player) (p_space q_space : Space),
    store g !! a = Some pl
    /\ get_space_name pl (p_steps pl) = OK p_space
    /\ get_space_name pl (q_steps pl) = OK q_space
    /\ dict_get (tokens_in_play (board g)) (get_token_p a) = Some p_space
    /\ dict_get (tokens_in_play (board g)) (get_token_q a) = Some q_space.

Definition board_consistent (g : LudoGame) : Prop :=
  forall a : addr, a ∈ dict_values (players g) -> board_shows g a.

(** Both counters of a player are between -1 and 57. *)
Definition counters_in_range (pl : Player) : bool :=
  (-1 <=? p_steps pl) && (p_steps pl <=? 57)
  && (-1 <=? q_steps pl) && (q_steps pl <=? 57).

(** A roll of a die. *)
Definition die (roll : Z) : bool := (1 <=? roll) && (roll <=? 6).

(** The keys of the board that holds the tokens of the players at [addrs],
    in that order. *)
Definition pair_keys (addrs : list addr) : list TokenRef :=
  List.flat_map (fun a => [get_token_p a; get_token_q a]) addrs.

(** The keys after [set_tokens_in_play]: the players already on the board
    keep their place, the others are added at the end in the order of their
    first occurrence in [player_list]. *)
Fixpoint added (addrs player_list : list addr) : list addr :=
  match player_list with
  | [] => []
  | a :: rest =>
      if bool_decide (a ∈ addrs) then added addrs rest
      else a :: added (addrs ++ [a])%list rest
  end.

(** The shape of a game set up from a new game: the board holds the two
    tokens of every player object ever created, in the order of creation. *)
Definition board_in_order (g : LudoGame) : Prop :=
  dict_keys (tokens_in_play (board g)) = pair_keys (seq 0 (length (store g)))
  /\ Forall (fun a => (a < length (store g))%nat) (dict_values (players g)).

(** The four seats, the counters a token can have, and the square a counter
    of a seat is shown on ([None] should the naming raise). *)
Definition seats : list string := ["A"; "B"; "C"; "D"].

Definition counters : list Z := (fun i : nat => Z.of_nat i - 1) <$> seq 0 59.

Definition square_of (pos : string) (c : Z) : Space :=
  match get_space_name (set_start_end (new_Player pos)) c with
  | OK space => space
  | Raise _ => None
  end.

(** Whether counter [c1] of seat [pos1] and counter [c2] of seat [pos2] are
    one place of the board: the same place of the ring of 56 squares, the
    same square of the home stretch of one seat, or the same of the home
    yard, the ready square and the end. *)
Definition same_square (pos1 pos2 : string) (c1 c2 : Z) : bool :=
  if (1 <=? c1) && (c1 <=? 50) then
    (1 <=? c2) && (c2 <=? 50)
    && ((entry_offset pos1 + c1 - (entry_offset pos2 + c2)) mod 56 =? 0)
  else if (51 <=? c1) && (c1 <=? 56) then (c1 =? c2) && String.eqb pos1 pos2
  else c1 =? c2.

(** The test that the squares of two counters are equal exactly when
    [same_square] says so. *)
Definition square_test (pos1 pos2 : string) (c1 c2 : Z) : bool :=
  Bool.eqb (bool_decide (square_of pos1 c1 = square_of pos2 c2))
           (same_square pos1 pos2 c1 c2).

(** * Properties *)

(** ** Reasoning about results *)

Lemma bind_OK {A B : Type} (m : res A) (k : A -> res B) (b : B) :
  bind m k = OK b -> exists a, m = OK a /\ k a = OK b.
Proof. destruct m as [a|e]; simpl; [eauto | discriminate]. Qed.

Lemma deref_OK (st : list Player) (a : addr) (pl : Player) :
  deref st a = OK pl <-> st !! a = Some pl.
Proof.
  unfold deref. destruct (st !! a); split; intros H; congruence.
Qed.

(** Splits the hypotheses that a sequence of calls returned. *)
Ltac inv_bind :=
  repeat match goal with
  | H : bind _ _ = OK _ |- _ =>
      let x := fresh "x" in
      let Hx := fresh "Hx" in
      apply bind_OK in H; destruct H as (x & Hx & H)
  | H : OK _ = OK _ |- _ => injection H as H
  | H : Raise _ = OK _ |- _ => discriminate H
  | H : deref _ _ = OK _ |- _ => apply deref_OK in H
  end.

(** ** Square naming *)

Lemma last_digit_51_56 (c : Z) :
  51 <= c <= 56 -> last_char (str c) = str (c mod 10).
Proof.
  intros H.
  assert (c = 51 \/ c = 52 \/ c = 53 \/ c = 54 \/ c = 55 \/ c = 56) as Hc by lia.
  decompose [or] Hc; subst c; reflexivity.
Qed.

Lemma set_start_end_position (pl : Player) :
  position (set_start_end pl) = position pl.
Proof.
  unfold set_start_end.
  repeat (destruct (String.eqb _ _); [reflexivity|]). reflexivity.
Qed.

Lemma int_start_set_start_end (pl : Player) :
  position pl ∈ ["A"; "B"; "C"; "D"] ->
  int (start (set_start_end pl)) = OK (entry_offset (position pl)).
Proof.
  intros Hpos. unfold set_start_end, entry_offset.
  repeat (apply elem_of_cons in Hpos as [-> | Hpos]; [reflexivity|]).
  inversion Hpos.
Qed.

(** C4: for each of the four seats A, B, C, D (entry offsets 1, 15, 29, 43)
    and every counter of the domain, the square name is "H" for -1, "R" for
    0, the decimal label of offset + c - 1 (less 56 when above 56) for c in
    1..50, the seat letter followed by the last digit of c for c in 51..56,
    and "E" for 57. *)
Theorem get_space_name_spec (pl0 : Player) (c : Z) :
  position pl0 ∈ ["A"; "B"; "C"; "D"] ->
  let pl := set_start_end pl0 in
  let o := entry_offset (position pl0) in
  int (start pl) = OK o /\
  (position pl0 = "A" -> o = 1) /\ (position pl0 = "B" -> o = 15) /\
  (position pl0 = "C" -> o = 29) /\ (position pl0 = "D" -> o = 43) /\
  (c = -1 -> get_space_name pl c = OK (Some "H")) /\
  (c = 0 -> get_space_name pl c = OK (Some "R")) /\
  (1 <= c <= 50 ->
   get_space_name pl c =
     OK (Some (str (if o + c - 1 >? 56 then o + c - 1 - 56 else o + c - 1)))) /\
  (51 <= c <= 56 ->
   get_space_name pl c = OK (Some (position pl0 ++ str (c mod 10)))) /\
  (c = 57 -> get_space_name pl c = OK (Some "E")).
Proof.
  intros Hpos pl o. subst pl o.
  split; [apply int_start_set_start_end; exact Hpos|].
  repeat split; try (intros ->; reflexivity).
  - intros Hc. unfold get_space_name.
    destruct (Z.eqb_spec c (-1)); [lia|].
    destruct (Z.eqb_spec c 0); [lia|].
    destruct (Z.leb_spec 1 c); [|lia].
    destruct (Z.leb_spec c 50); [|lia].
    simpl. rewrite int_start_set_start_end by exact Hpos.
    reflexivity.
  - intros Hc. unfold get_space_name.
    destruct (Z.eqb_spec c (-1)); [lia|].
    destruct (Z.eqb_spec c 0); [lia|].
    destruct (Z.leb_spec c 50); [lia|].
    rewrite andb_false_r.
    destruct (Z.leb_spec 51 c); [|lia].
    destruct (Z.leb_spec c 56); [|lia].
    simpl. rewrite set_start_end_position, last_digit_51_56 by exact Hc.
    reflexivity.
Qed.

Lemma get_space_name_spec_witness :
  get_space_name (set_start_end (new_Player "B")) 47 = OK (Some "5")
  /\ get_space_name (set_start_end (new_Player "B")) 53 = OK (Some "B3").
Proof.
  pose proof (get_space_name_spec (new_Player "B") 47) as H47.
  pose proof (get_space_name_spec (new_Player "B") 53) as H53.
  split.
  - apply H47; [simpl; repeat constructor | lia].
  - apply H53; [simpl; repeat constructor | lia].
Defined.

(** ** Seat lookup *)

(** C9, as the code has it: looking up a position that is not in the players
    dictionary returns the string "Player not found!"; no exception is
    raised. *)
Theorem get_player_by_position_unknown (g : LudoGame) (pos : string) :
  dict_get (players g) pos = None ->
  get_player_by_position g pos = OK (StrObj "Player not found!").
Proof.
  intros H. unfold get_player_by_position. rewrite H. reflexivity.
Qed.

Lemma get_player_by_position_unknown_witness :
  get_player_by_position new_LudoGame "A" = OK (StrObj "Player not found!").
Proof.
  apply (get_player_by_position_unknown new_LudoGame "A"). reflexivity.
Defined.

(** C9, as the specification words it (the lookup of an absent position
    fails), does not hold: on a new game the lookup of "A" returns. *)
Lemma get_player_by_position_raises_counterexample :
  ~ (forall (g : LudoGame) (pos : string),
       dict_get (players g) pos = None ->
       exists e, get_player_by_position g pos = Raise e).
Proof.
  intros H. destruct (H new_LudoGame "A" eq_refl) as [e He].
  vm_compute in He. discriminate He.
Qed.

(** The failure only shows when a turn uses the string as a player. *)
Lemma take_turn_unknown (g : LudoGame) (pos : string) (roll : Z) :
  dict_get (players g) pos = None ->
  take_turn g (pos, roll) = Raise AttributeError.
Proof.
  intros H. unfold take_turn, get_player_by_position. simpl.
  rewrite H. reflexivity.
Qed.

(** ** Frame properties: what a call leaves unchanged *)

Lemma same_seats_refl (g : LudoGame) : same_seats g g.
Proof. repeat split. Qed.

Lemma same_seats_trans (g1 g2 g3 : LudoGame) :
  same_seats g1 g2 -> same_seats g2 g3 -> same_seats g1 g3.
Proof.
  intros (? & ? & ?) (? & ? & ?). repeat split; congruence.
Qed.

Lemma same_seats_write (g : LudoGame) (a : addr) (pl : Player) :
  same_seats g (write g a pl).
Proof.
  repeat split. simpl. apply length_insert.
Qed.

Lemma refresh_board_frame (g g' : LudoGame) :
  refresh_board g = OK g' -> store g' = store g /\ same_seats g g'.
Proof.
  unfold refresh_board. intros H. inv_bind. subst g'.
  repeat split.
Qed.

Lemma kick_home_inv (g g' : LudoGame) (player : addr) (index : nat) :
  kick_home g player index = OK g' ->
  exists pl, store g !! player = Some pl
             /\ store g' = <[player := send_home pl index]> (store g)
             /\ same_seats g g'.
Proof.
  unfold kick_home. intros H. inv_bind.
  apply refresh_board_frame in H as [Hst Hs].
  exists x. split; [assumption|]. split; [exact Hst|].
  eapply same_seats_trans; [apply same_seats_write | exact Hs].
Qed.

Lemma occupied_space_check_inv (g g' : LudoGame) (player : addr)
  (token : TokenRef) (roll : Z) :
  occupied_space_check g player token roll = OK g' ->
  g' = g \/ exists other index, other <> player
                               /\ kick_home g other index = OK g'.
Proof.
  unfold occupied_space_check. intros H. inv_bind.
  destruct (bool_decide (token = get_token_p player)); inv_bind.
  all: destruct (list_in _ _); inv_bind; [|left; congruence].
  all: match type of H with
       | context [bool_decide (?a <> ?o)] =>
           destruct (bool_decide_reflect (a <> o)); inv_bind;
           [right; exists o; eexists; split; [congruence | eassumption]
           |left; congruence]
       end.
Qed.

Lemma occupied_space_check_frame (g g' : LudoGame) (player : addr)
  (token : TokenRef) (roll : Z) :
  occupied_space_check g player token roll = OK g' ->
  store g' !! player = store g !! player /\ same_seats g g'.
Proof.
  intros H. apply occupied_space_check_inv in H as [-> | (other & index & Hne & H)].
  - split; [reflexivity | apply same_seats_refl].
  - apply kick_home_inv in H as (pl & Hpl & Hst & Hs).
    split; [|exact Hs]. rewrite Hst.
    apply list_lookup_insert_ne. exact Hne.
Qed.

Lemma occupied_space_check_store (g g' : LudoGame) (player : addr)
  (token : TokenRef) (roll : Z) :
  occupied_space_check g player token roll = OK g' ->
  after_check player (store g) (store g').
Proof.
  intros H. apply occupied_space_check_inv in H as [-> | (other & index & Hne & H)].
  - left. reflexivity.
  - apply kick_home_inv in H as (plo & Hplo & Hst & _).
    right. exists other, index, plo. auto.
Qed.

(** ** The effect of [move_token] on the moving player *)

(** Reading back the record just written at [a]. *)
Ltac read_back :=
  match goal with
  | H : <[?a := ?v]> _ !! ?a = Some ?w |- _ =>
      apply list_lookup_insert_Some in H as [(_ & <- & _) | (? & _)];
      [|congruence]
  end.

Lemma move_token_store (g g' : LudoGame) (a : addr) (token : string) (roll : Z) :
  move_token g a token roll = OK g' ->
  exists (pl : Player) (st1 : list Player),
    store g !! a = Some pl
    /\ after_check a (store g) st1
    /\ store g' = <[a := moved_player pl token roll]> st1
    /\ same_seats g g'.
Proof.
  unfold move_token, moved_player. intros H.
  apply bind_OK in H as (pl & Hpl & H). apply deref_OK in Hpl.
  exists pl.
  assert (Hid : store g = <[a := pl]> (store g))
    by (symmetry; apply list_insert_id; exact Hpl).
  assert (Hrelease : forall plr g1 plf,
            store (write g a plr) !! a = Some plf ->
            write (write g a plr) a (stack_if_possible g1) = g' ->
            plf = plr /\ store g' = <[a := stack_if_possible g1]> (store g)
            /\ same_seats g g').
  { intros plr g1 plf Hl <-. simpl in *. read_back.
    rewrite list_insert_insert_eq. repeat split.
    simpl. rewrite !length_insert. reflexivity. }
  assert (Hadvance : forall t g1 pl1 pla plf,
            occupied_space_check g a t roll = OK g1 ->
            store g1 !! a = Some pl1 ->
            store (write g1 a pla) !! a = Some plf ->
            pl1 = pl /\ plf = pla /\ after_check a (store g) (store g1)
            /\ (forall f, store (write (write g1 a pla) a f) = <[a := f]> (store g1))
            /\ (forall f, same_seats g (write (write g1 a pla) a f))).
  { intros t g1 pl1 pla plf Hc Hl1 Hlf.
    pose proof (occupied_space_check_frame _ _ _ _ _ Hc) as [Hsame Hs].
    rewrite Hsame, Hpl in Hl1. injection Hl1 as <-.
    simpl in Hlf. read_back.
    split; [reflexivity|]. split; [reflexivity|].
    split; [eapply occupied_space_check_store; exact Hc|].
    split; intros f; simpl; [apply list_insert_insert_eq|].
    destruct Hs as (? & ? & ?). repeat split; simpl; try assumption.
    rewrite !length_insert. assumption. }
  destruct (String.eqb token "p") eqn:Hp;
    [apply String.eqb_eq in Hp; subst token
    |destruct (String.eqb token "q") eqn:Hq;
     [apply String.eqb_eq in Hq; subst token|]].
  - (* token == 'p' *)
    destruct (p_steps pl =? 57).
    { inv_bind. subst g'. exists (store g).
      split; [exact Hpl|]. split; [left; reflexivity|].
      split; [exact Hid | apply same_seats_refl]. }
    apply bind_OK in H as (g2 & Hg2 & H).
    apply bind_OK in H as (plf & Hplf & H). apply deref_OK in Hplf.
    injection H as H.
    destruct (bool_decide (home_yard_check pl = Some "p")
              || bool_decide (home_yard_check pl = Some "both")).
    + injection Hg2 as <-.
      destruct (Hrelease _ _ _ Hplf H) as (-> & Hst & Hs).
      exists (store g). split; [exact Hpl|]. split; [left; reflexivity|].
      split; assumption.
    + apply bind_OK in Hg2 as (g1 & Hc & Hg2).
      apply bind_OK in Hg2 as (pl1 & Hpl1 & Hg2). apply deref_OK in Hpl1.
      injection Hg2 as <-.
      destruct (Hadvance _ _ _ _ _ Hc Hpl1 Hplf) as (-> & -> & Hac & Hst & Hs).
      exists (store g1). subst g'. split; [exact Hpl|]. split; [exact Hac|].
      split; [apply Hst | apply Hs].
  - (* token == 'q' *)
    destruct (q_steps pl =? 57).
    { inv_bind. subst g'. exists (store g).
      split; [exact Hpl|]. split; [left; reflexivity|].
      split; [exact Hid | apply same_seats_refl]. }
    apply bind_OK in H as (g2 & Hg2 & H).
    apply bind_OK in H as (plf & Hplf & H). apply deref_OK in Hplf.
    injection H as H.
    destruct (bool_decide (home_yard_check pl = Some "q")).
    + injection Hg2 as <-.
      destruct (Hrelease _ _ _ Hplf H) as (-> & Hst & Hs).
      exists (store g). split; [exact Hpl|]. split; [left; reflexivity|].
      split; assumption.
    + apply bind_OK in Hg2 as (g1 & Hc & Hg2).
      apply bind_OK in Hg2 as (pl1 & Hpl1 & Hg2). apply deref_OK in Hpl1.
      injection Hg2 as <-.
      destruct (Hadvance _ _ _ _ _ Hc Hpl1 Hplf) as (-> & -> & Hac & Hst & Hs).
      exists (store g1). subst g'. split; [exact Hpl|]. split; [exact Hac|].
      split; [apply Hst | apply Hs].
  - (* any other token *)
    injection H as <-. exists (store g).
    split; [exact Hpl|]. split; [left; reflexivity|].
    split; [reflexivity | apply same_seats_write].
Qed.

Lemma after_check_length (a : addr) (st st1 : list Player) :
  after_check a st st1 -> length st1 = length st.
Proof.
  intros [-> | (other & index & plo & _ & _ & ->)];
    [reflexivity | apply length_insert].
Qed.

(** After a move, the store holds [moved_player] at the address of the
    moving player. *)
Lemma move_token_player (g g' : LudoGame) (a : addr) (pl : Player)
  (token : string) (roll : Z) :
  store g !! a = Some pl ->
  move_token g a token roll = OK g' ->
  store g' !! a = Some (moved_player pl token roll).
Proof.
  intros Hpl H.
  apply move_token_store in H as (pl' & st1 & Hpl' & Hac & -> & _).
  assert (pl' = pl) as -> by congruence.
  apply list_lookup_insert_eq.
  rewrite (after_check_length _ _ _ Hac).
  eapply lookup_lt_Some; exact Hpl.
Qed.

(** ** Finished tokens *)

(** C7: moving a token whose counter is already 57 returns the game
    unchanged, whatever the roll: both counters, both location tags, both
    stacked flags of the player, every other player and the board are the
    ones before the call. *)
Theorem move_token_finished_noop (g : LudoGame) (a : addr) (pl : Player)
  (token : string) (roll : Z) :
  store g !! a = Some pl ->
  (token = "p" /\ p_steps pl = 57) \/ (token = "q" /\ q_steps pl = 57) ->
  move_token g a token roll = OK g.
Proof.
  intros Hpl [[-> Hc] | [-> Hc]]; unfold move_token, deref;
    rewrite Hpl; simpl; rewrite Hc; reflexivity.
Qed.

Lemma move_token_finished_noop_witness :
  tokens_at finished_game 1%nat
    = Some (57, -1, (HasFinished, InTheHomeYard), (false, false))
  /\ move_token finished_game 1%nat "p" 4 = OK finished_game.
Proof.
  split; [vm_compute; reflexivity|].
  eapply (move_token_finished_noop finished_game 1%nat _ "p" 4).
  - vm_compute. reflexivity.
  - left. split; reflexivity.
Defined.

(** ** Stacked tokens *)

Lemma twin_ok_spec (pl : Player) :
  twin_ok pl = true <->
  stacked (token_p pl) = stacked (token_q pl)
  /\ (stacked (token_p pl) = true ->
      p_steps pl = q_steps pl
      /\ (p_steps pl = 57 -> token_locs pl = (HasFinished, HasFinished))).
Proof.
  unfold twin_ok.
  rewrite andb_true_iff, orb_true_iff, andb_true_iff, orb_true_iff,
    negb_true_iff, negb_true_iff, !bool_decide_eq_true, Z.eqb_eq, Z.eqb_neq.
  destruct (stacked (token_p pl)); intuition (try discriminate; try lia).
  destruct (Z.eq_dec (p_steps pl) 57); auto.
Qed.

(** Case analysis on the tests of a goal about player records. *)
Ltac no_test x :=
  lazymatch x with
  | context [if _ then _ else _] => fail
  | _ => idtac
  end.

Ltac split_tests :=
  repeat match goal with
  | _ => progress cbn
  | |- context [Z.eqb ?x ?y] => no_test x; destruct (Z.eqb_spec x y)
  | |- context [Z.gtb ?x ?y] => no_test x; rewrite (Z.gtb_ltb x y)
  | |- context [Z.ltb ?x ?y] => no_test y; destruct (Z.ltb_spec x y)
  | |- context [Z.leb ?x ?y] => no_test x; destruct (Z.leb_spec x y)
  | _ => case_bool_decide
  end.

Ltac open_player pl :=
  destruct pl as [? ? ? [? ?] ? ? ? [? [|]] [? [|]]];
  unfold stack_if_possible, stacked_follow_p, stacked_follow_q,
    release_p, release_q, advance_p, advance_q, can_token_stack, send_home;
  cbn.

(** Proves that an updated record keeps the invariant. *)
Ltac keep_twin_ok pl :=
  let H := fresh "H" in
  let Hs := fresh "Hs" in
  let Hi := fresh "Hi" in
  intros H; apply twin_ok_spec in H; destruct H as [Hs Hi];
  apply twin_ok_spec; open_player pl; cbn in Hs, Hi;
  try discriminate Hs;
  try (destruct (Hi eq_refl) as [? ?]; clear Hi);
  split_tests;
  (split; [reflexivity|]); intros; try discriminate;
  (split; [lia|]); intros; try lia; try congruence; auto.

Lemma twin_ok_new_Player (pos : string) :
  twin_ok (set_start_end (new_Player pos)) = true.
Proof.
  unfold set_start_end. simpl.
  repeat (destruct (String.eqb pos _); [reflexivity|]). reflexivity.
Qed.

Lemma twin_ok_send_home (pl : Player) (index : nat) :
  twin_ok pl = true -> twin_ok (send_home pl index) = true.
Proof.
  unfold send_home. destruct (Nat.eqb _ _); keep_twin_ok pl.
Qed.

Lemma twin_ok_release_p (pl : Player) :
  twin_ok pl = true ->
  twin_ok (stack_if_possible (stacked_follow_p (release_p pl))) = true.
Proof. keep_twin_ok pl. Qed.

Lemma twin_ok_advance_p (pl : Player) (roll : Z) :
  twin_ok pl = true ->
  twin_ok (stack_if_possible (stacked_follow_p (advance_p pl roll))) = true.
Proof. keep_twin_ok pl. Qed.

Lemma twin_ok_release_q (pl : Player) :
  twin_ok pl = true ->
  twin_ok (stack_if_possible (stacked_follow_q (release_q pl))) = true.
Proof. keep_twin_ok pl. Qed.

Lemma twin_ok_advance_q (pl : Player) (roll : Z) :
  twin_ok pl = true ->
  twin_ok (stack_if_possible (stacked_follow_q (advance_q pl roll))) = true.
Proof. keep_twin_ok pl. Qed.

Lemma twin_ok_stack_if_possible (pl : Player) :
  twin_ok pl = true -> twin_ok (stack_if_possible pl) = true.
Proof. keep_twin_ok pl. Qed.

Lemma twin_ok_moved_player (pl : Player) (token : string) (roll : Z) :
  twin_ok pl = true -> twin_ok (moved_player pl token roll) = true.
Proof.
  intros H. unfold moved_player.
  destruct (String.eqb token "p"); [|destruct (String.eqb token "q")].
  - destruct (p_steps pl =? 57); [exact H|].
    destruct (_ || _);
      [apply twin_ok_release_p | apply twin_ok_advance_p]; exact H.
  - destruct (q_steps pl =? 57); [exact H|].
    destruct (bool_decide _);
      [apply twin_ok_release_q | apply twin_ok_advance_q]; exact H.
  - apply twin_ok_stack_if_possible. exact H.
Qed.

Lemma moved_player_stacked_follow (pl : Player) (token : string) (roll : Z) :
  token = "p" \/ token = "q" ->
  steps_of pl token <> 57 ->
  stacked_of pl token = true ->
  let pl' := moved_player pl token roll in
  steps_of pl' (sibling token) = steps_of pl' token
  /\ (steps_of pl' token = 57 -> loc_of pl' (sibling token) = HasFinished).
Proof.
  unfold moved_player, steps_of, loc_of, stacked_of, sibling.
  intros [-> | ->] Hne Hst; cbn in *.
  - destruct (Z.eqb_spec (p_steps pl) 57) as [|_]; [contradiction|].
    destruct (_ || _); open_player pl; cbn in *; try discriminate;
      split_tests; split; intros; try lia; reflexivity.
  - destruct (Z.eqb_spec (q_steps pl) 57) as [|_]; [contradiction|].
    destruct (bool_decide _); open_player pl; cbn in *; try discriminate;
      split_tests; split; intros; try lia; reflexivity.
Qed.

Lemma moved_player_stacks (pl : Player) (token : string) (roll : Z) :
  stacked (token_p pl) = false ->
  let pl' := moved_player pl token roll in
  0 < p_steps pl' < 57 -> p_steps pl' = q_steps pl' ->
  stacked (token_p pl') = true /\ stacked (token_q pl') = true.
Proof.
  intros Hp. unfold moved_player.
  repeat match goal with
  | |- context [if ?b then _ else _] => no_test b; destruct b eqn:?
  end; open_player pl; cbn in *; try discriminate; split_tests;
    intros; try lia; split; reflexivity.
Qed.

(** ** Invariants of the reachable games *)

Lemma setup_players_inv (g g' : LudoGame) (player_list : list string)
  (Q : LudoGame -> Prop) :
  (forall g pos, Q g -> Q (player_setup g pos)) ->
  (forall g g', Q g -> refresh_board g = OK g' -> Q g') ->
  setup_players g player_list = OK g' -> Q g -> Q g'.
Proof.
  intros Hsetup Hrefresh. revert g.
  induction player_list as [|pos rest IH]; simpl; intros g H Hg.
  - injection H as <-. exact Hg.
  - apply bind_OK in H as (g1 & Hg1 & H).
    eapply IH; [exact H|]. eapply Hrefresh; [|exact Hg1]. auto.
Qed.

Lemma take_turns_inv (g g' : LudoGame) (turn_list : list (string * Z))
  (Q : LudoGame -> Prop) :
  (forall g g' turn, Q g -> take_turn g turn = OK g' -> Q g') ->
  take_turns g turn_list = OK g' -> Q g -> Q g'.
Proof.
  intros Hturn. revert g.
  induction turn_list as [|turn rest IH]; simpl; intros g H Hg.
  - injection H as <-. exact Hg.
  - apply bind_OK in H as (g1 & Hg1 & H).
    eapply IH; [exact H|]. eapply Hturn; eassumption.
Qed.

(** What a turn is made of: nothing or a call of [move_token] or the last
    statement of it, then the refresh of the board. *)
Lemma take_turn_inv (g g' : LudoGame) (turn : string * Z) :
  take_turn g turn = OK g' ->
  exists (a : addr) (g1 : LudoGame),
    dict_get (players g) (fst turn) = Some a
    /\ (g1 = g \/ exists token, move_token g a token (snd turn) = OK g1)
    /\ refresh_board g1 = OK g'.
Proof.
  unfold take_turn, get_player_by_position. intros H.
  destruct (dict_get (players g) (fst turn)) as [a|]; simpl in H;
    [|discriminate H].
  apply bind_OK in H as (token & Htoken & H).
  apply bind_OK in H as (g1 & Hg1 & H).
  exists a, g1. split; [reflexivity|]. split; [|exact H].
  destruct token as [t|]; [|left; congruence].
  right. repeat case_bool_decide; eauto.
  exists "". unfold move_token. simpl. exact Hg1.
Qed.

Lemma take_turn_same_seats (g g' : LudoGame) (turn : string * Z) :
  take_turn g turn = OK g' -> same_seats g g'.
Proof.
  intros H. apply take_turn_inv in H as (a & g1 & _ & Hg1 & H).
  apply refresh_board_frame in H as [_ Hs].
  eapply same_seats_trans; [|exact Hs].
  destruct Hg1 as [-> | [token Hmove]]; [apply same_seats_refl|].
  apply move_token_store in Hmove as (pl & st1 & _ & _ & _ & Hs').
  exact Hs'.
Qed.

Section StoreInvariant.

Variable P : Player -> Prop.
Hypothesis P_new : forall pos, P (set_start_end (new_Player pos)).
Hypothesis P_send_home : forall pl index, P pl -> P (send_home pl index).
Hypothesis P_moved : forall pl token roll, P pl -> P (moved_player pl token roll).

Lemma after_check_Forall (a : addr) (st st1 : list Player) :
  after_check a st st1 -> Forall P st -> Forall P st1.
Proof using P_send_home.
  intros [-> | (other & index & plo & _ & Hplo & ->)] Hall; [exact Hall|].
  apply Forall_insert; [exact Hall|].
  apply P_send_home. eapply Forall_lookup_1; eassumption.
Qed.

Lemma move_token_Forall (g g' : LudoGame) (a : addr) (token : string) (roll : Z) :
  move_token g a token roll = OK g' ->
  Forall P (store g) -> Forall P (store g').
Proof using P_send_home P_moved.
  intros H Hall.
  apply move_token_store in H as (pl & st1 & Hpl & Hac & -> & _).
  apply Forall_insert; [eapply after_check_Forall; eassumption|].
  apply P_moved. eapply Forall_lookup_1; eassumption.
Qed.

Lemma refresh_board_Forall (g g' : LudoGame) :
  Forall P (store g) -> refresh_board g = OK g' -> Forall P (store g').
Proof using Type.
  intros Hall H. apply refresh_board_frame in H as [-> _]. exact Hall.
Qed.

Lemma player_setup_Forall (g : LudoGame) (pos : string) :
  Forall P (store g) -> Forall P (store (player_setup g pos)).
Proof using P_new.
  intros Hall. simpl. apply Forall_app. split; [exact Hall|].
  constructor; [apply P_new | constructor].
Qed.

Lemma take_turn_Forall (g g' : LudoGame) (turn : string * Z) :
  Forall P (store g) -> take_turn g turn = OK g' -> Forall P (store g').
Proof using P_send_home P_moved.
  intros Hall H.
  apply take_turn_inv in H as (a & g1 & _ & Hg1 & H).
  eapply refresh_board_Forall; [|exact H].
  destruct Hg1 as [-> | [token Hmove]]; [exact Hall|].
  eapply move_token_Forall; eassumption.
Qed.

Lemma play_game_Forall (g g' : LudoGame) (player_list : list string)
  (turn_list : list (string * Z)) (out : list Space) :
  play_game g player_list turn_list = OK (g', out) ->
  Forall P (store g) -> Forall P (store g').
Proof using P_new P_send_home P_moved.
  unfold play_game. intros H Hall.
  apply bind_OK in H as (g1 & Hg1 & H).
  apply bind_OK in H as (g2 & Hg2 & H).
  apply bind_OK in H as (n & _ & H).
  injection H as <- _.
  assert (Forall P (store g2)) as Hall2.
  { eapply (take_turns_inv g1 g2 turn_list (fun g => Forall P (store g)));
      [intros; eapply take_turn_Forall; eassumption | exact Hg2 |].
    eapply (setup_players_inv g g1 player_list (fun g => Forall P (store g)));
      [apply player_setup_Forall | apply refresh_board_Forall
      | exact Hg1 | exact Hall]. }
  destruct (n =? _); exact Hall2.
Qed.

Theorem reachable_Forall (g : LudoGame) :
  reachable g -> Forall P (store g).
Proof using P_new P_send_home P_moved.
  induction 1.
  - constructor.
  - apply player_setup_Forall. assumption.
  - eapply refresh_board_Forall; eassumption.
  - eapply move_token_Forall; eassumption.
  - eapply play_game_Forall; eassumption.
Qed.

End StoreInvariant.

(** Every player of a reachable game satisfies the invariant of stacked
    tokens. *)
Lemma reachable_twin_ok (g : LudoGame) (a : addr) (pl : Player) :
  reachable g -> store g !! a = Some pl -> twin_ok pl = true.
Proof.
  intros Hg Hpl.
  eapply (Forall_lookup_1 (fun pl => twin_ok pl = true)); [|exact Hpl].
  apply reachable_Forall; [| | |exact Hg].
  - apply twin_ok_new_Player.
  - apply twin_ok_send_home.
  - apply twin_ok_moved_player.
Qed.

(** ** Calls that do not raise *)

Lemma get_space_name_OK (pl : Player) (steps : Z) :
  valid_player pl -> exists space, get_space_name pl steps = OK space.
Proof.
  intros [offset Hoffset]. unfold get_space_name. rewrite Hoffset. simpl.
  repeat match goal with
  | |- context [if ?b then _ else _] => destruct b
  end; eauto.
Qed.

Lemma dict_set_Forall {K V : Type} `{EqDecision K} (Q : K * V -> Prop)
  (d : list (K * V)) (k : K) (v : V) :
  Forall Q d -> Q (k, v) -> Forall Q (dict_set d k v).
Proof.
  intros Hd Hkv. induction Hd as [|[k' v'] rest Hhead Hrest IH]; simpl.
  - constructor; [exact Hkv | constructor].
  - destruct (decide (k' = k)); constructor; assumption.
Qed.

Lemma dict_get_set_eq {K V : Type} `{EqDecision K} (d : list (K * V)) (k : K) (v : V) :
  dict_get (dict_set d k v) k = Some v.
Proof.
  induction d as [|[k' v'] rest IH]; simpl.
  - destruct (decide (k = k)); [reflexivity | contradiction].
  - destruct (decide (k' = k)) as [Heq | Hne]; simpl.
    + destruct (decide (k = k)); [reflexivity | contradiction].
    + destruct (decide (k' = k)); [contradiction | exact IH].
Qed.

Lemma dict_get_set_is_Some {K V : Type} `{EqDecision K} (d : list (K * V))
  (k k' : K) (v : V) :
  is_Some (dict_get d k') -> is_Some (dict_get (dict_set d k v) k').
Proof.
  induction d as [|[k0 v0] rest IH]; simpl; intros Hsome.
  - destruct Hsome as [? Hsome]. discriminate Hsome.
  - destruct (decide (k0 = k)) as [-> | Hne]; simpl.
    + destruct (decide (k = k')); [eauto | exact Hsome].
    + destruct (decide (k0 = k')); [eauto | apply IH; exact Hsome].
Qed.

Lemma dict_get_Some_In {K V : Type} `{EqDecision K} (d : list (K * V)) (k : K) (v : V) :
  dict_get d k = Some v -> (k, v) ∈ d.
Proof.
  induction d as [|[k' v'] rest IH]; simpl; intros H; [discriminate H|].
  destruct (decide (k' = k)) as [-> | Hne].
  - injection H as ->. apply list_elem_of_here.
  - apply list_elem_of_further, IH, H.
Qed.

Lemma list_index_OK {A : Type} `{EqDecision A} (x : A) (l : list A) :
  list_in x l = true ->
  exists i, list_index x l = OK i /\ (i < length l)%nat.
Proof.
  unfold list_in. rewrite bool_decide_eq_true.
  induction l as [|y rest IH]; simpl; intros Hin.
  - inversion Hin.
  - destruct (decide (y = x)) as [-> | Hne].
    + exists 0%nat. split; [reflexivity | lia].
    + apply elem_of_cons in Hin as [-> | Hin]; [contradiction|].
      destruct (IH Hin) as (i & -> & Hi). exists (S i). simpl.
      split; [reflexivity | lia].
Qed.

Lemma set_tokens_in_play_OK (st : list Player) (b : Board) (player_list : list addr) :
  Forall valid_player st ->
  Forall (fun a => (a < length st)%nat) player_list ->
  Forall (fun e : TokenRef * Space => (get_owner (fst e) < length st)%nat)
         (tokens_in_play b) ->
  exists b',
    set_tokens_in_play st b player_list = OK b'
    /\ Forall (fun e : TokenRef * Space => (get_owner (fst e) < length st)%nat)
              (tokens_in_play b').
Proof.
  intros Hst Hlist. revert b.
  induction Hlist as [|a rest Ha Hrest IH]; intros b Hb;
    cbn [set_tokens_in_play].
  - eauto.
  - apply lookup_lt_is_Some in Ha as [pl Hpl].
    rewrite (proj2 (deref_OK _ _ _) Hpl). cbn [bind].
    assert (valid_player pl) as Hvalid
      by (eapply (Forall_lookup_1 valid_player); eassumption).
    destruct (get_space_name_OK pl (p_steps pl) Hvalid) as [p_space ->].
    destruct (get_space_name_OK pl (q_steps pl) Hvalid) as [q_space ->].
    cbn [bind]. apply IH. cbn [tokens_in_play].
    assert ((a < length st)%nat) by (eapply lookup_lt_Some; exact Hpl).
    apply dict_set_Forall; [apply dict_set_Forall|]; assumption.
Qed.

Lemma refresh_board_OK (g : LudoGame) :
  valid_game g ->
  exists g', refresh_board g = OK g' /\ valid_game g' /\ same_seats g g'.
Proof.
  intros (Hplayers & Hboard & Hstore). unfold refresh_board.
  destruct (set_tokens_in_play_OK (store g) (board g) (dict_values (players g)))
    as (b' & -> & Hb'); [assumption | | assumption |].
  - unfold dict_values. apply Forall_fmap. exact Hplayers.
  - simpl. eexists. split; [reflexivity|]. split; [|repeat split].
    repeat split; assumption.
Qed.

Lemma valid_game_write (g : LudoGame) (a : addr) (pl : Player) :
  valid_game g -> valid_player pl -> valid_game (write g a pl).
Proof.
  intros (Hplayers & Hboard & Hstore) Hpl. unfold valid_game. simpl.
  rewrite length_insert. repeat split; try assumption.
  apply Forall_insert; assumption.
Qed.

Lemma valid_game_lookup (g : LudoGame) (a : addr) (pl : Player) :
  valid_game g -> store g !! a = Some pl -> valid_player pl.
Proof.
  intros (_ & _ & Hstore) Hpl.
  eapply (Forall_lookup_1 valid_player); eassumption.
Qed.

Lemma start_send_home (pl : Player) (index : nat) :
  start (send_home pl index) = start pl.
Proof.
  unfold send_home.
  repeat match goal with
  | |- context [if ?b then _ else _] => destruct b
  end; reflexivity.
Qed.

Lemma kick_home_OK (g : LudoGame) (player : addr) (index : nat) :
  valid_game g -> (player < length (store g))%nat ->
  exists g', kick_home g player index = OK g' /\ valid_game g'.
Proof.
  intros Hg Hplayer. unfold kick_home.
  apply lookup_lt_is_Some in Hplayer as [pl Hpl].
  rewrite (proj2 (deref_OK _ _ _) Hpl). cbn [bind].
  destruct (refresh_board_OK (write g player (send_home pl index)))
    as (g' & Hg' & Hvalid & _); [|eauto].
  apply valid_game_write; [exact Hg|].
  destruct (valid_game_lookup g player pl Hg Hpl) as [offset Hoffset].
  exists offset. rewrite start_send_home. exact Hoffset.
Qed.

Lemma list_get_OK {A : Type} (l : list A) (i : nat) :
  (i < length l)%nat -> exists x, list_get l i = OK x /\ x ∈ l.
Proof.
  intros Hi. apply lookup_lt_is_Some in Hi as [x Hx].
  exists x. unfold list_get. rewrite Hx.
  split; [reflexivity | eapply list_elem_of_lookup_2; exact Hx].
Qed.

(** The key found for a square that is on the board, and its owner. *)
Lemma board_key_OK (g : LudoGame) (space : Space) :
  valid_game g ->
  list_in space (occupied_spaces (board g)) = true ->
  exists index k,
    list_index space (occupied_spaces (board g)) = OK index
    /\ list_get (dict_keys (get_tokens_in_play (board g))) index = OK k
    /\ (get_owner k < length (store g))%nat.
Proof.
  intros (_ & Hboard & _) Hin.
  destruct (list_index_OK _ _ Hin) as (index & Hindex & Hlt).
  unfold occupied_spaces, dict_values in Hlt. rewrite length_fmap in Hlt.
  destruct (list_get_OK (dict_keys (get_tokens_in_play (board g))) index)
    as (k & Hk & Hkin).
  { unfold dict_keys, get_tokens_in_play. rewrite length_fmap. exact Hlt. }
  exists index, k. split; [exact Hindex|]. split; [exact Hk|].
  unfold dict_keys, get_tokens_in_play in Hkin.
  apply list_elem_of_fmap in Hkin as ([k' s] & -> & Hin').
  apply (proj1 (Forall_forall _ _) Hboard _ Hin').
Qed.

Lemma valid_player_start (pl pl' : Player) :
  start pl' = start pl -> valid_player pl -> valid_player pl'.
Proof.
  intros Hstart [offset Hoffset]. exists offset. rewrite Hstart. exact Hoffset.
Qed.

(** Proves that a block of [move_token] keeps the start square. *)
Ltac same_start :=
  unfold stack_if_possible, stacked_follow_p, stacked_follow_q, advance_p,
    advance_q, release_p, release_q;
  repeat match goal with
  | |- context [if ?b then _ else _] => no_test b; destruct b; simpl
  end; reflexivity.

Lemma occupied_space_check_OK (g : LudoGame) (player : addr) (token : TokenRef)
  (roll : Z) :
  valid_game g -> (player < length (store g))%nat ->
  exists g', occupied_space_check g player token roll = OK g' /\ valid_game g'.
Proof.
  intros Hg Hplayer. unfold occupied_space_check. cbv zeta.
  apply lookup_lt_is_Some in Hplayer as [pl Hpl].
  rewrite (proj2 (deref_OK _ _ _) Hpl). cbn [bind].
  pose proof (valid_game_lookup g player pl Hg Hpl) as Hvalid.
  destruct (bool_decide (token = get_token_p player)).
  - destruct (get_space_name_OK pl (p_steps pl + roll) Hvalid) as [space ->].
    cbn [bind].
    destruct (list_in space (occupied_spaces (board g))) eqn:Hin; [|eauto].
    destruct (board_key_OK g space Hg Hin) as (index & k & Hindex & Hkey & Hk).
    rewrite Hindex. cbn [bind]. rewrite Hkey. cbn [bind]. destruct (bool_decide (player <> get_owner k)); [|eauto].
    apply kick_home_OK; assumption.
  - destruct (get_space_name_OK pl (q_steps pl + roll) Hvalid) as [space ->].
    cbn [bind].
    destruct (list_in space (occupied_spaces (board g))) eqn:Hin; [|eauto].
    destruct (board_key_OK g space Hg Hin) as (index & k & Hindex & Hkey & Hk).
    rewrite Hindex. cbn [bind]. rewrite Hkey. cbn [bind]. destruct (bool_decide (player <> get_owner k)); [|eauto].
    apply kick_home_OK; assumption.
Qed.

Lemma can_player_attack_OK (g : LudoGame) (player : addr) (roll : Z) :
  valid_game g -> (player < length (store g))%nat ->
  exists token, can_player_attack g player roll = OK token.
Proof.
  intros Hg Hplayer. unfold can_player_attack. cbv zeta.
  apply lookup_lt_is_Some in Hplayer as [pl Hpl].
  rewrite (proj2 (deref_OK _ _ _) Hpl). cbn [bind].
  pose proof (valid_game_lookup g player pl Hg Hpl) as Hvalid.
  destruct (get_space_name_OK pl (p_steps pl + roll) Hvalid) as [space_p ->].
  destruct (get_space_name_OK pl (q_steps pl + roll) Hvalid) as [space_q ->].
  cbn [bind].
  destruct (list_in space_p (occupied_spaces (board g))) eqn:Hp;
    destruct (list_in space_q (occupied_spaces (board g))) eqn:Hq;
    cbn [andb]; eauto.
  - destruct (board_key_OK g space_p Hg Hp) as (index & k & Hindex & Hkey & _).
    rewrite Hindex. cbn [bind]. rewrite Hkey. cbn [bind]. destruct (bool_decide _); eauto.
  - destruct (board_key_OK g space_q Hg Hq) as (index & k & Hindex & Hkey & _).
    rewrite Hindex. cbn [bind]. rewrite Hkey. cbn [bind]. destruct (bool_decide _); eauto.
Qed.

Lemma token_determination_OK (g : LudoGame) (player : addr) (roll : Z) :
  valid_game g -> (player < length (store g))%nat ->
  exists token, token_determination g player roll = OK token.
Proof.
  intros Hg Hplayer.
  destruct (can_player_attack_OK g player roll Hg Hplayer) as [t Ht].
  assert (exists token, can_token_finish g player roll = OK token) as [t' Ht'].
  { unfold can_token_finish.
    apply lookup_lt_is_Some in Hplayer as [pl Hpl].
    rewrite (proj2 (deref_OK _ _ _) Hpl). cbn [bind]. rewrite Ht.
    repeat match goal with
    | |- context [if ?b then _ else _] => no_test b; destruct b
    end; eauto. }
  unfold token_determination.
  apply lookup_lt_is_Some in Hplayer as [pl Hpl].
  rewrite (proj2 (deref_OK _ _ _) Hpl). cbn [bind]. rewrite Ht'.
  repeat match goal with
  | |- context [if ?b then _ else _] => no_test b; destruct b
  end; eauto.
Qed.

Lemma write_read (g : LudoGame) (a : addr) (pl : Player) :
  (a < length (store g))%nat -> deref (store (write g a pl)) a = OK pl.
Proof.
  intros Ha. apply deref_OK. simpl. apply list_lookup_insert_eq. exact Ha.
Qed.

Lemma move_token_OK (g : LudoGame) (a : addr) (token : string) (roll : Z) :
  valid_game g -> (a < length (store g))%nat ->
  exists g', move_token g a token roll = OK g' /\ valid_game g'.
Proof.
  intros Hg Ha. unfold move_token.
  destruct (lookup_lt_is_Some_2 _ _ Ha) as [pl Hpl].
  rewrite (proj2 (deref_OK _ _ _) Hpl). cbn [bind].
  pose proof (valid_game_lookup g a pl Hg Hpl) as Hvalid.
  assert (Hfinish : forall (g1 : LudoGame) (pl1 : Player) (f : Player -> Player),
            valid_game g1 -> (a < length (store g1))%nat ->
            valid_player pl1 -> (forall x, start (f x) = start x) ->
            exists g',
              (pl2 <- deref (store (write g1 a pl1)) a;;
               OK (write (write g1 a pl1) a (stack_if_possible (f pl2)))) = OK g'
              /\ valid_game g').
  { intros g1 pl1 f Hg1 Ha1 Hpl1 Hf. rewrite write_read by exact Ha1.
    cbn [bind]. eexists. split; [reflexivity|].
    apply valid_game_write; [apply valid_game_write; assumption|].
    eapply valid_player_start; [|exact Hpl1].
    transitivity (start (f pl1)); [same_start | apply Hf]. }
  assert (Hadvance : forall (t : TokenRef) (adv f : Player -> Player),
            (forall x, start (adv x) = start x) ->
            (forall x, start (f x) = start x) ->
            exists g',
              (g1 <- (g0 <- occupied_space_check g a t roll;;
                      pl0 <- deref (store g0) a;;
                      OK (write g0 a (adv pl0)));;
               pl2 <- deref (store g1) a;;
               OK (write g1 a (stack_if_possible (f pl2)))) = OK g'
              /\ valid_game g').
  { intros t adv f Hadv Hf.
    destruct (occupied_space_check_OK g a t roll Hg Ha) as (g0 & Hcheck & Hg0).
    rewrite Hcheck. cbn [bind].
    apply occupied_space_check_frame in Hcheck as [Hsame (_ & _ & Hlen)].
    rewrite (proj2 (deref_OK _ _ _) (eq_trans Hsame Hpl)). cbn [bind].
    apply Hfinish; [exact Hg0 | lia | | exact Hf].
    eapply valid_player_start; [apply Hadv | exact Hvalid]. }
  destruct (String.eqb token "p"); [|destruct (String.eqb token "q")].
  - destruct (p_steps pl =? 57); [eauto|].
    destruct (_ || _).
    + cbn [bind].
      apply (Hfinish g (release_p pl) stacked_follow_p Hg Ha);
        [|intros; same_start].
      eapply valid_player_start; [|exact Hvalid]. same_start.
    + apply (Hadvance (get_token_p a) (fun x => advance_p x roll) stacked_follow_p);
        intros; same_start.
  - destruct (q_steps pl =? 57); [eauto|].
    destruct (bool_decide _).
    + cbn [bind].
      apply (Hfinish g (release_q pl) stacked_follow_q Hg Ha);
        [|intros; same_start].
      eapply valid_player_start; [|exact Hvalid]. same_start.
    + apply (Hadvance (get_token_q a) (fun x => advance_q x roll) stacked_follow_q);
        intros; same_start.
  - eexists. split; [reflexivity|].
    apply valid_game_write; [exact Hg|].
    eapply valid_player_start; [|exact Hvalid]. same_start.
Qed.

Lemma valid_game_player (g : LudoGame) (pos : string) (a : addr) :
  valid_game g -> dict_get (players g) pos = Some a ->
  (a < length (store g))%nat.
Proof.
  intros (Hplayers & _ & _) Hget. apply dict_get_Some_In in Hget.
  apply (proj1 (Forall_forall _ _) Hplayers _ Hget).
Qed.

Lemma take_turn_OK (g : LudoGame) (turn : string * Z) :
  valid_game g -> is_Some (dict_get (players g) (fst turn)) ->
  exists g', take_turn g turn = OK g' /\ valid_game g' /\ players g' = players g.
Proof.
  intros Hg [a Ha].
  assert (exists g', take_turn g turn = OK g' /\ valid_game g') as (g' & H & Hg').
  { pose proof (valid_game_player g _ a Hg Ha) as Hlt.
    unfold take_turn, get_player_by_position. rewrite Ha. cbn [bind].
    destruct (token_determination_OK g a (snd turn) Hg Hlt) as [token ->].
    cbn [bind].
    assert (exists g1,
              match token with
              | Some t =>
                  if bool_decide (t = get_token_p a)
                  then move_token g a "p" (snd turn)
                  else if bool_decide (t = get_token_q a)
                       then move_token g a "q" (snd turn)
                       else pl <- deref (store g) a;;
                            OK (write g a (stack_if_possible pl))
              | None => OK g
              end = OK g1 /\ valid_game g1) as (g1 & -> & Hg1).
    { destruct token as [t|]; [|eauto].
      destruct (bool_decide _); [apply move_token_OK; assumption|].
      destruct (bool_decide _); [apply move_token_OK; assumption|].
      apply (move_token_OK g a "" (snd turn)); assumption. }
    cbn [bind].
    destruct (refresh_board_OK g1 Hg1) as (g' & -> & Hg' & _). eauto. }
  exists g'. split; [exact H|]. split; [exact Hg'|].
  apply take_turn_same_seats in H as (_ & Hplayers & _). exact Hplayers.
Qed.

Lemma take_turns_OK (g : LudoGame) (turn_list : list (string * Z)) :
  valid_game g ->
  Forall (fun turn => is_Some (dict_get (players g) (fst turn))) turn_list ->
  exists g', take_turns g turn_list = OK g' /\ valid_game g'
             /\ players g' = players g.
Proof.
  intros Hg Hturns. revert g Hg Hturns.
  induction turn_list as [|turn rest IH]; intros g Hg Hturns;
    cbn [take_turns].
  - eauto.
  - apply Forall_cons in Hturns as [Hturn Hrest].
    destruct (take_turn_OK g turn Hg Hturn) as (g1 & -> & Hg1 & Hplayers).
    cbn [bind]. rewrite <- Hplayers in Hrest.
    destruct (IH g1 Hg1 Hrest) as (g' & -> & Hg' & Hplayers').
    exists g'. split; [reflexivity|]. split; [exact Hg' | congruence].
Qed.

Lemma player_setup_valid (g : LudoGame) (pos : string) :
  valid_game g -> pos ∈ ["A"; "B"; "C"; "D"] -> valid_game (player_setup g pos).
Proof.
  intros (Hplayers & Hboard & Hstore) Hpos. unfold valid_game. simpl.
  rewrite length_app. simpl. split; [|split].
  - apply dict_set_Forall; [|simpl; lia].
    eapply Forall_impl; [exact Hplayers|]. simpl. intros; lia.
  - eapply Forall_impl; [exact Hboard|]. simpl. intros; lia.
  - apply Forall_app. split; [exact Hstore|].
    constructor; [|constructor].
    exists (entry_offset pos). apply (int_start_set_start_end (new_Player pos)).
    exact Hpos.
Qed.

Lemma setup_players_OK (g : LudoGame) (player_list : list string) :
  valid_game g ->
  Forall (fun pos => pos ∈ ["A"; "B"; "C"; "D"]) player_list ->
  exists g',
    setup_players g player_list = OK g' /\ valid_game g'
    /\ forall pos,
         pos ∈ player_list \/ is_Some (dict_get (players g) pos) ->
         is_Some (dict_get (players g') pos).
Proof.
  intros Hg Hlist. revert g Hg.
  induction Hlist as [|pos rest Hpos Hrest IH]; intros g Hg;
    cbn [setup_players].
  - exists g. split; [reflexivity|]. split; [exact Hg|].
    intros pos [Hin | Hsome]; [inversion Hin | exact Hsome].
  - destruct (refresh_board_OK _ (player_setup_valid g pos Hg Hpos))
      as (g1 & -> & Hg1 & (_ & Hplayers & _)).
    cbn [bind]. destruct (IH g1 Hg1) as (g' & -> & Hg' & Hsome).
    exists g'. split; [reflexivity|]. split; [exact Hg'|].
    intros pos' Hpos'. apply Hsome.
    destruct Hpos' as [Hin | Hold].
    + apply elem_of_cons in Hin as [-> | Hin]; [|left; exact Hin].
      right. rewrite Hplayers. simpl. rewrite dict_get_set_eq. eauto.
    + right. rewrite Hplayers. simpl. apply dict_get_set_is_Some. exact Hold.
Qed.

Lemma count_completed_OK (g : LudoGame) (player_list : list string) :
  valid_game g ->
  Forall (fun pos => is_Some (dict_get (players g) pos)) player_list ->
  exists n, count_completed g player_list = OK n.
Proof.
  intros Hg Hlist.
  induction Hlist as [|pos rest [a Ha] Hrest [n IH]]; cbn [count_completed].
  - eauto.
  - unfold get_player_by_position. rewrite Ha. cbn [bind].
    destruct (lookup_lt_is_Some_2 _ _ (valid_game_player g pos a Hg Ha))
      as [pl Hpl].
    rewrite (proj2 (deref_OK _ _ _) Hpl). cbn [bind]. rewrite IH. cbn [bind].
    eauto.
Qed.

Lemma new_LudoGame_valid : valid_game new_LudoGame.
Proof. repeat split; constructor. Qed.

(** [play_game] returns whenever the positions of the player list are among
    A, B, C, D and every turn names a position of the list. *)
Theorem play_game_OK (g : LudoGame) (player_list : list string)
  (turn_list : list (string * Z)) :
  valid_game g ->
  Forall (fun pos => pos ∈ ["A"; "B"; "C"; "D"]) player_list ->
  Forall (fun turn => fst turn ∈ player_list) turn_list ->
  exists g' out, play_game g player_list turn_list = OK (g', out)
                 /\ valid_game g'.
Proof.
  intros Hg Hlist Hturns. unfold play_game.
  destruct (setup_players_OK g player_list Hg Hlist) as (g1 & -> & Hg1 & Hsome).
  cbn [bind].
  destruct (take_turns_OK g1 turn_list Hg1) as (g2 & -> & Hg2 & Hplayers).
  { eapply Forall_impl; [exact Hturns|]. intros turn Hin. apply Hsome.
    left. exact Hin. }
  cbn [bind].
  destruct (count_completed_OK g2 player_list Hg2) as [n ->].
  { apply Forall_forall. intros pos Hin. rewrite Hplayers. apply Hsome.
    left. exact Hin. }
  cbn [bind]. eexists _, _. split; [reflexivity|].
  destruct (n =? _); [|exact Hg2].
  destruct Hg2 as (? & ? & ?). repeat split; assumption.
Qed.

(** ** Stacked tokens move together *)

Lemma move_token_twins_returned (g g' : LudoGame) (a : addr) (pl : Player)
  (token : string) (roll : Z) :
  store g !! a = Some pl ->
  token = "p" \/ token = "q" ->
  twin_ok pl = true \/ steps_of pl token <> 57 ->
  move_token g a token roll = OK g' ->
  exists pl',
    store g' !! a = Some pl'
    /\ (stacked_of pl token = true ->
        steps_of pl' (sibling token) = steps_of pl' token
        /\ (steps_of pl' token = 57 -> loc_of pl' (sibling token) = HasFinished))
    /\ (stacked (token_p pl) = false -> stacked (token_q pl) = false ->
        0 < p_steps pl' < 57 -> p_steps pl' = q_steps pl' ->
        stacked (token_p pl') = true /\ stacked (token_q pl') = true).
Proof.
  intros Hpl Htok Hok Hmove.
  exists (moved_player pl token roll).
  split; [eapply move_token_player; eassumption|].
  split.
  - intros Hst.
    destruct (Z.eq_dec (steps_of pl token) 57) as [H57 | H57].
    + destruct Hok as [Hok | Hne]; [|contradiction].
      apply twin_ok_spec in Hok as [Heq Hinv].
      assert (moved_player pl token roll = pl) as ->.
      { unfold moved_player, steps_of in *.
        destruct Htok as [-> | ->]; cbn in *;
          apply Z.eqb_eq in H57; rewrite H57; reflexivity. }
      assert (stacked (token_p pl) = true) as Hp.
      { unfold stacked_of in Hst.
        destruct Htok as [-> | ->]; cbn in Hst; congruence. }
      destruct (Hinv Hp) as [Hsame Hfin].
      unfold steps_of, loc_of, sibling in *.
      destruct Htok as [-> | ->]; cbn in *;
        (split; [lia|]); intros _; rewrite Hfin by lia; reflexivity.
    + apply moved_player_stacked_follow; assumption.
  - intros Hp _. apply moved_player_stacks. exact Hp.
Qed.

(** C8: a call of [move_token] for 'p' or 'q' returns on every valid game,
    and when it returns: if the moved token was stacked then its sibling has
    the counter of the moved token, and the location tag 'has finished' when
    that counter is 57; and if neither token was stacked and the two counters
    are now equal and strictly between 0 and 57, both stacked flags are set.
    The call is any call that moves a token not yet at 57, or any call on a
    player that satisfies [twin_ok], which every reachable player does
    ([reachable_twin_ok]). *)
Theorem move_token_twins (g : LudoGame) (a : addr) (pl : Player)
  (token : string) (roll : Z) :
  store g !! a = Some pl ->
  token = "p" \/ token = "q" ->
  twin_ok pl = true \/ steps_of pl token <> 57 ->
  (valid_game g -> exists g', move_token g a token roll = OK g')
  /\ forall g',
       move_token g a token roll = OK g' ->
       exists pl',
         store g' !! a = Some pl'
         /\ (stacked_of pl token = true ->
             steps_of pl' (sibling token) = steps_of pl' token
             /\ (steps_of pl' token = 57 ->
                 loc_of pl' (sibling token) = HasFinished))
         /\ (stacked (token_p pl) = false -> stacked (token_q pl) = false ->
             0 < p_steps pl' < 57 -> p_steps pl' = q_steps pl' ->
             stacked (token_p pl') = true /\ stacked (token_q pl') = true).
Proof.
  intros Hpl Htok Hok. split.
  - intros Hg.
    destruct (move_token_OK g a token roll Hg) as (g' & Hmove & _);
      [eapply lookup_lt_Some; exact Hpl | eauto].
  - intros g' Hmove. eapply move_token_twins_returned; eassumption.
Qed.

Lemma move_token_twins_witness :
  exists g' pl',
    move_token stacked_game 0%nat "p" 3 = OK g'
    /\ store g' !! 0%nat = Some pl'
    /\ steps_of pl' "q" = steps_of pl' "p".
Proof.
  eassert (Hpl : store stacked_game !! 0%nat = Some _)
    by (vm_compute; reflexivity).
  eassert (Hmove : move_token stacked_game 0%nat "p" 3 = OK _)
    by (vm_compute; reflexivity).
  destruct (move_token_twins stacked_game 0%nat _ "p" 3 Hpl (or_introl eq_refl)
              (or_introl eq_refl)) as (_ & Hspec).
  destruct (Hspec _ Hmove) as (pl' & Hpl' & Hfollow & _).
  eexists _, pl'. split; [exact Hmove|]. split; [exact Hpl'|].
  apply Hfollow. vm_compute. reflexivity.
Defined.

(** ** The status of the game *)

Lemma get_completed_both_finished (pl : Player) :
  get_completed pl = both_finished pl.
Proof.
  unfold get_completed, both_finished.
  destruct (token_locs pl) as [[] []]; reflexivity.
Qed.

Lemma both_finished_spec (pl : Player) :
  both_finished pl = true <->
  fst (token_locs pl) = HasFinished /\ snd (token_locs pl) = HasFinished.
Proof.
  unfold both_finished.
  rewrite andb_true_iff, !bool_decide_eq_true. reflexivity.
Qed.

Lemma count_completed_seats_finished (g : LudoGame) (player_list : list string)
  (n : Z) :
  count_completed g player_list = OK n ->
  n = Z.of_nat (seats_finished g player_list).
Proof.
  unfold seats_finished. revert n.
  induction player_list as [|pos rest IH]; simpl; intros n H.
  - injection H as <-. reflexivity.
  - unfold get_player_by_position, seat_finished in *.
    destruct (dict_get (players g) pos) as [a|]; simpl in H; [|discriminate H].
    apply bind_OK in H as (pl & Hpl & H). apply deref_OK in Hpl.
    apply bind_OK in H as (m & Hm & H). injection H as <-.
    rewrite Hpl, <- get_completed_both_finished. specialize (IH m Hm).
    destruct (get_completed pl); simpl; lia.
Qed.

Lemma setup_players_game_state (g g' : LudoGame) (player_list : list string) :
  setup_players g player_list = OK g' -> game_state g' = game_state g.
Proof.
  intros H.
  apply (setup_players_inv g g' player_list
           (fun g1 => game_state g1 = game_state g)); [| |exact H|reflexivity].
  - intros g1 pos Hg1. exact Hg1.
  - intros g1 g2 Hg1 Hr. apply refresh_board_frame in Hr as [_ (Hs & _)].
    congruence.
Qed.

Lemma take_turns_game_state (g g' : LudoGame) (turn_list : list (string * Z)) :
  take_turns g turn_list = OK g' -> game_state g' = game_state g.
Proof.
  intros H.
  apply (take_turns_inv g g' turn_list
           (fun g1 => game_state g1 = game_state g)); [|exact H|reflexivity].
  intros g1 g2 turn Hg1 Ht. apply take_turn_same_seats in Ht as (Hs & _).
  congruence.
Qed.

Lemma play_game_status_returned (g g' : LudoGame) (player_list : list string)
  (turn_list : list (string * Z)) (out : list Space) :
  game_state g = StillPlaying ->
  play_game g player_list turn_list = OK (g', out) ->
  (game_state g' = GameComplete <->
   Z.of_nat (seats_finished g' player_list) = Z.of_nat (length player_list) - 1)
  /\ (Z.of_nat (seats_finished g' player_list) <> Z.of_nat (length player_list) - 1 ->
      game_state g' = StillPlaying).
Proof.
  unfold play_game. intros Hstate H.
  apply bind_OK in H as (g1 & Hg1 & H).
  apply bind_OK in H as (g2 & Hg2 & H).
  apply bind_OK in H as (n & Hn & H).
  injection H as <- _.
  apply setup_players_game_state in Hg1.
  apply take_turns_game_state in Hg2.
  apply count_completed_seats_finished in Hn.
  assert (game_state g2 = StillPlaying) as Hplaying by congruence.
  assert (forall s, seats_finished (with_game_state g2 s) player_list
                    = seats_finished g2 player_list) as Hsame
    by reflexivity.
  destruct (Z.eqb_spec n (Z.of_nat (length player_list) - 1)) as [Heq | Hne].
  - rewrite Hsame, <- Hn. split; [|contradiction].
    split; [intros _; exact Heq | reflexivity].
  - rewrite <- Hn, Hplaying. split; [|intros _; reflexivity].
    split; [discriminate | contradiction].
Qed.

(** C6: on a game that is 'Still Playing' (a new game is), [play_game]
    returns whenever the game is valid, the positions of the player list are
    among A, B, C, D and every turn names a position of the list; and
    whenever it returns, the status is 'Game Complete' if and only if the
    number of entries of the player list whose two tokens both have the tag
    'has finished' is the length of the list minus one, and is still
    'Still Playing' otherwise.  [get_completed] is true exactly when both
    tags are 'has finished'. *)
Theorem play_game_status (g : LudoGame) (player_list : list string)
  (turn_list : list (string * Z)) :
  game_state g = StillPlaying ->
  (valid_game g ->
   Forall (fun pos => pos ∈ ["A"; "B"; "C"; "D"]) player_list ->
   Forall (fun turn => fst turn ∈ player_list) turn_list ->
   exists g' out, play_game g player_list turn_list = OK (g', out))
  /\ (forall g' out,
        play_game g player_list turn_list = OK (g', out) ->
        (game_state g' = GameComplete <->
         Z.of_nat (seats_finished g' player_list)
         = Z.of_nat (length player_list) - 1)
        /\ (Z.of_nat (seats_finished g' player_list)
            <> Z.of_nat (length player_list) - 1 ->
            game_state g' = StillPlaying))
  /\ (forall pl : Player,
        get_completed pl = true <->
        fst (token_locs pl) = HasFinished /\ snd (token_locs pl) = HasFinished).
Proof.
  intros Hstate. split; [|split].
  - intros Hg Hlist Hturns.
    destruct (play_game_OK g player_list turn_list Hg Hlist Hturns)
      as (g' & out & Hplay & _).
    eauto.
  - intros g' out Hplay. eapply play_game_status_returned; eassumption.
  - intros pl. rewrite get_completed_both_finished. apply both_finished_spec.
Qed.

Lemma play_game_status_witness :
  exists g' out,
    play_game new_LudoGame ["A"; "B"]
      (lap "A" ++ lap "A" ++ lap "B" ++ lap "A") = OK (g', out)
    /\ seats_finished g' ["A"; "B"] = 1%nat
    /\ game_state g' = GameComplete.
Proof.
  eassert (Hplay : play_game new_LudoGame ["A"; "B"]
                     (lap "A" ++ lap "A" ++ lap "B" ++ lap "A") = OK (_, _))
    by (vm_compute; reflexivity).
  destruct (play_game_status new_LudoGame ["A"; "B"]
              (lap "A" ++ lap "A" ++ lap "B" ++ lap "A") eq_refl)
    as (_ & Hspec & _).
  destruct (Hspec _ _ Hplay) as (Hiff & _).
  eexists _, _. split; [exact Hplay|].
  split; [vm_compute; reflexivity|].
  apply Hiff. vm_compute. reflexivity.
Defined.

(** ** The choice of the token *)

Lemma home_yard_check_spec (pl : Player) :
  let hp := fst (token_locs pl) in
  let hq := snd (token_locs pl) in
  (hp = InTheHomeYard -> hq = InTheHomeYard -> home_yard_check pl = Some "both")
  /\ (hp <> InTheHomeYard -> hq = InTheHomeYard -> home_yard_check pl = Some "q")
  /\ (hp = InTheHomeYard -> hq <> InTheHomeYard -> home_yard_check pl = Some "p")
  /\ (hp <> InTheHomeYard -> hq <> InTheHomeYard -> home_yard_check pl = None).
Proof.
  unfold home_yard_check. destruct (token_locs pl) as [hp hq]. simpl.
  repeat split; intros H1 H2; repeat case_bool_decide; simpl;
    try reflexivity; congruence.
Qed.

(** C3, as the code has it: with a 6, a token in the home yard is chosen,
    'p' when both are there, and with no token in the home yard the choice
    is the one of [can_token_finish] (priority 2, which passes to priority 3
    only when no token is in the final stretch); without a 6, the token that
    is not in the home yard is chosen when exactly one is there, and when
    both are there no token is chosen and the turn only refreshes the
    board. *)
Theorem token_determination_spec (g : LudoGame) (a : addr) (pl : Player)
  (roll : Z) (pos : string) :
  store g !! a = Some pl ->
  let hp := fst (token_locs pl) in
  let hq := snd (token_locs pl) in
  (roll = 6 -> hp = InTheHomeYard ->
   token_determination g a roll = OK (Some (get_token_p a)))
  /\ (roll = 6 -> hp <> InTheHomeYard -> hq = InTheHomeYard ->
      token_determination g a roll = OK (Some (get_token_q a)))
  /\ (roll = 6 -> hp <> InTheHomeYard -> hq <> InTheHomeYard ->
      token_determination g a roll = can_token_finish g a roll)
  /\ (roll <> 6 -> hp = InTheHomeYard -> hq <> InTheHomeYard ->
      token_determination g a roll = OK (Some (get_token_q a)))
  /\ (roll <> 6 -> hp <> InTheHomeYard -> hq = InTheHomeYard ->
      token_determination g a roll = OK (Some (get_token_p a)))
  /\ (roll <> 6 -> hp = InTheHomeYard -> hq = InTheHomeYard ->
      token_determination g a roll = OK None
      /\ (dict_get (players g) pos = Some a ->
          take_turn g (pos, roll) = refresh_board g)).
Proof.
  intros Hpl hp hq.
  destruct (home_yard_check_spec pl) as (Hboth & Hq & Hp & Hnone).
  fold hp hq in Hboth, Hq, Hp, Hnone.
  assert (Hdet : forall r, token_determination g a r =
            if r =? 6 then
              if bool_decide (home_yard_check pl = Some "both") then OK (Some (get_token_p a))
              else if bool_decide (home_yard_check pl = Some "p") then OK (Some (get_token_p a))
              else if bool_decide (home_yard_check pl = Some "q") then OK (Some (get_token_q a))
              else can_token_finish g a r
            else if negb (r =? 6) then
              if bool_decide (home_yard_check pl = Some "both") then OK None
              else if bool_decide (home_yard_check pl = Some "p") then OK (Some (get_token_q a))
              else if bool_decide (home_yard_check pl = Some "q") then OK (Some (get_token_p a))
              else can_token_finish g a r
            else OK None).
  { intros r. unfold token_determination, deref. rewrite Hpl. reflexivity. }
  repeat split.
  - intros -> H1. rewrite Hdet. simpl.
    destruct (decide (hq = InTheHomeYard)) as [H2 | H2].
    + rewrite Hboth by assumption. reflexivity.
    + rewrite Hp by assumption. reflexivity.
  - intros -> H1 H2. rewrite Hdet, Hq by assumption. reflexivity.
  - intros -> H1 H2. rewrite Hdet, Hnone by assumption. reflexivity.
  - intros Hr H1 H2. rewrite Hdet, Hp by assumption.
    apply Z.eqb_neq in Hr. rewrite Hr. reflexivity.
  - intros Hr H1 H2. rewrite Hdet, Hq by assumption.
    apply Z.eqb_neq in Hr. rewrite Hr. reflexivity.
  - rewrite Hdet, Hboth by assumption.
    apply Z.eqb_neq in H. rewrite H. reflexivity.
  - intros Hpos. unfold take_turn, get_player_by_position. simpl.
    rewrite Hpos. simpl. rewrite Hdet, Hboth by assumption.
    apply Z.eqb_neq in H. rewrite H. reflexivity.
Qed.

Lemma token_determination_spec_witness :
  token_determination final_stretch_game 0%nat 6
    = can_token_finish final_stretch_game 0%nat 6
  /\ can_token_finish final_stretch_game 0%nat 6 = OK (Some (get_token_p 0%nat)).
Proof.
  eassert (Hpl : store final_stretch_game !! 0%nat = Some _)
    by (vm_compute; reflexivity).
  destruct (token_determination_spec final_stretch_game 0%nat _ 6 "A" Hpl)
    as (_ & _ & Hfinish & _).
  split; [|vm_compute; reflexivity].
  apply Hfinish; [reflexivity | discriminate | discriminate].
Defined.

(** C3, as the specification words it (with a 6 and no token in the home
    yard the choice is the one of priority 3), does not hold: with 'p' at 51
    and 'q' at 0, a 6 moves 'p' to the finish, where priority 3 would move
    'q'. *)
Lemma token_determination_counterexample :
  ~ (forall (g : LudoGame) (a : addr) (pl : Player) (roll : Z),
       store g !! a = Some pl -> roll = 6 ->
       fst (token_locs pl) <> InTheHomeYard ->
       snd (token_locs pl) <> InTheHomeYard ->
       token_determination g a roll = can_player_attack g a roll).
Proof.
  intros H.
  eassert (Hpl : store final_stretch_game !! 0%nat = Some _)
    by (vm_compute; reflexivity).
  specialize (H final_stretch_game 0%nat _ 6 Hpl eq_refl).
  vm_compute in H.
  assert (Habs : OK (Some (0%nat, SlotP)) = OK (Some (0%nat, SlotQ)))
    by (apply H; discriminate).
  discriminate Habs.
Qed.

(** ** Evaluation of the example games *)

Ltac split_conj :=
  repeat match goal with
  | |- _ /\ _ => split
  end.

Ltac evaluate := vm_compute; reflexivity.

(** ** Overshooting the finish *)

(** The advance of 'p' sets the counter of 'p' to the sum, reflected at 57
    when it overshoots, and its tag to 'has finished' exactly at 57. *)
Lemma move_token_p_advance (g g' : LudoGame) (a : addr) (pl : Player) (roll : Z) :
  store g !! a = Some pl ->
  p_steps pl <> 57 ->
  fst (token_locs pl) <> InTheHomeYard ->
  move_token g a "p" roll = OK g' ->
  exists pl',
    store g' !! a = Some pl'
    /\ p_steps pl' = (if p_steps pl + roll >? 57
                      then 57 - (p_steps pl + roll - 57)
                      else p_steps pl + roll)
    /\ fst (token_locs pl') = (if p_steps pl' =? 57 then HasFinished
                               else SomewhereOnTheBoard).
Proof.
  intros Hpl Hne Hhome Hmove.
  exists (moved_player pl "p" roll).
  split; [eapply move_token_player; eassumption|].
  unfold moved_player. simpl.
  destruct (Z.eqb_spec (p_steps pl) 57) as [|_]; [contradiction|].
  assert (home_yard_check pl <> Some "p" /\ home_yard_check pl <> Some "both")
    as [Hp Hboth].
  { unfold home_yard_check. destruct (token_locs pl) as [hp hq]. simpl in *.
    repeat case_bool_decide; simpl; split; congruence. }
  rewrite (bool_decide_eq_false_2 _ Hp), (bool_decide_eq_false_2 _ Hboth).
  simpl. clear Hp Hboth Hmove Hpl.
  open_player pl; split_tests; try lia; split; reflexivity.
Qed.

(** The advance of 'q' that overshoots writes the reflected sum into the
    counter of 'p' and leaves the counter of 'q' as it was. *)
Lemma advance_q_overshoot (pl : Player) (roll : Z) :
  q_steps pl + roll > 57 ->
  q_steps (advance_q pl roll) = q_steps pl
  /\ p_steps (advance_q pl roll) = 57 - (q_steps pl + roll - 57).
Proof.
  intros H. unfold advance_q.
  destruct (Z.gtb_spec (q_steps pl + roll) 57) as [_|]; [|lia].
  destruct (negb _); split; reflexivity.
Qed.

(** C1 on 'q': with 'p' at 56 and 'q' at 54, a roll of 5 makes the engine
    move 'q'; the reflected value 55 is written into the counter of 'p', and
    'q' stays at 54. *)
Theorem move_token_q_overshoot :
  (exists out,
     play_game new_LudoGame ["A"] overshoot_turns = OK (overshoot_game, out))
  /\ tokens_at overshoot_game 0%nat
     = Some (56, 54, (SomewhereOnTheBoard, SomewhereOnTheBoard), (false, false))
  /\ token_determination overshoot_game 0%nat 5 = OK (Some (get_token_q 0%nat))
  /\ (exists g',
        move_token overshoot_game 0%nat "q" 5 = OK g'
        /\ tokens_at g' 0%nat
           = Some (55, 54, (SomewhereOnTheBoard, SomewhereOnTheBoard),
                   (false, false)))
  /\ exists g' out,
       play_game new_LudoGame ["A"] (overshoot_turns ++ [("A", 5)])
         = OK (g', out)
       /\ tokens_at g' 0%nat
          = Some (55, 54, (SomewhereOnTheBoard, SomewhereOnTheBoard),
                  (false, false)).
Proof.
  split_conj; try evaluate.
  - eexists. evaluate.
  - eexists. split_conj; evaluate.
  - eexists _, _. split_conj; evaluate.
Qed.

(** ** Captures *)

(** What [send_home] does to the kicked player: the token at an even index
    of the board ('p') or at an odd one ('q') goes to the home yard with
    counter -1, and when the tokens are stacked both go, with both flags
    cleared. *)
Lemma send_home_spec (pl : Player) (index : nat) :
  let pl' := send_home pl index in
  ((index mod 2 = 0)%nat ->
   p_steps pl' = -1 /\ fst (token_locs pl') = InTheHomeYard)
  /\ ((index mod 2 <> 0)%nat ->
      q_steps pl' = -1 /\ snd (token_locs pl') = InTheHomeYard)
  /\ (stacked (token_p pl) = true ->
      p_steps pl' = -1 /\ q_steps pl' = -1
      /\ token_locs pl' = (InTheHomeYard, InTheHomeYard)
      /\ stacked (token_p pl') = false /\ stacked (token_q pl') = false).
Proof.
  unfold send_home.
  destruct (Nat.eqb_spec (index mod 2) 0) as [He | Hne];
    open_player pl; split_conj; intros; try discriminate;
    try contradiction; split_conj; reflexivity.
Qed.

(** C2 on a square held by the player's own token: 'p' of A is on square 5,
    'q' of A on square 2 and 'p' of B on square 8.  With a roll of 3 only
    'p' would land on a token of another player, and [can_player_attack]
    chooses 'q'. *)
Theorem can_player_attack_own_square :
  (exists out,
     play_game new_LudoGame ["A"; "B"] attack_turns = OK (attack_game, out))
  /\ tokens_at attack_game 0%nat
     = Some (5, 2, (SomewhereOnTheBoard, SomewhereOnTheBoard), (false, false))
  /\ tokens_in_play (board attack_game)
     = [(0%nat, SlotP, Some "5"); (0%nat, SlotQ, Some "2");
        (1%nat, SlotP, Some "8"); (1%nat, SlotQ, Some "H")]
  /\ (exists pl,
        store attack_game !! 0%nat = Some pl
        /\ get_space_name pl (p_steps pl + 3) = OK (Some "8")
        /\ get_space_name pl (q_steps pl + 3) = OK (Some "5"))
  /\ occupied_by_opponent attack_game 0%nat (Some "8") = true
  /\ occupied_by_opponent attack_game 0%nat (Some "5") = false
  /\ can_player_attack attack_game 0%nat 3 = OK (Some (get_token_q 0%nat))
  /\ token_determination attack_game 0%nat 3 = OK (Some (get_token_q 0%nat))
  /\ exists g' out,
       play_game new_LudoGame ["A"; "B"] (attack_turns ++ [("A", 3)])
         = OK (g', out)
       /\ tokens_at g' 0%nat
          = Some (5, 5, (SomewhereOnTheBoard, SomewhereOnTheBoard), (true, true))
       /\ tokens_at g' 1%nat
          = Some (50, -1, (SomewhereOnTheBoard, InTheHomeYard), (false, false)).
Proof.
  split_conj; try evaluate.
  - eexists. evaluate.
  - eexists. split_conj; evaluate.
  - eexists _, _. split_conj; evaluate.
Qed.

(** C5 on a square where a token of the moving player comes first in the
    board: 'q' of A and 'p' of B have finished, 'p' of A is at 55.  With a
    roll of 2, 'p' of A lands on the square "E" that 'p' of B occupies, and
    'p' of B keeps its counter 57 and its tag 'has finished'. *)
Theorem occupied_space_check_own_first :
  (exists out,
     play_game new_LudoGame ["A"; "B"] shadow_turns = OK (shadow_game, out))
  /\ tokens_at shadow_game 0%nat
     = Some (55, 57, (SomewhereOnTheBoard, HasFinished), (false, false))
  /\ tokens_at shadow_game 1%nat
     = Some (57, -1, (HasFinished, InTheHomeYard), (false, false))
  /\ tokens_in_play (board shadow_game)
     = [(0%nat, SlotP, Some "A5"); (0%nat, SlotQ, Some "E");
        (1%nat, SlotP, Some "E"); (1%nat, SlotQ, Some "H")]
  /\ (exists pl,
        store shadow_game !! 0%nat = Some pl
        /\ get_space_name pl (p_steps pl + 2) = OK (Some "E"))
  /\ occupied_by_opponent shadow_game 0%nat (Some "E") = true
  /\ token_determination shadow_game 0%nat 2 = OK (Some (get_token_p 0%nat))
  /\ (exists g',
        move_token shadow_game 0%nat "p" 2 = OK g'
        /\ tokens_at g' 0%nat
           = Some (57, 57, (HasFinished, HasFinished), (false, false))
        /\ tokens_at g' 1%nat
           = Some (57, -1, (HasFinished, InTheHomeYard), (false, false)))
  /\ exists g' out,
       play_game new_LudoGame ["A"; "B"] (shadow_turns ++ [("A", 2)])
         = OK (g', out)
       /\ tokens_at g' 1%nat
          = Some (57, -1, (HasFinished, InTheHomeYard), (false, false))
       /\ out = [Some "E"; Some "E"; Some "E"; Some "H"].
Proof.
  split_conj; try evaluate.
  - eexists. evaluate.
  - eexists. split_conj; evaluate.
  - eexists. split_conj; evaluate.
  - eexists _, _. split_conj; evaluate.
Qed.

Lemma finished_game_reachable : reachable finished_game.
Proof.
  eapply (reachable_play_game new_LudoGame finished_game ["A"; "B"]
            finished_turns).
  - apply reachable_new.
  - evaluate.
Qed.

(** C10: there is a reachable game and a turn in which a finished token is
    sent home.  'p' of B has finished and 'p' of A is at 55; with a roll of 2
    the square of 'p' of A is "E", the first "E" of the board is 'p' of B,
    and the turn leaves 'p' of B with counter -1 in the home yard. *)
Theorem finished_token_sent_home :
  exists (g g' : LudoGame) (pl : Player),
    reachable g
    /\ store g !! 0%nat = Some pl
    /\ tokens_at g 0%nat
       = Some (55, -1, (SomewhereOnTheBoard, InTheHomeYard), (false, false))
    /\ tokens_at g 1%nat
       = Some (57, -1, (HasFinished, InTheHomeYard), (false, false))
    /\ get_space_name pl (p_steps pl + 2) = OK (Some "E")
    /\ tokens_in_play (board g)
       = [(0%nat, SlotP, Some "A5"); (0%nat, SlotQ, Some "H");
          (1%nat, SlotP, Some "E"); (1%nat, SlotQ, Some "H")]
    /\ list_index (Some "E") (occupied_spaces (board g)) = OK 2%nat
    /\ take_turn g ("A", 2) = OK g'
    /\ tokens_at g' 0%nat
       = Some (57, -1, (HasFinished, InTheHomeYard), (false, false))
    /\ tokens_at g' 1%nat
       = Some (-1, -1, (InTheHomeYard, InTheHomeYard), (false, false)).
Proof.
  exists finished_game. eexists. eexists.
  split; [exact finished_game_reachable|].
  split_conj; evaluate.
Qed.

(** * Further properties *)

(** ** The choice of the token, priority by priority *)

Lemma furthest_token_Some (player : addr) (pl : Player) :
  furthest_token player pl
  = Some (if p_steps pl <=? q_steps pl then get_token_p player
          else get_token_q player).
Proof.
  unfold furthest_token.
  destruct (Z.leb_spec (p_steps pl) (q_steps pl)); [reflexivity|].
  destruct (Z.gtb_spec (p_steps pl) (q_steps pl)); [reflexivity | lia].
Qed.

(** Discharges a side condition on a concrete game or player, looking at
    the goal only. *)
Ltac side_condition :=
  lazymatch goal with
  | |- _ <> _ =>
      let H := fresh in
      intros H; first [discriminate H | vm_compute in H; discriminate H]
  | |- ~ _ => cbn [p_steps q_steps]; lia
  | |- _ <= _ <= _ => cbn [p_steps q_steps]; lia
  | |- _ = _ => first [reflexivity | vm_compute; reflexivity]
  end.

(** Case analysis on every test of a choice of token. *)
Ltac split_choice :=
  repeat match goal with
  | H : context [if ?b then _ else _] |- _ => no_test b; destruct b eqn:?
  | H : bind _ _ = OK _ |- _ =>
      let x := fresh "x" in
      let Hx := fresh "Hx" in
      apply bind_OK in H; destruct H as (x & Hx & H)
  end.

Lemma can_player_attack_own_token (g : LudoGame) (a : addr) (roll : Z)
  (token : option TokenRef) :
  can_player_attack g a roll = OK token ->
  token = Some (get_token_p a) \/ token = Some (get_token_q a).
Proof.
  unfold can_player_attack. intros H. cbv zeta in H.
  apply bind_OK in H as (pl & _ & H).
  pose proof (furthest_token_Some a pl) as Hfar.
  split_choice; injection H as <-; rewrite ?Hfar;
    try destruct (p_steps pl <=? q_steps pl); auto.
Qed.

Lemma can_token_finish_own_token (g : LudoGame) (a : addr) (roll : Z)
  (token : option TokenRef) :
  can_token_finish g a roll = OK token ->
  token = Some (get_token_p a) \/ token = Some (get_token_q a).
Proof.
  unfold can_token_finish. intros H.
  apply bind_OK in H as (pl & _ & H).
  pose proof (furthest_token_Some a pl) as Hfar.
  split_choice; try (eapply can_player_attack_own_token; exact H);
    injection H as <-; rewrite ?Hfar;
    try destruct (p_steps pl <=? q_steps pl); auto.
Qed.

(** The engine chooses at most one token, and a token of the player whose
    turn it is: whenever [token_determination] returns a token, it is 'p' or
    'q' of that player. *)
Theorem token_determination_own_token (g : LudoGame) (a : addr) (roll : Z)
  (t : TokenRef) :
  token_determination g a roll = OK (Some t) ->
  t = get_token_p a \/ t = get_token_q a.
Proof.
  unfold token_determination. intros H.
  apply bind_OK in H as (pl & _ & H).
  split_choice;
    try (apply can_token_finish_own_token in H as [H | H];
         injection H as <-; auto);
    try (injection H as <-; auto); discriminate H.
Qed.

Lemma token_determination_own_token_witness :
  token_determination attack_game 0%nat 3 = OK (Some (get_token_q 0%nat))
  /\ (get_token_q 0%nat = get_token_p 0%nat
      \/ get_token_q 0%nat = get_token_q 0%nat).
Proof.
  assert (H : token_determination attack_game 0%nat 3
              = OK (Some (get_token_q 0%nat))) by (vm_compute; reflexivity).
  split; [exact H|].
  exact (token_determination_own_token attack_game 0%nat 3 _ H).
Defined.

(** A turn moves no token only in one case: [token_determination] returns
    no token exactly when the roll is not 6 and both tokens are in the home
    yard. *)
Theorem token_determination_none (g : LudoGame) (a : addr) (pl : Player)
  (roll : Z) :
  store g !! a = Some pl ->
  token_determination g a roll = OK None
  <-> roll <> 6 /\ token_locs pl = (InTheHomeYard, InTheHomeYard).
Proof.
  intros Hpl. unfold token_determination.
  rewrite (proj2 (deref_OK _ _ _) Hpl). cbn [bind].
  assert (Hfinish : can_token_finish g a roll <> OK None).
  { intros H. apply can_token_finish_own_token in H as [H | H];
      discriminate H. }
  assert (Hboth : home_yard_check pl = Some "both"
                  <-> token_locs pl = (InTheHomeYard, InTheHomeYard)).
  { unfold home_yard_check.
    repeat case_bool_decide; simpl; split; intros H'; congruence. }
  destruct (Z.eqb_spec roll 6) as [Hroll | Hroll]; simpl.
  - split; [|intros [Hne _]; contradiction].
    repeat case_bool_decide; intros Hret; try discriminate Hret.
    contradiction.
  - rewrite <- Hboth. split.
    + repeat case_bool_decide; intros Hret; try discriminate Hret; auto.
      contradiction.
    + intros [_ Hb]. rewrite bool_decide_eq_true_2 by exact Hb. reflexivity.
Qed.

Lemma token_determination_none_witness :
  token_determination (player_setup new_LudoGame "A") 0%nat 4 = OK None.
Proof.
  eapply (token_determination_none (player_setup new_LudoGame "A") 0%nat _ 4).
  - vm_compute. reflexivity.
  - split; [lia | reflexivity].
Defined.

Lemma home_yard_check_None (pl : Player) :
  fst (token_locs pl) <> InTheHomeYard ->
  snd (token_locs pl) <> InTheHomeYard ->
  home_yard_check pl = None.
Proof. intros Hp Hq. apply home_yard_check_spec; assumption. Qed.

(** With no token in the home yard, the choice is the one of priority 2. *)
Lemma token_determination_on_board (g : LudoGame) (a : addr) (pl : Player)
  (roll : Z) :
  store g !! a = Some pl ->
  fst (token_locs pl) <> InTheHomeYard ->
  snd (token_locs pl) <> InTheHomeYard ->
  token_determination g a roll = can_token_finish g a roll.
Proof.
  intros Hpl Hp Hq. unfold token_determination.
  rewrite (proj2 (deref_OK _ _ _) Hpl). cbn [bind].
  rewrite (home_yard_check_None pl Hp Hq).
  destruct (roll =? 6); reflexivity.
Qed.

Lemma final_stretch_check_spec (pl : Player) :
  let sp := 51 <= p_steps pl <= 56 in
  let sq := 51 <= q_steps pl <= 56 in
  (sp -> sq -> final_stretch_check pl = Some "both")
  /\ (sp -> ~ sq -> final_stretch_check pl = Some "p")
  /\ (~ sp -> sq -> final_stretch_check pl = Some "q")
  /\ (~ sp -> ~ sq -> final_stretch_check pl = None).
Proof.
  unfold final_stretch_check, in_range_51_57.
  repeat split; intros H1 H2;
    repeat match goal with
    | |- context [Z.leb ?x ?y] => destruct (Z.leb_spec x y)
    | |- context [Z.ltb ?x ?y] => destruct (Z.ltb_spec x y)
    end; simpl; try reflexivity; lia.
Qed.

(** Priority 2 in terms of the counters. *)
Lemma can_token_finish_cases (g : LudoGame) (a : addr) (pl : Player) (roll : Z) :
  store g !! a = Some pl ->
  can_token_finish g a roll =
    if decide (51 <= p_steps pl <= 56) then
      if decide (51 <= q_steps pl <= 56) then
        if p_steps pl + roll =? 57 then OK (Some (get_token_p a))
        else if q_steps pl + roll =? 57 then OK (Some (get_token_q a))
        else OK (furthest_token a pl)
      else
        if p_steps pl + roll =? 57 then OK (Some (get_token_p a))
        else OK (Some (get_token_q a))
    else
      if decide (51 <= q_steps pl <= 56) then
        if q_steps pl + roll =? 57 then OK (Some (get_token_q a))
        else OK (Some (get_token_p a))
      else can_player_attack g a roll.
Proof.
  intros Hpl. unfold can_token_finish.
  rewrite (proj2 (deref_OK _ _ _) Hpl). cbn [bind].
  destruct (final_stretch_check_spec pl) as (Hboth & Honlyp & Honlyq & Hnone).
  destruct (decide (51 <= p_steps pl <= 56)) as [Hsp | Hsp];
    destruct (decide (51 <= q_steps pl <= 56)) as [Hsq | Hsq].
  - rewrite (Hboth Hsp Hsq). reflexivity.
  - rewrite (Honlyp Hsp Hsq). reflexivity.
  - rewrite (Honlyq Hsp Hsq). reflexivity.
  - rewrite (Hnone Hsp Hsq). reflexivity.
Qed.

(** Priority 2: with no token in the home yard, a token in the final
    stretch (counter 51..56) whose counter plus the roll is exactly 57 is the
    one chosen, 'p' before 'q' when both qualify. *)
Theorem token_determination_finish (g : LudoGame) (a : addr) (pl : Player)
  (roll : Z) :
  store g !! a = Some pl ->
  fst (token_locs pl) <> InTheHomeYard ->
  snd (token_locs pl) <> InTheHomeYard ->
  (51 <= p_steps pl <= 56 -> p_steps pl + roll = 57 ->
   token_determination g a roll = OK (Some (get_token_p a)))
  /\ (51 <= q_steps pl <= 56 -> q_steps pl + roll = 57 ->
      ~ (51 <= p_steps pl <= 56 /\ p_steps pl + roll = 57) ->
      token_determination g a roll = OK (Some (get_token_q a))).
Proof.
  intros Hpl Hp Hq.
  rewrite (token_determination_on_board g a pl roll Hpl Hp Hq).
  rewrite (can_token_finish_cases g a pl roll Hpl).
  split.
  - intros Hrange Hexact. apply Z.eqb_eq in Hexact.
    destruct (decide (51 <= p_steps pl <= 56)); [|contradiction].
    rewrite Hexact. destruct (decide _); reflexivity.
  - intros Hrange Hexact Hnotp. apply Z.eqb_eq in Hexact.
    destruct (decide (51 <= q_steps pl <= 56)); [|contradiction].
    rewrite Hexact.
    destruct (decide (51 <= p_steps pl <= 56)) as [Hsp | Hsp]; [|reflexivity].
    destruct (Z.eqb_spec (p_steps pl + roll) 57) as [Hpe | _];
      [exfalso; apply Hnotp; split; assumption | reflexivity].
Qed.

Lemma token_determination_finish_witness :
  token_determination final_stretch_game 0%nat 6 = OK (Some (get_token_p 0%nat)).
Proof.
  eassert (Hpl : store final_stretch_game !! 0%nat = Some _)
    by (vm_compute; reflexivity).
  destruct (token_determination_finish final_stretch_game 0%nat _ 6 Hpl)
    as [Hfinish _]; [side_condition ..|].
  apply Hfinish; side_condition.
Defined.

(** A token in the final stretch needs the exact roll when it is the only
    one there: with 'p' alone in the final stretch and a roll that does not
    take it to 57, the move goes to 'q' (and the other way round), whatever
    'q' could do with it. *)
Theorem token_determination_not_exact (g : LudoGame) (a : addr) (pl : Player)
  (roll : Z) :
  store g !! a = Some pl ->
  fst (token_locs pl) <> InTheHomeYard ->
  snd (token_locs pl) <> InTheHomeYard ->
  (51 <= p_steps pl <= 56 -> ~ 51 <= q_steps pl <= 56 ->
   p_steps pl + roll <> 57 ->
   token_determination g a roll = OK (Some (get_token_q a)))
  /\ (51 <= q_steps pl <= 56 -> ~ 51 <= p_steps pl <= 56 ->
      q_steps pl + roll <> 57 ->
      token_determination g a roll = OK (Some (get_token_p a))).
Proof.
  intros Hpl Hp Hq.
  rewrite (token_determination_on_board g a pl roll Hpl Hp Hq).
  rewrite (can_token_finish_cases g a pl roll Hpl).
  split; intros Hin Hout Hne; apply Z.eqb_neq in Hne.
  - destruct (decide (51 <= p_steps pl <= 56)); [|contradiction].
    destruct (decide (51 <= q_steps pl <= 56)); [contradiction|].
    rewrite Hne. reflexivity.
  - destruct (decide (51 <= p_steps pl <= 56)); [contradiction|].
    destruct (decide (51 <= q_steps pl <= 56)); [|contradiction].
    rewrite Hne. reflexivity.
Qed.

Lemma token_determination_not_exact_witness :
  token_determination final_stretch_game 0%nat 3 = OK (Some (get_token_q 0%nat)).
Proof.
  eassert (Hpl : store final_stretch_game !! 0%nat = Some _)
    by (vm_compute; reflexivity).
  destruct (token_determination_not_exact final_stretch_game 0%nat _ 3 Hpl)
    as [Hother _]; [side_condition ..|].
  apply Hother; side_condition.
Defined.

(** ** The board as the engine reads it *)

(** [x in occupied_spaces()], [occupied_spaces().index(x)] and [keys[index]]
    find the first entry of the board on that square. *)
Lemma board_first_entry (b : Board) (space : Space) :
  match first_on b space with
  | Some k =>
      list_in space (occupied_spaces b) = true
      /\ exists index,
           list_index space (occupied_spaces b) = OK index
           /\ list_get (dict_keys (get_tokens_in_play b)) index = OK k
           /\ tokens_in_play b !! index = Some (k, space)
  | None => list_in space (occupied_spaces b) = false
  end.
Proof.
  unfold first_on, occupied_spaces, get_tokens_in_play, dict_values, dict_keys,
    list_in.
  induction (tokens_in_play b) as [|[k0 s0] rest IH]; simpl.
  - reflexivity.
  - destruct (bool_decide_reflect (s0 = space)) as [-> | Hne]; simpl.
    + split; [apply bool_decide_eq_true_2; apply list_elem_of_here|].
      exists 0%nat. destruct (decide (space = space)); [|contradiction].
      repeat split.
    + destruct (List.find _ rest) as [[k s]|]; simpl in *.
      * destruct IH as (Hin & index & Hindex & Hkey & Hentry).
        split.
        { apply bool_decide_eq_true_2. apply list_elem_of_further.
          apply bool_decide_eq_true in Hin. exact Hin. }
        exists (S index). destruct (decide (s0 = space)); [contradiction|].
        assert (Hi : list_index space (list_fmap _ _ snd rest) = OK index)
          by exact Hindex.
        rewrite Hi. split; [reflexivity|]. split; [exact Hkey | exact Hentry].
      * apply bool_decide_eq_false_2. intros Hin.
        apply elem_of_cons in Hin as [Heq | Hin]; [congruence|].
        apply bool_decide_eq_false in IH. contradiction.
Qed.

Lemma first_on_None (b : Board) (space : Space) :
  first_on b space = None -> list_in space (occupied_spaces b) = false.
Proof.
  intros H. pose proof (board_first_entry b space) as Hb.
  rewrite H in Hb. exact Hb.
Qed.

Lemma first_on_Some (b : Board) (space : Space) (k : TokenRef) :
  first_on b space = Some k ->
  list_in space (occupied_spaces b) = true
  /\ exists index,
       list_index space (occupied_spaces b) = OK index
       /\ list_get (dict_keys (get_tokens_in_play b)) index = OK k
       /\ tokens_in_play b !! index = Some (k, space).
Proof.
  intros H. pose proof (board_first_entry b space) as Hb.
  rewrite H in Hb. exact Hb.
Qed.

(** [can_player_attack] in terms of the first entries of the board on the
    two squares ahead. *)
Lemma can_player_attack_first_on (g : LudoGame) (a : addr) (pl : Player)
  (roll : Z) (p_space q_space : Space) :
  store g !! a = Some pl ->
  get_space_name pl (p_steps pl + roll) = OK p_space ->
  get_space_name pl (q_steps pl + roll) = OK q_space ->
  can_player_attack g a roll =
    OK (match first_on (board g) p_space, first_on (board g) q_space with
        | Some _, Some _ => furthest_token a pl
        | Some k, None =>
            if bool_decide (a <> get_owner k) then Some (get_token_p a)
            else furthest_token a pl
        | None, Some k =>
            if bool_decide (a <> get_owner k) then Some (get_token_q a)
            else furthest_token a pl
        | None, None => furthest_token a pl
        end).
Proof.
  intros Hpl Hp Hq. unfold can_player_attack. cbv zeta.
  rewrite (proj2 (deref_OK _ _ _) Hpl). cbn [bind].
  rewrite Hp. cbn [bind]. rewrite Hq. cbn [bind].
  destruct (first_on (board g) p_space) as [kp|] eqn:Hfp;
    destruct (first_on (board g) q_space) as [kq|] eqn:Hfq.
  - apply first_on_Some in Hfp as [-> _]. apply first_on_Some in Hfq as [-> _].
    reflexivity.
  - apply first_on_Some in Hfp as (-> & index & -> & Hkey & _).
    apply first_on_None in Hfq as ->. cbn [andb bind].
    rewrite Hkey. cbn [bind]. destruct (bool_decide _); reflexivity.
  - apply first_on_None in Hfp as ->.
    apply first_on_Some in Hfq as (-> & index & -> & Hkey & _).
    cbn [andb bind]. rewrite Hkey. cbn [bind].
    destruct (bool_decide _); reflexivity.
  - apply first_on_None in Hfp as ->. apply first_on_None in Hfq as ->.
    reflexivity.
Qed.

Lemma token_determination_attack (g : LudoGame) (a : addr) (pl : Player)
  (roll : Z) :
  store g !! a = Some pl ->
  fst (token_locs pl) <> InTheHomeYard ->
  snd (token_locs pl) <> InTheHomeYard ->
  ~ 51 <= p_steps pl <= 56 -> ~ 51 <= q_steps pl <= 56 ->
  token_determination g a roll = can_player_attack g a roll.
Proof.
  intros Hpl Hp Hq Hsp Hsq.
  rewrite (token_determination_on_board g a pl roll Hpl Hp Hq).
  unfold can_token_finish.
  rewrite (proj2 (deref_OK _ _ _) Hpl). cbn [bind].
  destruct (final_stretch_check_spec pl) as (_ & _ & _ & Hnone).
  rewrite (Hnone Hsp Hsq). reflexivity.
Qed.

(** Priority 3, as the code has it: with both tokens out of the home yard
    and out of the final stretch, a token is chosen for a capture when the
    square ahead of it is on the board, the square ahead of the other token
    is not, and the first token the board records on that square belongs to
    another player. *)
Theorem token_determination_capture (g : LudoGame) (a : addr) (pl : Player)
  (roll : Z) (p_space q_space : Space) (k : TokenRef) :
  store g !! a = Some pl ->
  fst (token_locs pl) <> InTheHomeYard ->
  snd (token_locs pl) <> InTheHomeYard ->
  ~ 51 <= p_steps pl <= 56 -> ~ 51 <= q_steps pl <= 56 ->
  get_space_name pl (p_steps pl + roll) = OK p_space ->
  get_space_name pl (q_steps pl + roll) = OK q_space ->
  get_owner k <> a ->
  (first_on (board g) p_space = Some k -> first_on (board g) q_space = None ->
   token_determination g a roll = OK (Some (get_token_p a)))
  /\ (first_on (board g) p_space = None -> first_on (board g) q_space = Some k ->
      token_determination g a roll = OK (Some (get_token_q a))).
Proof.
  intros Hpl Hp Hq Hsp Hsq Hps Hqs Howner.
  rewrite (token_determination_attack g a pl roll Hpl Hp Hq Hsp Hsq).
  rewrite (can_player_attack_first_on g a pl roll p_space q_space Hpl Hps Hqs).
  split; intros -> ->;
    rewrite bool_decide_eq_true_2 by congruence; reflexivity.
Qed.

Lemma token_determination_capture_witness :
  token_determination attack_game 0%nat 6 = OK (Some (get_token_q 0%nat)).
Proof.
  eassert (Hpl : store attack_game !! 0%nat = Some _)
    by (vm_compute; reflexivity).
  destruct (token_determination_capture attack_game 0%nat _ 6
              (Some "11") (Some "8") (1%nat, SlotP) Hpl)
    as [_ Hq]; [side_condition ..|].
  apply Hq; vm_compute; reflexivity.
Defined.

(** Priority 4: with both tokens out of the home yard and out of the final
    stretch, the token with the lower counter is chosen ('p' on a tie) when
    no capture decides: when neither square ahead is on the board, when both
    are, or when the only one that is holds a token of the player first. *)
Theorem token_determination_furthest (g : LudoGame) (a : addr) (pl : Player)
  (roll : Z) (p_space q_space : Space) :
  store g !! a = Some pl ->
  fst (token_locs pl) <> InTheHomeYard ->
  snd (token_locs pl) <> InTheHomeYard ->
  ~ 51 <= p_steps pl <= 56 -> ~ 51 <= q_steps pl <= 56 ->
  get_space_name pl (p_steps pl + roll) = OK p_space ->
  get_space_name pl (q_steps pl + roll) = OK q_space ->
  (first_on (board g) p_space = None /\ first_on (board g) q_space = None)
  \/ (is_Some (first_on (board g) p_space)
      /\ is_Some (first_on (board g) q_space))
  \/ (exists k, get_owner k = a
                /\ ((first_on (board g) p_space = Some k
                     /\ first_on (board g) q_space = None)
                    \/ (first_on (board g) p_space = None
                        /\ first_on (board g) q_space = Some k))) ->
  token_determination g a roll
  = OK (Some (if p_steps pl <=? q_steps pl then get_token_p a
              else get_token_q a)).
Proof.
  intros Hpl Hp Hq Hsp Hsq Hps Hqs Hcase.
  rewrite (token_determination_attack g a pl roll Hpl Hp Hq Hsp Hsq).
  rewrite (can_player_attack_first_on g a pl roll p_space q_space Hpl Hps Hqs).
  rewrite furthest_token_Some.
  destruct Hcase as [[-> ->] | [[[kp ->] [kq ->]] | (k & Hown & Hcase)]];
    [reflexivity | reflexivity |].
  destruct Hcase as [[-> ->] | [-> ->]];
    rewrite bool_decide_eq_false_2 by (intros Hne; apply Hne; congruence);
    reflexivity.
Qed.

Lemma token_determination_furthest_witness :
  token_determination attack_game 0%nat 3 = OK (Some (get_token_q 0%nat)).
Proof.
  eassert (Hpl : store attack_game !! 0%nat = Some _)
    by (vm_compute; reflexivity).
  apply (token_determination_furthest attack_game 0%nat _ 3
           (Some "8") (Some "5") Hpl); [side_condition ..|].
  right. left. split; vm_compute; eauto.
Defined.

(** ** Turns that move nothing *)

(** A turn is the choice of a token, the move of it and the refresh of the
    board. *)
Lemma take_turn_chosen (g : LudoGame) (pos : string) (a : addr) (roll : Z) :
  dict_get (players g) pos = Some a ->
  (token_determination g a roll = OK (Some (get_token_p a)) ->
   take_turn g (pos, roll)
   = (g1 <- move_token g a "p" roll;; refresh_board g1))
  /\ (token_determination g a roll = OK (Some (get_token_q a)) ->
      take_turn g (pos, roll)
      = (g1 <- move_token g a "q" roll;; refresh_board g1)).
Proof.
  intros Hpos. unfold take_turn, get_player_by_position.
  cbn [fst snd]. rewrite Hpos. cbn [bind].
  split; intros ->; cbn [bind].
  - rewrite bool_decide_eq_true_2 by reflexivity. reflexivity.
  - rewrite bool_decide_eq_false_2 by discriminate.
    rewrite bool_decide_eq_true_2 by reflexivity. reflexivity.
Qed.

Lemma move_token_at_57 (g : LudoGame) (a : addr) (pl : Player) (roll : Z) :
  store g !! a = Some pl ->
  (p_steps pl = 57 -> move_token g a "p" roll = OK g)
  /\ (q_steps pl = 57 -> move_token g a "q" roll = OK g).
Proof.
  intros Hpl. unfold move_token.
  rewrite (proj2 (deref_OK _ _ _) Hpl). cbn [bind].
  split; intros ->; reflexivity.
Qed.

(** A player whose 'p' has finished can only move 'q': the turn changes
    nothing but the board refresh when 'q' is in the home yard and the roll
    is not 6, and when 'q' is in the final stretch and the roll does not
    take it exactly to 57.  The same holds with 'p' and 'q' exchanged. *)
Theorem take_turn_finished_waits (g : LudoGame) (pos : string) (a : addr)
  (pl : Player) (roll : Z) :
  dict_get (players g) pos = Some a ->
  store g !! a = Some pl ->
  (p_steps pl = 57 /\ fst (token_locs pl) <> InTheHomeYard
   /\ ((snd (token_locs pl) = InTheHomeYard /\ roll <> 6)
       \/ (snd (token_locs pl) <> InTheHomeYard
           /\ 51 <= q_steps pl <= 56 /\ q_steps pl + roll <> 57)))
  \/ (q_steps pl = 57 /\ snd (token_locs pl) <> InTheHomeYard
      /\ ((fst (token_locs pl) = InTheHomeYard /\ roll <> 6)
          \/ (fst (token_locs pl) <> InTheHomeYard
              /\ 51 <= p_steps pl <= 56 /\ p_steps pl + roll <> 57))) ->
  take_turn g (pos, roll) = refresh_board g.
Proof.
  intros Hpos Hpl Hcase.
  destruct (take_turn_chosen g pos a roll Hpos) as [Hturn_p Hturn_q].
  destruct (move_token_at_57 g a pl roll Hpl) as [Hnoop_p Hnoop_q].
  destruct (home_yard_check_spec pl) as (_ & Honlyq & Honlyp & _).
  assert (Hdet : token_determination g a roll
                 = if roll =? 6 then
                     if bool_decide (home_yard_check pl = Some "both")
                     then OK (Some (get_token_p a))
                     else if bool_decide (home_yard_check pl = Some "p")
                     then OK (Some (get_token_p a))
                     else if bool_decide (home_yard_check pl = Some "q")
                     then OK (Some (get_token_q a))
                     else can_token_finish g a roll
                   else if negb (roll =? 6) then
                     if bool_decide (home_yard_check pl = Some "both")
                     then OK None
                     else if bool_decide (home_yard_check pl = Some "p")
                     then OK (Some (get_token_q a))
                     else if bool_decide (home_yard_check pl = Some "q")
                     then OK (Some (get_token_p a))
                     else can_token_finish g a roll
                   else OK None).
  { unfold token_determination.
    rewrite (proj2 (deref_OK _ _ _) Hpl). reflexivity. }
  destruct Hcase as [(H57 & Hp & [[Hq Hroll] | (Hq & Hrange & Hne)])
                    | (H57 & Hq & [[Hp Hroll] | (Hp & Hrange & Hne)])].
  - rewrite Hturn_p, (Hnoop_p H57); [reflexivity|].
    rewrite Hdet, (Honlyq Hp Hq). apply Z.eqb_neq in Hroll. rewrite Hroll.
    reflexivity.
  - rewrite Hturn_p, (Hnoop_p H57); [reflexivity|].
    rewrite (token_determination_on_board g a pl roll Hpl Hp Hq).
    rewrite (can_token_finish_cases g a pl roll Hpl).
    destruct (decide (51 <= p_steps pl <= 56)); [lia|].
    destruct (decide (51 <= q_steps pl <= 56)); [|contradiction].
    apply Z.eqb_neq in Hne. rewrite Hne. reflexivity.
  - rewrite Hturn_q, (Hnoop_q H57); [reflexivity|].
    rewrite Hdet, (Honlyp Hp Hq). apply Z.eqb_neq in Hroll. rewrite Hroll.
    reflexivity.
  - rewrite Hturn_q, (Hnoop_q H57); [reflexivity|].
    rewrite (token_determination_on_board g a pl roll Hpl Hp Hq).
    rewrite (can_token_finish_cases g a pl roll Hpl).
    destruct (decide (51 <= p_steps pl <= 56)); [|contradiction].
    destruct (decide (51 <= q_steps pl <= 56)); [lia|].
    apply Z.eqb_neq in Hne. rewrite Hne. reflexivity.
Qed.

Lemma take_turn_finished_waits_witness :
  take_turn finished_game ("B", 3) = refresh_board finished_game.
Proof.
  eassert (Hpl : store finished_game !! 1%nat = Some _)
    by (vm_compute; reflexivity).
  eapply (take_turn_finished_waits finished_game "B" 1%nat _ 3);
    [vm_compute; reflexivity | exact Hpl |].
  left. split; [reflexivity|]. split; [side_condition|].
  left. split; [reflexivity | lia].
Defined.

(** ** The dictionary of the board *)

Lemma dict_get_set_ne {K V : Type} `{EqDecision K} (d : list (K * V))
  (k k' : K) (v : V) :
  k <> k' -> dict_get (dict_set d k v) k' = dict_get d k'.
Proof.
  intros Hne. induction d as [|[k0 v0] rest IH]; simpl.
  - destruct (decide (k = k')); [contradiction | reflexivity].
  - destruct (decide (k0 = k)) as [-> | Hk0]; simpl.
    + destruct (decide (k = k')); [contradiction | reflexivity].
    + destruct (decide (k0 = k')); [reflexivity | exact IH].
Qed.

Lemma dict_keys_set {K V : Type} `{EqDecision K} (d : list (K * V)) (k : K) (v : V) :
  dict_keys (dict_set d k v)
  = if bool_decide (k ∈ dict_keys d) then dict_keys d
    else (dict_keys d ++ [k])%list.
Proof.
  unfold dict_keys. induction d as [|[k0 v0] rest IH]; simpl.
  - reflexivity.
  - destruct (decide (k0 = k)) as [-> | Hne]; simpl.
    + rewrite bool_decide_eq_true_2 by apply list_elem_of_here. reflexivity.
    + change (list_fmap (K * V)%type K fst (dict_set rest k v))
        with ((dict_set rest k v).*1).
      rewrite IH.
      change (list_fmap (K * V)%type K fst rest) with (rest.*1).
      destruct (bool_decide_reflect (k ∈ rest.*1)) as [Hin | Hnin].
      * rewrite bool_decide_eq_true_2 by (apply list_elem_of_further; exact Hin).
        reflexivity.
      * rewrite bool_decide_eq_false_2; [reflexivity|].
        intros Hin. apply elem_of_cons in Hin as [Heq | Hin]; congruence.
Qed.

Lemma elem_of_pair_keys (addrs : list addr) (k : TokenRef) :
  k ∈ pair_keys addrs <-> get_owner k ∈ addrs.
Proof.
  unfold pair_keys. induction addrs as [|a rest IH]; simpl.
  - split; intros H; inversion H.
  - rewrite !elem_of_cons, IH. destruct k as [b []]; unfold get_token_p,
      get_token_q, get_owner; simpl; split; intros H.
    + destruct H as [H | [H | H]]; [left; congruence | discriminate H | auto].
    + destruct H as [-> | H]; auto.
    + destruct H as [H | [H | H]]; [discriminate H | left; congruence | auto].
    + destruct H as [-> | H]; auto.
Qed.

Lemma pair_keys_app (l1 l2 : list addr) :
  pair_keys (l1 ++ l2)%list = (pair_keys l1 ++ pair_keys l2)%list.
Proof. unfold pair_keys. apply List.flat_map_app. Qed.

(** Writing the two tokens of a player keeps the keys in pairs: in place
    when the player is on the board, at the end when it is not. *)
Lemma dict_set_pair_keys (d : list (TokenRef * Space)) (addrs : list addr)
  (a : addr) (p_space q_space : Space) :
  dict_keys d = pair_keys addrs ->
  dict_keys (dict_set (dict_set d (get_token_p a) p_space) (get_token_q a) q_space)
  = pair_keys (if bool_decide (a ∈ addrs) then addrs else (addrs ++ [a])%list).
Proof.
  intros Hkeys. rewrite !dict_keys_set, Hkeys.
  destruct (bool_decide_reflect (a ∈ addrs)) as [Hin | Hnin].
  - rewrite (bool_decide_eq_true_2 (get_token_p a ∈ pair_keys addrs))
      by (apply elem_of_pair_keys; exact Hin).
    rewrite bool_decide_eq_true_2 by (apply elem_of_pair_keys; exact Hin).
    reflexivity.
  - rewrite (bool_decide_eq_false_2 (get_token_p a ∈ pair_keys addrs))
      by (rewrite elem_of_pair_keys; exact Hnin).
    rewrite bool_decide_eq_false_2.
    + rewrite pair_keys_app, <- app_assoc. reflexivity.
    + rewrite elem_of_app, elem_of_pair_keys, list_elem_of_singleton.
      intros [Hin | Heq]; [contradiction | discriminate Heq].
Qed.

Lemma added_nil (addrs player_list : list addr) :
  Forall (fun a => a ∈ addrs) player_list -> added addrs player_list = [].
Proof.
  induction 1 as [|a rest Ha Hrest IH]; simpl; [reflexivity|].
  rewrite bool_decide_eq_true_2 by exact Ha. exact IH.
Qed.

Lemma added_one (addrs player_list : list addr) (a : addr) :
  a ∉ addrs -> a ∈ player_list ->
  Forall (fun x => x ∈ addrs \/ x = a) player_list ->
  added addrs player_list = [a].
Proof.
  intros Hnew Hin Hall.
  induction Hall as [|x rest Hx Hrest IH]; [inversion Hin|]. simpl.
  destruct (bool_decide_reflect (x ∈ addrs)) as [Hold | Hnold].
  - apply IH. apply elem_of_cons in Hin as [-> | Hin];
      [contradiction | exact Hin].
  - destruct Hx as [Hx | ->]; [contradiction|].
    rewrite added_nil; [reflexivity|].
    eapply Forall_impl; [exact Hrest|]. simpl. intros y Hy.
    rewrite elem_of_app, list_elem_of_singleton. exact Hy.
Qed.

Lemma set_tokens_in_play_keys (st : list Player) (b b' : Board)
  (player_list addrs : list addr) :
  set_tokens_in_play st b player_list = OK b' ->
  dict_keys (tokens_in_play b) = pair_keys addrs ->
  dict_keys (tokens_in_play b')
  = pair_keys (addrs ++ added addrs player_list)%list.
Proof.
  revert b addrs.
  induction player_list as [|a rest IH]; intros b addrs H Hkeys;
    cbn [set_tokens_in_play added] in *.
  - injection H as <-. rewrite app_nil_r. exact Hkeys.
  - apply bind_OK in H as (pl & _ & H). cbv zeta in H.
    apply bind_OK in H as (p_space & _ & H).
    apply bind_OK in H as (q_space & _ & H).
    apply IH with (addrs := if bool_decide (a ∈ addrs) then addrs
                            else (addrs ++ [a])%list) in H.
    + rewrite H. destruct (bool_decide (a ∈ addrs)); [reflexivity|].
      rewrite <- app_assoc. reflexivity.
    + cbn [tokens_in_play]. apply dict_set_pair_keys. exact Hkeys.
Qed.

Lemma paired_pair_keys (addrs : list addr) : paired (pair_keys addrs) = true.
Proof.
  induction addrs as [|a rest IH]; simpl; [reflexivity|].
  rewrite bool_decide_eq_true_2 by reflexivity. exact IH.
Qed.

Lemma paired_inv (keys : list TokenRef) :
  paired keys = true -> exists addrs, keys = pair_keys addrs.
Proof.
  revert keys.
  enough (forall n keys, (length keys <= n)%nat -> paired keys = true ->
                         exists addrs, keys = pair_keys addrs) as Hn
    by (intros keys; apply (Hn (length keys)); lia).
  induction n as [|n IH]; intros keys Hlen Hp.
  - destruct keys; [exists []; reflexivity | simpl in Hlen; lia].
  - destruct keys as [|[a []] [|[b []] rest]]; simpl in Hp;
      try discriminate Hp; [exists []; reflexivity|].
    apply andb_true_iff in Hp as [Hab Hrest].
    apply bool_decide_eq_true in Hab as <-.
    destruct (IH rest) as [addrs ->]; [simpl in Hlen; lia | exact Hrest|].
    exists (a :: addrs). reflexivity.
Qed.

(** In a board with paired keys, 'p' tokens are at the even indices and 'q'
    tokens at the odd ones, which is what [kick_home] relies on. *)
Lemma paired_index (keys : list TokenRef) (index : nat) (k : TokenRef) :
  paired keys = true -> keys !! index = Some k ->
  snd k = if (index mod 2 =? 0)%nat then SlotP else SlotQ.
Proof.
  intros Hp. apply paired_inv in Hp as [addrs ->]. revert index.
  induction addrs as [|a rest IH]; intros index Hk; [inversion Hk|].
  destruct index as [|[|index]]; simpl in Hk.
  - injection Hk as <-. reflexivity.
  - injection Hk as <-. reflexivity.
  - apply IH in Hk. rewrite Hk.
    replace (S (S index)) with (index + 1 * 2)%nat by lia.
    rewrite Nat.Div0.mod_add. reflexivity.
Qed.

Section BoardInvariant.

Variable L : list addr -> Prop.
Variable B : Board -> Prop.
Hypothesis B_set :
  forall st b player_list b',
    L player_list -> B b -> set_tokens_in_play st b player_list = OK b' ->
    B b'.
Hypothesis L_all : forall player_list, L player_list.

Lemma refresh_board_board (g g' : LudoGame) :
  L (dict_values (players g)) ->
  B (board g) -> refresh_board g = OK g' -> B (board g').
Proof using B_set.
  unfold refresh_board. intros Hl Hb H.
  apply bind_OK in H as (b' & Hset & H).
  injection H as <-. simpl. eapply B_set; eassumption.
Qed.

Lemma occupied_space_check_board (g g' : LudoGame) (a : addr) (t : TokenRef)
  (roll : Z) :
  L (dict_values (players g)) ->
  B (board g) -> occupied_space_check g a t roll = OK g' -> B (board g').
Proof using B_set.
  intros Hl Hb H.
  apply occupied_space_check_inv in H as [-> | (other & index & _ & H)];
    [exact Hb|].
  unfold kick_home in H. apply bind_OK in H as (pl & _ & H).
  eapply refresh_board_board; [| |exact H]; assumption.
Qed.

Lemma move_token_board (g g' : LudoGame) (a : addr) (token : string) (roll : Z) :
  L (dict_values (players g)) ->
  B (board g) -> move_token g a token roll = OK g' -> B (board g').
Proof using B_set.
  unfold move_token. intros Hl Hb H.
  apply bind_OK in H as (pl & _ & H).
  assert (Hstep : forall (g2 : LudoGame) t adv f,
            (g1 <- (g1 <- occupied_space_check g a t roll;;
                    pl1 <- deref (store g1) a;;
                    OK (write g1 a (adv pl1)));;
             pl2 <- deref (store g1) a;;
             OK (write g1 a (f pl2))) = OK g2 -> B (board g2)).
  { intros g2 t adv f H2.
    apply bind_OK in H2 as (g1 & Hg1 & H2).
    apply bind_OK in Hg1 as (gc & Hc & Hg1).
    apply bind_OK in Hg1 as (pl1 & _ & Hg1). injection Hg1 as <-.
    apply bind_OK in H2 as (pl2 & _ & H2). injection H2 as <-.
    simpl. eapply occupied_space_check_board; eassumption. }
  assert (Hrel : forall (g2 : LudoGame) plr f,
            (g1 <- OK (write g a plr);;
             pl2 <- deref (store g1) a;;
             OK (write g1 a (f pl2))) = OK g2 -> B (board g2)).
  { intros g2 plr f H2. cbn [bind] in H2.
    apply bind_OK in H2 as (pl2 & _ & H2). injection H2 as <-. exact Hb. }
  repeat match type of H with
  | context [if ?b then _ else _] => no_test b; destruct b
  end;
    try (injection H as <-; exact Hb);
    try (eapply Hrel; exact H);
    try (eapply Hstep; exact H).
Qed.

Lemma take_turn_board (g g' : LudoGame) (turn : string * Z) :
  L (dict_values (players g)) ->
  B (board g) -> take_turn g turn = OK g' -> B (board g').
Proof using B_set.
  intros Hl Hb H. apply take_turn_inv in H as (a & g1 & _ & Hg1 & H).
  destruct Hg1 as [-> | [token Hmove]].
  - eapply refresh_board_board; [| |exact H]; assumption.
  - pose proof (move_token_store _ _ _ _ _ Hmove)
      as (_ & _ & _ & _ & _ & _ & Hplayers & _).
    eapply refresh_board_board; [| |exact H].
    + rewrite Hplayers. exact Hl.
    + eapply move_token_board; eassumption.
Qed.

Lemma take_turns_board (g g' : LudoGame) (turn_list : list (string * Z)) :
  L (dict_values (players g)) ->
  B (board g) -> take_turns g turn_list = OK g' -> B (board g').
Proof using B_set.
  revert g. induction turn_list as [|turn rest IH]; intros g Hl Hb H;
    cbn [take_turns] in H.
  - injection H as <-. exact Hb.
  - apply bind_OK in H as (g1 & Hg1 & H).
    eapply IH; [| |exact H].
    + apply take_turn_same_seats in Hg1 as (_ & -> & _). exact Hl.
    + eapply take_turn_board; eassumption.
Qed.

Lemma play_game_board (g g' : LudoGame) (player_list : list string)
  (turn_list : list (string * Z)) (out : list Space) :
  B (board g) -> play_game g player_list turn_list = OK (g', out) ->
  B (board g').
Proof using B_set L_all.
  unfold play_game. intros Hb H.
  apply bind_OK in H as (g1 & Hg1 & H).
  apply bind_OK in H as (g2 & Hg2 & H).
  apply bind_OK in H as (n & _ & H).
  injection H as <- _.
  assert (B (board g2)) as Hb2.
  { eapply take_turns_board; [apply L_all | | exact Hg2].
    eapply (setup_players_inv g g1 player_list (fun g => B (board g)));
      [intros g0 pos H0; exact H0
      | intros g0 g3 H0; apply refresh_board_board; [apply L_all | exact H0]
      | exact Hg1 | exact Hb]. }
  destruct (n =? _); exact Hb2.
Qed.

Lemma reachable_board (g : LudoGame) :
  B (board new_LudoGame) -> reachable g -> B (board g).
Proof using B_set L_all.
  intros Hnew. induction 1.
  - exact Hnew.
  - assumption.
  - eapply refresh_board_board; [apply L_all | |]; eassumption.
  - eapply move_token_board; [apply L_all | |]; eassumption.
  - eapply play_game_board; eassumption.
Qed.

End BoardInvariant.

Lemma stacked_game_reachable : reachable stacked_game.
Proof.
  eapply (reachable_play_game new_LudoGame stacked_game ["A"] stacked_turns).
  - apply reachable_new.
  - vm_compute. reflexivity.
Qed.

(** In every reachable game the keys of the board come in pairs, 'p' then
    'q' of the same player, so that a token 'p' is at an even index of the
    board and a token 'q' at an odd one, as [kick_home] assumes. *)
Theorem reachable_paired (g : LudoGame) (index : nat) (k : TokenRef) :
  reachable g ->
  paired (dict_keys (tokens_in_play (board g))) = true
  /\ (dict_keys (tokens_in_play (board g)) !! index = Some k ->
      snd k = if (index mod 2 =? 0)%nat then SlotP else SlotQ).
Proof.
  intros Hg.
  assert (paired (dict_keys (tokens_in_play (board g))) = true) as Hp.
  { apply (reachable_board (fun _ => True)
             (fun b => paired (dict_keys (tokens_in_play b)) = true));
      [|exact (fun _ => I) | reflexivity | exact Hg].
    intros st b l b' _ Hb Hset. apply paired_inv in Hb as [addrs Hkeys].
    rewrite (set_tokens_in_play_keys st b b' l addrs Hset Hkeys).
    apply paired_pair_keys. }
  split; [exact Hp|]. apply paired_index. exact Hp.
Qed.

Lemma reachable_paired_witness :
  paired (dict_keys (tokens_in_play (board stacked_game))) = true.
Proof.
  apply (reachable_paired stacked_game 0%nat (0%nat, SlotP)).
  apply stacked_game_reachable.
Defined.

(** ** Captures *)

(** The token reference of the token named 'p' or 'q'. *)
Lemma occupied_space_check_first_on (g : LudoGame) (a : addr) (pl : Player)
  (token : string) (roll : Z) (space : Space) :
  store g !! a = Some pl ->
  token = "p" \/ token = "q" ->
  get_space_name pl (steps_of pl token + roll) = OK space ->
  occupied_space_check g a
    (if String.eqb token "p" then get_token_p a else get_token_q a) roll
  = match first_on (board g) space with
    | None => OK g
    | Some k =>
        if bool_decide (a <> get_owner k) then
          index <- list_index space (occupied_spaces (board g));;
          kick_home g (get_owner k) index
        else OK g
    end.
Proof.
  intros Hpl Htoken Hspace. unfold occupied_space_check. cbv zeta.
  rewrite (proj2 (deref_OK _ _ _) Hpl). cbn [bind].
  assert (Hcheck :
    (new_space <- OK space;;
     if list_in new_space (occupied_spaces (board g)) then
       index <- list_index new_space (occupied_spaces (board g));;
       k <- list_get (dict_keys (get_tokens_in_play (board g))) index;;
       if bool_decide (a <> get_owner k) then kick_home g (get_owner k) index
       else OK g
     else OK g)
    = match first_on (board g) space with
      | None => OK g
      | Some k =>
          if bool_decide (a <> get_owner k) then
            index <- list_index space (occupied_spaces (board g));;
            kick_home g (get_owner k) index
          else OK g
      end).
  { cbn [bind]. destruct (first_on (board g) space) as [k|] eqn:Hfirst.
    - apply first_on_Some in Hfirst as (-> & index & Hindex & Hkey & _).
      rewrite Hindex. cbn [bind]. rewrite Hkey. cbn [bind].
      destruct (bool_decide _); reflexivity.
    - apply first_on_None in Hfirst as ->. reflexivity. }
  unfold steps_of in Hspace.
  destruct Htoken as [-> | ->]; cbn [String.eqb Ascii.eqb Bool.eqb] in *.
  - rewrite bool_decide_eq_true_2 by reflexivity.
    rewrite Hspace. exact Hcheck.
  - rewrite bool_decide_eq_false_2 by discriminate.
    rewrite Hspace. exact Hcheck.
Qed.

(** An advance is the capture check followed by the update of the moving
    player. *)
Lemma move_token_advance_inv (g g' : LudoGame) (a : addr) (pl : Player)
  (token : string) (roll : Z) :
  store g !! a = Some pl ->
  token = "p" \/ token = "q" ->
  steps_of pl token <> 57 ->
  loc_of pl token <> InTheHomeYard ->
  move_token g a token roll = OK g' ->
  exists g1,
    occupied_space_check g a
      (if String.eqb token "p" then get_token_p a else get_token_q a) roll
    = OK g1
    /\ store g' = <[a := moved_player pl token roll]> (store g1)
    /\ board g' = board g1.
Proof.
  intros Hpl Htoken H57 Hloc Hmove.
  pose proof (move_token_player g g' a pl token roll Hpl Hmove) as Hmoved.
  unfold move_token in Hmove.
  rewrite (proj2 (deref_OK _ _ _) Hpl) in Hmove. cbn [bind] in Hmove.
  assert (Hnorelease :
    bool_decide (home_yard_check pl = Some token)
    || (if String.eqb token "p"
        then bool_decide (home_yard_check pl = Some "both") else false)
    = false).
  { destruct (home_yard_check_spec pl) as (Hboth & Hq & Hp & Hnone).
    unfold loc_of in Hloc.
    destruct (decide (fst (token_locs pl) = InTheHomeYard)) as [H1 | H1];
      destruct (decide (snd (token_locs pl) = InTheHomeYard)) as [H2 | H2];
      rewrite ?(Hboth H1 H2), ?(Hq H1 H2), ?(Hp H1 H2), ?(Hnone H1 H2);
      destruct Htoken as [-> | ->]; cbn in *; try contradiction;
      reflexivity. }
  assert (Hfinal : forall g1 g2 x y,
            (pl2 <- deref (store (write g1 a x)) a;;
             OK (write (write g1 a x) a (y pl2))) = OK g2 ->
            store g' !! a = Some (moved_player pl token roll) ->
            g2 = g' ->
            store g' = <[a := moved_player pl token roll]> (store g1)
            /\ board g' = board g1).
  { intros g1 g2 x y H2 Hm <-.
    apply bind_OK in H2 as (pl2 & _ & H2). injection H2 as <-.
    simpl in *. rewrite list_insert_insert_eq in *.
    split; [|reflexivity].
    destruct (decide (a < length (store g1))%nat) as [Hlt | Hge].
    - rewrite list_lookup_insert_eq in Hm by exact Hlt.
      injection Hm as ->. reflexivity.
    - apply lookup_lt_Some in Hm. rewrite length_insert in Hm. lia. }
  unfold steps_of in H57.
  destruct Htoken as [-> | ->]; cbn [String.eqb Ascii.eqb Bool.eqb] in *.
  - destruct (Z.eqb_spec (p_steps pl) 57) as [|_]; [contradiction|].
    rewrite Hnorelease in Hmove.
    apply bind_OK in Hmove as (g2 & Hg2 & Hmove).
    apply bind_OK in Hg2 as (g1 & Hcheck & Hg2).
    apply bind_OK in Hg2 as (pl1 & _ & Hg2). injection Hg2 as <-.
    exists g1. split; [exact Hcheck|].
    eapply (Hfinal g1 g'); [exact Hmove | exact Hmoved | reflexivity].
  - destruct (Z.eqb_spec (q_steps pl) 57) as [|_]; [contradiction|].
    rewrite orb_false_r in Hnorelease. rewrite Hnorelease in Hmove.
    apply bind_OK in Hmove as (g2 & Hg2 & Hmove).
    apply bind_OK in Hg2 as (g1 & Hcheck & Hg2).
    apply bind_OK in Hg2 as (pl1 & _ & Hg2). injection Hg2 as <-.
    exists g1. split; [exact Hcheck|].
    eapply (Hfinal g1 g'); [exact Hmove | exact Hmoved | reflexivity].
Qed.

(** A capture: when a token advances to a square whose first token on the
    board belongs to another player, that token goes to the home yard with
    counter -1, together with its sibling when the two are stacked (both
    flags are then cleared), and no third player changes.  The keys of the
    board are paired in every reachable game. *)
Theorem move_token_capture (g g' : LudoGame) (a : addr) (pl plo : Player)
  (token : string) (roll : Z) (space : Space) (k : TokenRef) :
  paired (dict_keys (tokens_in_play (board g))) = true ->
  store g !! a = Some pl ->
  token = "p" \/ token = "q" ->
  steps_of pl token <> 57 ->
  loc_of pl token <> InTheHomeYard ->
  get_space_name pl (steps_of pl token + roll) = OK space ->
  first_on (board g) space = Some k ->
  get_owner k <> a ->
  store g !! get_owner k = Some plo ->
  move_token g a token roll = OK g' ->
  exists plo',
    store g' !! get_owner k = Some plo'
    /\ (snd k = SlotP ->
        p_steps plo' = -1 /\ fst (token_locs plo') = InTheHomeYard)
    /\ (snd k = SlotQ ->
        q_steps plo' = -1 /\ snd (token_locs plo') = InTheHomeYard)
    /\ (stacked (token_p plo) = true ->
        p_steps plo' = -1 /\ q_steps plo' = -1
        /\ token_locs plo' = (InTheHomeYard, InTheHomeYard)
        /\ stacked (token_p plo') = false /\ stacked (token_q plo') = false)
    /\ forall c, c <> a -> c <> get_owner k -> store g' !! c = store g !! c.
Proof.
  intros Hpaired Hpl Htoken H57 Hloc Hspace Hfirst Hother Hplo Hmove.
  destruct (move_token_advance_inv g g' a pl token roll Hpl Htoken H57 Hloc
              Hmove) as (g1 & Hcheck & Hstore & _).
  rewrite (occupied_space_check_first_on g a pl token roll space Hpl Htoken
             Hspace), Hfirst in Hcheck.
  rewrite bool_decide_eq_true_2 in Hcheck by congruence.
  apply first_on_Some in Hfirst as (_ & index & Hindex & _ & Hentry).
  rewrite Hindex in Hcheck. cbn [bind] in Hcheck.
  apply kick_home_inv in Hcheck as (plo0 & Hplo0 & Hstore1 & _).
  assert (plo0 = plo) as -> by congruence.
  assert (Hslot : snd k = if (index mod 2 =? 0)%nat then SlotP else SlotQ).
  { apply (paired_index _ index k Hpaired).
    unfold dict_keys. rewrite list_lookup_fmap, Hentry. reflexivity. }
  exists (send_home plo index).
  split.
  { rewrite Hstore, Hstore1.
    rewrite list_lookup_insert_ne by congruence.
    apply list_lookup_insert_eq. eapply lookup_lt_Some. exact Hplo. }
  destruct (send_home_spec plo index) as (Heven & Hodd & Hstacked).
  split; [|split; [|split; [exact Hstacked|]]].
  - intros Hk. rewrite Hk in Hslot. apply Heven.
    destruct (Nat.eqb_spec (index mod 2) 0); [assumption | discriminate Hslot].
  - intros Hk. rewrite Hk in Hslot. apply Hodd.
    destruct (Nat.eqb_spec (index mod 2) 0); [discriminate Hslot | assumption].
  - intros c Hca Hcb. rewrite Hstore, Hstore1.
    rewrite !list_lookup_insert_ne by congruence. reflexivity.
Qed.

Lemma move_token_capture_witness :
  exists g' plo',
    move_token finished_game 0%nat "p" 2 = OK g'
    /\ store g' !! 1%nat = Some plo'
    /\ p_steps plo' = -1 /\ fst (token_locs plo') = InTheHomeYard.
Proof.
  eassert (Hpl : store finished_game !! 0%nat = Some _)
    by (vm_compute; reflexivity).
  eassert (Hplo : store finished_game !! 1%nat = Some _)
    by (vm_compute; reflexivity).
  eassert (Hmove : move_token finished_game 0%nat "p" 2 = OK _)
    by (vm_compute; reflexivity).
  unshelve epose proof
    (move_token_capture finished_game _ 0%nat _ _ "p" 2 (Some "E")
       (1%nat, SlotP) _ Hpl (or_introl eq_refl) _ _ _ _ _ Hplo Hmove)
    as (plo' & Hplo' & Hp & _); try side_condition.
  eexists _, plo'. split; [exact Hmove|]. split; [exact Hplo'|].
  apply Hp. reflexivity.
Defined.

(** No capture: when a token advances to a square that is not on the board,
    or whose first token on the board belongs to the moving player, the move
    changes the record of the moving player and nothing else. *)
Theorem move_token_no_capture (g g' : LudoGame) (a : addr) (pl : Player)
  (token : string) (roll : Z) (space : Space) :
  store g !! a = Some pl ->
  token = "p" \/ token = "q" ->
  steps_of pl token <> 57 ->
  loc_of pl token <> InTheHomeYard ->
  get_space_name pl (steps_of pl token + roll) = OK space ->
  first_on (board g) space = None
  \/ (exists k, first_on (board g) space = Some k /\ get_owner k = a) ->
  move_token g a token roll = OK g' ->
  store g' = <[a := moved_player pl token roll]> (store g)
  /\ board g' = board g /\ players g' = players g
  /\ game_state g' = game_state g.
Proof.
  intros Hpl Htoken H57 Hloc Hspace Hfirst Hmove.
  destruct (move_token_advance_inv g g' a pl token roll Hpl Htoken H57 Hloc
              Hmove) as (g1 & Hcheck & Hstore & Hboard).
  apply move_token_store in Hmove as (_ & _ & _ & _ & _ & Hstate & Hplayers & _).
  rewrite (occupied_space_check_first_on g a pl token roll space Hpl Htoken
             Hspace) in Hcheck.
  assert (g1 = g) as ->.
  { destruct Hfirst as [Hnone | (k & Hsome & Hown)].
    - rewrite Hnone in Hcheck. congruence.
    - rewrite Hsome in Hcheck.
      rewrite bool_decide_eq_false_2 in Hcheck
        by (intros Hne; apply Hne; congruence).
      congruence. }
  auto.
Qed.

Lemma move_token_no_capture_witness :
  exists g',
    move_token attack_game 0%nat "q" 3 = OK g'
    /\ board g' = board attack_game
    /\ store g' !! 1%nat = store attack_game !! 1%nat.
Proof.
  eassert (Hpl : store attack_game !! 0%nat = Some _)
    by (vm_compute; reflexivity).
  eassert (Hmove : move_token attack_game 0%nat "q" 3 = OK _)
    by (vm_compute; reflexivity).
  unshelve epose proof
    (move_token_no_capture attack_game _ 0%nat _ "q" 3 (Some "5") Hpl
       (or_intror eq_refl) _ _ _ _ Hmove)
    as (Hstore & Hboard & _); try side_condition.
  { right. exists (0%nat, SlotP). split; vm_compute; reflexivity. }
  eexists. split; [exact Hmove|]. split; [exact Hboard|].
  rewrite Hstore. apply list_lookup_insert_ne. discriminate.
Defined.

(** ** The board after a refresh *)

Lemma set_tokens_in_play_keeps (st : list Player) (b b' : Board)
  (player_list : list addr) (a : addr) (pl : Player) (p_space q_space : Space) :
  set_tokens_in_play st b player_list = OK b' ->
  st !! a = Some pl ->
  get_space_name pl (p_steps pl) = OK p_space ->
  get_space_name pl (q_steps pl) = OK q_space ->
  dict_get (tokens_in_play b) (get_token_p a) = Some p_space ->
  dict_get (tokens_in_play b) (get_token_q a) = Some q_space ->
  dict_get (tokens_in_play b') (get_token_p a) = Some p_space
  /\ dict_get (tokens_in_play b') (get_token_q a) = Some q_space.
Proof.
  intros H Hpl Hp Hq. revert b H.
  induction player_list as [|x rest IH]; intros b H Hbp Hbq;
    cbn [set_tokens_in_play] in H.
  - injection H as <-. auto.
  - apply bind_OK in H as (plx & Hplx & H). apply deref_OK in Hplx.
    cbv zeta in H.
    apply bind_OK in H as (px & Hpx & H).
    apply bind_OK in H as (qx & Hqx & H).
    apply IH in H; [exact H | |]; cbn [tokens_in_play].
    + destruct (decide (x = a)) as [-> | Hne].
      * assert (plx = pl) as -> by congruence.
        assert (px = p_space) as -> by congruence.
        rewrite dict_get_set_ne by discriminate. apply dict_get_set_eq.
      * rewrite !dict_get_set_ne
          by (unfold get_token_p, get_token_q; congruence).
        exact Hbp.
    + destruct (decide (x = a)) as [-> | Hne].
      * assert (plx = pl) as -> by congruence.
        assert (qx = q_space) as -> by congruence.
        apply dict_get_set_eq.
      * rewrite !dict_get_set_ne
          by (unfold get_token_p, get_token_q; congruence).
        exact Hbq.
Qed.

Lemma set_tokens_in_play_shows (st : list Player) (b b' : Board)
  (player_list : list addr) (a : addr) :
  set_tokens_in_play st b player_list = OK b' ->
  a ∈ player_list ->
  exists (pl : Player) (p_space q_space : Space),
    st !! a = Some pl
    /\ get_space_name pl (p_steps pl) = OK p_space
    /\ get_space_name pl (q_steps pl) = OK q_space
    /\ dict_get (tokens_in_play b') (get_token_p a) = Some p_space
    /\ dict_get (tokens_in_play b') (get_token_q a) = Some q_space.
Proof.
  revert b.
  induction player_list as [|x rest IH]; intros b H Hin; [inversion Hin|].
  cbn [set_tokens_in_play] in H.
  apply bind_OK in H as (plx & Hplx & H). apply deref_OK in Hplx.
  cbv zeta in H.
  apply bind_OK in H as (px & Hpx & H).
  apply bind_OK in H as (qx & Hqx & H).
  destruct (decide (a = x)) as [-> | Hne].
  - exists plx, px, qx. repeat (split; [assumption|]).
    eapply set_tokens_in_play_keeps; try eassumption; cbn [tokens_in_play].
    + rewrite dict_get_set_ne by discriminate. apply dict_get_set_eq.
    + apply dict_get_set_eq.
  - apply elem_of_cons in Hin as [Heq | Hin]; [contradiction|].
    eapply IH; eassumption.
Qed.

Lemma refresh_board_consistent (g g' : LudoGame) :
  refresh_board g = OK g' -> board_consistent g'.
Proof.
  unfold refresh_board. intros H. apply bind_OK in H as (b' & Hset & H).
  injection H as <-. intros a Ha. simpl in Ha.
  destruct (set_tokens_in_play_shows _ _ _ _ a Hset Ha)
    as (pl & p_space & q_space & H1 & H2 & H3 & H4 & H5).
  exists pl, p_space, q_space. auto.
Qed.

(** After every turn the board shows, for each player of the game, the
    squares named by the counters of that player: the view is rebuilt from
    the state the turn leaves. *)
Theorem take_turn_board_consistent (g g' : LudoGame) (turn : string * Z) :
  take_turn g turn = OK g' -> board_consistent g'.
Proof.
  intros H. apply take_turn_inv in H as (a & g1 & _ & _ & H).
  eapply refresh_board_consistent. exact H.
Qed.

Lemma take_turn_board_consistent_witness :
  exists g',
    take_turn attack_game ("A", 3) = OK g' /\ board_shows g' 0%nat.
Proof.
  eassert (Hturn : take_turn attack_game ("A", 3) = OK _)
    by (vm_compute; reflexivity).
  eexists. split; [exact Hturn|].
  apply (take_turn_board_consistent _ _ _ Hturn).
  vm_compute. apply list_elem_of_here.
Defined.

Lemma setup_players_consistent (g g' : LudoGame) (player_list : list string) :
  setup_players g player_list = OK g' ->
  board_consistent g -> board_consistent g'.
Proof.
  revert g. induction player_list as [|pos rest IH]; intros g H Hg;
    cbn [setup_players] in H.
  - injection H as <-. exact Hg.
  - apply bind_OK in H as (g1 & Hg1 & H).
    eapply IH; [exact H|]. eapply refresh_board_consistent. exact Hg1.
Qed.

Lemma play_game_consistent (g g' : LudoGame) (player_list : list string)
  (turn_list : list (string * Z)) (out : list Space) :
  board_consistent g ->
  play_game g player_list turn_list = OK (g', out) ->
  board_consistent g' /\ out = occupied_spaces (board g').
Proof.
  unfold play_game. intros Hg H.
  apply bind_OK in H as (g1 & Hg1 & H).
  apply bind_OK in H as (g2 & Hg2 & H).
  apply bind_OK in H as (n & _ & H).
  assert (board_consistent g2) as Hc.
  { eapply (take_turns_inv g1 g2 turn_list board_consistent);
      [|exact Hg2|].
    { intros g0 g3 turn _ Ht.
      apply take_turn_inv in Ht as (a & g4 & _ & _ & Ht).
      eapply refresh_board_consistent. exact Ht. }
    eapply setup_players_consistent; eassumption. }
  injection H as <- <-. destruct (n =? _); split; try reflexivity; exact Hc.
Qed.

(** ** The list [play_game] returns *)

Lemma dict_set_absent {K V : Type} `{EqDecision K} (d : list (K * V)) (k : K) (v : V) :
  k ∉ dict_keys d -> dict_set d k v = (d ++ [(k, v)])%list.
Proof.
  unfold dict_keys. induction d as [|[k0 v0] rest IH]; simpl; intros Hk.
  - reflexivity.
  - destruct (decide (k0 = k)) as [-> | Hne].
    + exfalso. apply Hk. apply list_elem_of_here.
    + rewrite IH; [reflexivity|]. intros Hin. apply Hk.
      apply list_elem_of_further. exact Hin.
Qed.

Lemma dict_values_set_Forall {K V : Type} `{EqDecision K} (Q : V -> Prop)
  (d : list (K * V)) (k : K) (v : V) :
  Forall Q (dict_values d) -> Q v -> Forall Q (dict_values (dict_set d k v)).
Proof.
  unfold dict_values. intros Hd Hv.
  rewrite Forall_fmap in Hd |- *.
  apply dict_set_Forall; [exact Hd | exact Hv].
Qed.

Lemma dict_values_set_In {K V : Type} `{EqDecision K} (d : list (K * V))
  (k : K) (v : V) :
  v ∈ dict_values (dict_set d k v).
Proof.
  unfold dict_values. apply list_elem_of_fmap. exists (k, v).
  split; [reflexivity|]. apply dict_get_Some_In. apply dict_get_set_eq.
Qed.

Lemma refresh_board_keys_same (st : list Player) (b b' : Board)
  (player_list : list addr) (n : nat) :
  Forall (fun a => (a < n)%nat) player_list ->
  dict_keys (tokens_in_play b) = pair_keys (seq 0 n) ->
  set_tokens_in_play st b player_list = OK b' ->
  dict_keys (tokens_in_play b') = pair_keys (seq 0 n).
Proof.
  intros Hlist Hkeys Hset.
  rewrite (set_tokens_in_play_keys st b b' player_list _ Hset Hkeys).
  rewrite added_nil, app_nil_r; [reflexivity|].
  eapply Forall_impl; [exact Hlist|]. simpl. intros a Ha.
  apply elem_of_seq. lia.
Qed.

Lemma setup_step_in_order (g g1 : LudoGame) (pos : string) :
  board_in_order g ->
  refresh_board (player_setup g pos) = OK g1 ->
  board_in_order g1 /\ length (store g1) = S (length (store g))
  /\ players g1 = dict_set (players g) pos (length (store g)).
Proof.
  intros [Hkeys Hvalues] H. unfold refresh_board in H.
  apply bind_OK in H as (b' & Hset & H). injection H as <-.
  cbn [player_setup players board store with_board] in *.
  assert (Hlen : length (store g ++ [set_start_end (new_Player pos)])%list
                 = S (length (store g)))
    by (rewrite length_app; simpl; lia).
  split; [|split; [exact Hlen | reflexivity]].
  unfold board_in_order.
  cbn [player_setup with_board players board store]. rewrite Hlen. split.
  - rewrite (set_tokens_in_play_keys _ _ _ _ _ Hset Hkeys).
    rewrite (added_one _ _ (length (store g))).
    + rewrite seq_S. reflexivity.
    + rewrite elem_of_seq. lia.
    + apply dict_values_set_In.
    + apply dict_values_set_Forall; [|right; reflexivity].
      eapply Forall_impl; [exact Hvalues|]. simpl. intros a Ha. left.
      apply elem_of_seq. lia.
  - apply dict_values_set_Forall; [|lia].
    eapply Forall_impl; [exact Hvalues|]. simpl. intros; lia.
Qed.

Lemma setup_players_in_order (g g' : LudoGame) (player_list : list string) :
  board_in_order g ->
  setup_players g player_list = OK g' ->
  board_in_order g'
  /\ length (store g') = (length (store g) + length player_list)%nat.
Proof.
  revert g. induction player_list as [|pos rest IH]; intros g Hg H;
    cbn [setup_players] in H.
  - injection H as <-. split; [exact Hg | simpl; lia].
  - apply bind_OK in H as (g1 & Hg1 & H).
    destruct (setup_step_in_order g g1 pos Hg Hg1) as (Hg1' & Hlen & _).
    destruct (IH g1 Hg1' H) as [Hg' Hlen']. split; [exact Hg'|].
    rewrite Hlen', Hlen. simpl. lia.
Qed.

Lemma take_turns_same_seats (g g' : LudoGame) (turn_list : list (string * Z)) :
  take_turns g turn_list = OK g' -> same_seats g g'.
Proof.
  intros H.
  apply (take_turns_inv g g' turn_list (same_seats g));
    [|exact H | apply same_seats_refl].
  intros g1 g2 turn Hg1 Ht. eapply same_seats_trans; [exact Hg1|].
  eapply take_turn_same_seats. exact Ht.
Qed.

Lemma take_turns_in_order (g g' : LudoGame) (turn_list : list (string * Z)) :
  board_in_order g -> take_turns g turn_list = OK g' -> board_in_order g'.
Proof.
  intros [Hkeys Hvalues] H.
  pose proof (take_turns_same_seats g g' turn_list H) as (_ & Hplayers & Hlen).
  unfold board_in_order. rewrite Hplayers, Hlen. split; [|exact Hvalues].
  apply (take_turns_board
           (fun l => Forall (fun a => (a < length (store g))%nat) l)
           (fun b => dict_keys (tokens_in_play b)
                     = pair_keys (seq 0 (length (store g))))
           ) with (g := g) (turn_list := turn_list);
    [|exact Hvalues | exact Hkeys | exact H].
  intros st b l b' Hl Hb Hset.
  eapply refresh_board_keys_same; eassumption.
Qed.

Lemma length_pair_keys (addrs : list addr) :
  length (pair_keys addrs) = (2 * length addrs)%nat.
Proof.
  induction addrs as [|a rest IH]; [reflexivity|].
  change (pair_keys (a :: rest))
    with (get_token_p a :: get_token_q a :: pair_keys rest).
  cbn [length]. rewrite IH. lia.
Qed.

(** In a board whose keys are the pairs of the addresses [s], [s+1], ...,
    the tokens of the player at [i] are the entries [2(i-s)] and
    [2(i-s)+1]. *)
Lemma dict_get_pair_keys (d : list (TokenRef * Space)) (s n i : nat) :
  dict_keys d = pair_keys (seq s n) ->
  (s <= i < s + n)%nat ->
  dict_get d (get_token_p i) = snd <$> d !! (2 * (i - s))%nat
  /\ dict_get d (get_token_q i) = snd <$> d !! (2 * (i - s) + 1)%nat.
Proof.
  revert d s. induction n as [|n IH]; intros d s Hkeys Hi; [lia|].
  destruct d as [|[k1 v1] [|[k2 v2] d]]; try discriminate Hkeys.
  simpl in Hkeys. injection Hkeys as -> -> Hkeys.
  destruct (decide (i = s)) as [-> | Hne].
  - replace (s - s)%nat with 0%nat by lia.
    unfold get_token_p, get_token_q. cbn [dict_get].
    rewrite !decide_True by reflexivity.
    rewrite decide_False by discriminate.
    rewrite decide_True by reflexivity.
    split; reflexivity.
  - destruct (IH d (S s) Hkeys) as [Hp Hq]; [lia|].
    replace (i - s)%nat with (S (i - S s)) by lia.
    replace (2 * S (i - S s))%nat with (S (S (2 * (i - S s)))) by lia.
    unfold get_token_p, get_token_q in *. cbn [dict_get].
    rewrite !decide_False by congruence.
    split; [exact Hp | exact Hq].
Qed.

Lemma dict_get_zip_seq (l : list string) (s i : nat) (pos : string) :
  NoDup l -> l !! i = Some pos ->
  dict_get (zip l (seq s (length l))) pos = Some (s + i)%nat.
Proof.
  intros Hnd. revert s i.
  induction Hnd as [|x rest Hx Hnd IH]; intros s i Hi; [inversion Hi|].
  simpl. destruct i as [|i]; simpl in Hi.
  - injection Hi as ->. destruct (decide (pos = pos)); [|contradiction].
    f_equal. lia.
  - destruct (decide (x = pos)) as [-> | Hne].
    + exfalso. apply Hx. eapply list_elem_of_lookup_2. exact Hi.
    + rewrite (IH (S s) i Hi). f_equal. lia.
Qed.

Lemma setup_players_zip (g g' : LudoGame) (done player_list : list string) :
  players g = zip done (seq 0 (length done)) ->
  length (store g) = length done ->
  NoDup (done ++ player_list)%list ->
  setup_players g player_list = OK g' ->
  players g' = zip (done ++ player_list)%list
                   (seq 0 (length (done ++ player_list)%list)).
Proof.
  revert g done.
  induction player_list as [|pos rest IH]; intros g done Hplayers Hlen Hnd H;
    cbn [setup_players] in H.
  - injection H as <-. rewrite app_nil_r. exact Hplayers.
  - apply bind_OK in H as (g1 & Hg1 & H).
    apply refresh_board_frame in Hg1 as [Hstore (_ & Hp1 & Hlen1)].
    cbn [player_setup players store] in Hp1, Hlen1.
    rewrite length_app in Hlen1. simpl in Hlen1.
    replace (done ++ pos :: rest)%list with ((done ++ [pos]) ++ rest)%list
      by (rewrite <- app_assoc; reflexivity).
    apply (IH g1); [| |rewrite <- app_assoc; exact Hnd | exact H].
    + rewrite Hp1, Hplayers, Hlen.
      rewrite dict_set_absent.
      * rewrite length_app. simpl. rewrite Nat.add_1_r, seq_S.
        rewrite zip_with_app by (rewrite length_seq; reflexivity).
        reflexivity.
      * unfold dict_keys. rewrite fst_zip by (rewrite length_seq; lia).
        apply NoDup_app in Hnd as (_ & Hdisj & _). intros Hin.
        apply (Hdisj pos Hin). apply list_elem_of_here.
    + rewrite Hlen1, length_app. simpl. lia.
Qed.

Lemma play_game_in_order (g' : LudoGame) (player_list : list string)
  (turn_list : list (string * Z)) (out : list Space) :
  play_game new_LudoGame player_list turn_list = OK (g', out) ->
  board_in_order g' /\ length (store g') = length player_list
  /\ (NoDup player_list ->
      players g' = zip player_list (seq 0 (length player_list))).
Proof.
  unfold play_game. intros H.
  apply bind_OK in H as (g1 & Hg1 & H).
  apply bind_OK in H as (g2 & Hg2 & H).
  apply bind_OK in H as (n & _ & H).
  assert (board_in_order new_LudoGame) as Hnew by (split; constructor).
  destruct (setup_players_in_order _ _ _ Hnew Hg1) as [Hord1 Hlen1].
  pose proof (take_turns_in_order _ _ _ Hord1 Hg2) as Hord2.
  pose proof (take_turns_same_seats _ _ _ Hg2) as (_ & Hplayers & Hlen2).
  assert (Hfinal : board_in_order g2 /\ length (store g2) = length player_list
                   /\ (NoDup player_list ->
                       players g2
                       = zip player_list (seq 0 (length player_list)))).
  { split; [exact Hord2|]. split; [rewrite Hlen2, Hlen1; reflexivity|].
    intros Hnd. rewrite Hplayers.
    apply (setup_players_zip new_LudoGame g1 [] player_list);
      [reflexivity | reflexivity | exact Hnd | exact Hg1]. }
  injection H as <- _. destruct (n =? _); exact Hfinal.
Qed.

(** What [play_game] returns on a new game: two squares for every entry of
    the player list, and, when the positions of the list are distinct, at
    the indices [2i] and [2i+1] the squares named by the final counters of
    'p' and 'q' of the player at the [i]-th position of the list. *)
Theorem play_game_output (g' : LudoGame) (player_list : list string)
  (turn_list : list (string * Z)) (out : list Space) :
  play_game new_LudoGame player_list turn_list = OK (g', out) ->
  length out = (2 * length player_list)%nat
  /\ (NoDup player_list ->
      forall (i : nat) (pos : string),
        player_list !! i = Some pos ->
        exists (pl : Player) (p_space q_space : Space),
          get_player_by_position g' pos = OK (PlayerObj i)
          /\ store g' !! i = Some pl
          /\ get_space_name pl (p_steps pl) = OK p_space
          /\ get_space_name pl (q_steps pl) = OK q_space
          /\ out !! (2 * i)%nat = Some p_space
          /\ out !! (2 * i + 1)%nat = Some q_space).
Proof.
  intros H.
  destruct (play_game_in_order g' player_list turn_list out H)
    as ([Hkeys _] & Hlen & Hzip).
  destruct (play_game_consistent new_LudoGame g' player_list turn_list out)
    as [Hcons ->]; [intros a Ha; inversion Ha | exact H |].
  rewrite Hlen in Hkeys.
  split.
  - unfold occupied_spaces, dict_values. rewrite length_fmap.
    rewrite <- (length_fmap fst). fold (dict_keys (tokens_in_play (board g'))).
    rewrite Hkeys, length_pair_keys, length_seq. reflexivity.
  - intros Hnd i pos Hi. specialize (Hzip Hnd).
    assert (Hget : dict_get (players g') pos = Some i).
    { rewrite Hzip. apply (dict_get_zip_seq player_list 0 i pos Hnd Hi). }
    assert (Hlt : (i < length player_list)%nat)
      by (eapply lookup_lt_Some; exact Hi).
    destruct (Hcons i) as (pl & p_space & q_space & Hpl & Hp & Hq & Hbp & Hbq).
    { unfold dict_values. rewrite Hzip.
      rewrite snd_zip by (rewrite length_seq; lia).
      apply elem_of_seq. lia. }
    exists pl, p_space, q_space.
    unfold get_player_by_position. rewrite Hget.
    repeat (split; [first [reflexivity | assumption]|]).
    destruct (dict_get_pair_keys (tokens_in_play (board g')) 0
                (length player_list) i Hkeys) as [Hip Hiq]; [lia|].
    rewrite Nat.sub_0_r in Hip, Hiq.
    unfold occupied_spaces, dict_values. rewrite !list_lookup_fmap.
    rewrite <- Hip, <- Hiq. split; assumption.
Qed.

Lemma play_game_output_witness :
  exists g' out,
    play_game new_LudoGame ["A"; "B"] attack_turns = OK (g', out)
    /\ length out = 4%nat
    /\ out !! 2%nat = Some (Some "8").
Proof.
  eassert (Hplay : play_game new_LudoGame ["A"; "B"] attack_turns = OK (_, _))
    by (vm_compute; reflexivity).
  destruct (play_game_output _ _ _ _ Hplay) as [Hlen Hentries].
  eexists _, _. split; [exact Hplay|]. split; [exact Hlen|].
  assert (Hnd : NoDup ["A"; "B"])
    by (apply (bool_decide_unpack _); vm_compute; exact I).
  destruct (Hentries Hnd 1%nat "B" eq_refl)
    as (pl & p_space & q_space & _ & Hpl & Hp & _ & Hout & _).
  vm_compute in Hpl. injection Hpl as <-.
  vm_compute in Hp. injection Hp as <-. exact Hout.
Defined.

(** ** Counters stay in range *)

Lemma counters_in_range_spec (pl : Player) :
  counters_in_range pl = true
  <-> -1 <= p_steps pl <= 57 /\ -1 <= q_steps pl <= 57.
Proof.
  unfold counters_in_range. rewrite !andb_true_iff, !Z.leb_le. lia.
Qed.

Lemma counters_in_range_send_home (pl : Player) (index : nat) :
  counters_in_range pl = true -> counters_in_range (send_home pl index) = true.
Proof.
  rewrite !counters_in_range_spec. intros Hpl. unfold send_home.
  repeat match goal with
  | |- context [if ?b then _ else _] => no_test b; destruct b eqn:?
  end; cbn [p_steps q_steps set_token_locs set_token_p_step_count
            set_token_q_step_count set_both_stacked]; lia.
Qed.

(** Case analysis on the tests of a block of [move_token], then linear
    arithmetic on the counters. *)
Ltac range_block :=
  repeat match goal with
  | |- context [if ?b then _ else _] => no_test b; destruct b eqn:?
  end; cbn [p_steps q_steps set_token_locs set_token_p_step_count
            set_token_q_step_count set_both_stacked stack_tokens];
  repeat match goal with
  | H : (_ >? _) = true |- _ => apply Z.gtb_lt in H
  | H : (_ >? _) = false |- _ => rewrite Z.gtb_ltb in H; apply Z.ltb_ge in H
  end; lia.

Lemma counters_in_range_moved_player (pl : Player) (token : string) (roll : Z) :
  die roll = true ->
  counters_in_range pl = true ->
  counters_in_range (moved_player pl token roll) = true.
Proof.
  unfold die. rewrite andb_true_iff, !Z.leb_le.
  intros Hroll Hpl.
  assert (Hstack : forall x, counters_in_range x = true ->
                             counters_in_range (stack_if_possible x) = true).
  { intros x. rewrite !counters_in_range_spec. intros Hx.
    unfold stack_if_possible. range_block. }
  assert (Hfp : forall x, -1 <= p_steps x <= 57 ->  -1 <= q_steps x <= 57 ->
                          counters_in_range (stacked_follow_p x) = true).
  { intros x Hp Hq. rewrite counters_in_range_spec.
    unfold stacked_follow_p. range_block. }
  assert (Hfq : forall x, -1 <= p_steps x <= 57 ->  -1 <= q_steps x <= 57 ->
                          counters_in_range (stacked_follow_q x) = true).
  { intros x Hp Hq. rewrite counters_in_range_spec.
    unfold stacked_follow_q. range_block. }
  apply counters_in_range_spec in Hpl as [Hp Hq].
  unfold moved_player.
  destruct (String.eqb token "p"); [|destruct (String.eqb token "q")].
  - destruct (Z.eqb_spec (p_steps pl) 57) as [H57 | H57];
      [apply counters_in_range_spec; auto|].
    apply Hstack. destruct (_ || _).
    + apply Hfp; unfold release_p; range_block.
    + apply Hfp; unfold advance_p; range_block.
  - destruct (Z.eqb_spec (q_steps pl) 57) as [H57 | H57];
      [apply counters_in_range_spec; auto|].
    apply Hstack. destruct (bool_decide _).
    + apply Hfq; unfold release_q; range_block.
    + apply Hfq; unfold advance_q; range_block.
  - apply Hstack. apply counters_in_range_spec. auto.
Qed.

Lemma move_token_in_range (g g' : LudoGame) (a : addr) (token : string)
  (roll : Z) :
  die roll = true ->
  Forall (fun pl => counters_in_range pl = true) (store g) ->
  move_token g a token roll = OK g' ->
  Forall (fun pl => counters_in_range pl = true) (store g').
Proof.
  intros Hroll Hall H.
  apply move_token_store in H as (pl & st1 & Hpl & Hac & -> & _).
  apply Forall_insert.
  - eapply (after_check_Forall (fun pl => counters_in_range pl = true));
      [apply counters_in_range_send_home | exact Hac | exact Hall].
  - apply counters_in_range_moved_player; [exact Hroll|].
    eapply (Forall_lookup_1 (fun pl => counters_in_range pl = true));
      eassumption.
Qed.

Lemma take_turns_in_range (g g' : LudoGame) (turn_list : list (string * Z)) :
  Forall (fun turn => die (snd turn) = true) turn_list ->
  Forall (fun pl => counters_in_range pl = true) (store g) ->
  take_turns g turn_list = OK g' ->
  Forall (fun pl => counters_in_range pl = true) (store g').
Proof.
  intros Hrolls. revert g.
  induction Hrolls as [|turn rest Hroll Hrest IH]; intros g Hall H;
    cbn [take_turns] in H.
  - injection H as <-. exact Hall.
  - apply bind_OK in H as (g1 & Hg1 & H). apply (IH g1); [|exact H].
    apply take_turn_inv in Hg1 as (a & g2 & _ & Hg2 & Hg1).
    apply refresh_board_frame in Hg1 as [-> _].
    destruct Hg2 as [-> | [token Hmove]]; [exact Hall|].
    eapply move_token_in_range; eassumption.
Qed.

(** With rolls of a die (1 to 6), the counters never leave -1..57: if they
    are in that range for every player before [play_game], they are for
    every player after it. *)
Theorem play_game_counters_in_range (g g' : LudoGame)
  (player_list : list string) (turn_list : list (string * Z))
  (out : list Space) :
  Forall (fun turn => die (snd turn) = true) turn_list ->
  Forall (fun pl => counters_in_range pl = true) (store g) ->
  play_game g player_list turn_list = OK (g', out) ->
  Forall (fun pl => counters_in_range pl = true) (store g').
Proof.
  unfold play_game. intros Hrolls Hall H.
  apply bind_OK in H as (g1 & Hg1 & H).
  apply bind_OK in H as (g2 & Hg2 & H).
  apply bind_OK in H as (n & _ & H).
  assert (Forall (fun pl => counters_in_range pl = true) (store g2)) as Hall2.
  { eapply take_turns_in_range; [exact Hrolls | | exact Hg2].
    eapply (setup_players_inv g g1 player_list
              (fun g => Forall (fun pl => counters_in_range pl = true)
                               (store g)));
      [| |exact Hg1 | exact Hall].
    - intros g0 pos H0. simpl. apply Forall_app. split; [exact H0|].
      constructor; [|constructor]. unfold set_start_end. simpl.
      repeat (destruct (String.eqb pos _); [reflexivity|]). reflexivity.
    - intros g0 g3 H0 Hr. apply refresh_board_frame in Hr as [-> _].
      exact H0. }
  injection H as <- _. destruct (n =? _); exact Hall2.
Qed.

Lemma play_game_counters_in_range_witness :
  exists g' out,
    play_game new_LudoGame ["A"] overshoot_turns = OK (g', out)
    /\ Forall (fun pl => counters_in_range pl = true) (store g').
Proof.
  eassert (Hplay : play_game new_LudoGame ["A"] overshoot_turns = OK (_, _))
    by (vm_compute; reflexivity).
  eexists _, _. split; [exact Hplay|].
  eapply (play_game_counters_in_range new_LudoGame _ ["A"] overshoot_turns);
    [|constructor | exact Hplay].
  apply (bool_decide_unpack _). vm_compute. exact I.
Defined.

(** ** The status of the game does not go back *)

(** [play_game] leaves the status as it was or sets it to 'Game Complete':
    a game that is complete stays complete, whatever turns are played. *)
Theorem play_game_status_kept (g g' : LudoGame) (player_list : list string)
  (turn_list : list (string * Z)) (out : list Space) :
  play_game g player_list turn_list = OK (g', out) ->
  (game_state g' = GameComplete \/ game_state g' = game_state g)
  /\ (game_state g = GameComplete -> game_state g' = GameComplete).
Proof.
  unfold play_game. intros H.
  apply bind_OK in H as (g1 & Hg1 & H).
  apply bind_OK in H as (g2 & Hg2 & H).
  apply bind_OK in H as (n & _ & H).
  apply setup_players_game_state in Hg1.
  apply take_turns_game_state in Hg2.
  injection H as <- _.
  destruct (n =? _); simpl; split; auto; try (right; congruence);
    intros; congruence.
Qed.

Lemma play_game_status_kept_witness :
  exists g' g'' out out',
    play_game new_LudoGame ["C"] [("C", 6)] = OK (g', out)
    /\ game_state g' = GameComplete
    /\ play_game g' ["C"; "D"] [("D", 6)] = OK (g'', out')
    /\ game_state g'' = GameComplete.
Proof.
  eassert (H1 : play_game new_LudoGame ["C"] [("C", 6)] = OK (_, _))
    by (vm_compute; reflexivity).
  match type of H1 with
  | _ = OK (?g1, _) =>
      eassert (H2 : play_game g1 ["C"; "D"] [("D", 6)] = OK (_, _))
        by (vm_compute; reflexivity)
  end.
  eexists _, _, _, _. split; [exact H1|]. split; [reflexivity|].
  split; [exact H2|].
  apply (play_game_status_kept _ _ _ _ _ H2). reflexivity.
Defined.

(** ** Exceptions *)

Lemma take_turns_app (g : LudoGame) (l1 l2 : list (string * Z)) :
  take_turns g (l1 ++ l2)%list = (g1 <- take_turns g l1;; take_turns g1 l2).
Proof.
  revert g. induction l1 as [|turn rest IH]; intros g; simpl; [reflexivity|].
  destruct (take_turn g turn) as [g1|e]; simpl; [apply IH | reflexivity].
Qed.

Lemma setup_players_absent (g g' : LudoGame) (player_list : list string)
  (pos : string) :
  pos ∉ player_list -> dict_get (players g) pos = None ->
  setup_players g player_list = OK g' ->
  dict_get (players g') pos = None.
Proof.
  revert g. induction player_list as [|x rest IH]; intros g Hnin Hnone H;
    cbn [setup_players] in H.
  - injection H as <-. exact Hnone.
  - apply bind_OK in H as (g1 & Hg1 & H).
    apply not_elem_of_cons in Hnin as [Hne Hnin].
    apply (IH g1 Hnin); [|exact H].
    apply refresh_board_frame in Hg1 as [_ (_ & -> & _)]. simpl.
    rewrite dict_get_set_ne by congruence. exact Hnone.
Qed.

(** A turn for a position that is not in the game stops [play_game] with an
    [AttributeError]: the string returned by the lookup is used as a player.
    The turns before it are played; the player list is made of positions
    among A, B, C, D. *)
Theorem play_game_unknown_position (player_list : list string)
  (before after : list (string * Z)) (pos : string) (roll : Z) :
  Forall (fun p => p ∈ ["A"; "B"; "C"; "D"]) player_list ->
  Forall (fun turn => fst turn ∈ player_list) before ->
  pos ∉ player_list ->
  play_game new_LudoGame player_list (before ++ (pos, roll) :: after)%list
  = Raise AttributeError.
Proof.
  intros Hlist Hbefore Hpos. unfold play_game.
  destruct (setup_players_OK new_LudoGame player_list new_LudoGame_valid Hlist)
    as (g1 & Hg1 & Hvalid1 & Hsome).
  rewrite Hg1. cbn [bind].
  pose proof (setup_players_absent new_LudoGame g1 player_list pos Hpos
                eq_refl Hg1) as Hnone.
  rewrite take_turns_app.
  destruct (take_turns_OK g1 before Hvalid1) as (g2 & -> & _ & Hplayers).
  { eapply Forall_impl; [exact Hbefore|]. intros turn Hin. apply Hsome.
    left. exact Hin. }
  cbn [bind take_turns].
  rewrite take_turn_unknown by (rewrite Hplayers; exact Hnone).
  reflexivity.
Qed.

Lemma play_game_unknown_position_witness :
  play_game new_LudoGame ["A"] ([("A", 6)] ++ ("B", 3) :: [("A", 2)])%list
  = Raise AttributeError.
Proof.
  apply (play_game_unknown_position ["A"] [("A", 6)] [("A", 2)] "B" 3).
  - repeat constructor.
  - repeat constructor.
  - intros Hin. apply list_elem_of_singleton in Hin. discriminate Hin.
Defined.

(** A position outside A, B, C, D gets no start square, and naming a square
    of the ring for such a player raises a [TypeError]: so does the move of
    a token of that player to a counter between 1 and 50. *)
Theorem move_token_unset_start (g : LudoGame) (a : addr) (pl : Player)
  (token : string) (roll : Z) :
  store g !! a = Some pl ->
  position pl ∉ ["A"; "B"; "C"; "D"] ->
  start pl = None ->
  token = "p" \/ token = "q" ->
  steps_of pl token <> 57 ->
  loc_of pl token <> InTheHomeYard ->
  1 <= steps_of pl token + roll <= 50 ->
  start (set_start_end pl) = None
  /\ get_space_name pl (steps_of pl token + roll) = Raise TypeError
  /\ move_token g a token roll = Raise TypeError.
Proof.
  intros Hpl Hpos Hstart Htoken H57 Hloc Hrange.
  assert (Hname : get_space_name pl (steps_of pl token + roll) = Raise TypeError).
  { unfold get_space_name. rewrite Hstart.
    destruct (Z.eqb_spec (steps_of pl token + roll) (-1)); [lia|].
    destruct (Z.eqb_spec (steps_of pl token + roll) 0); [lia|].
    destruct (Z.leb_spec 1 (steps_of pl token + roll)); [|lia].
    destruct (Z.leb_spec (steps_of pl token + roll) 50); [|lia].
    reflexivity. }
  split; [|split; [exact Hname|]].
  - unfold set_start_end.
    repeat match goal with
    | |- context [String.eqb ?x ?y] =>
        destruct (String.eqb_spec x y) as [Heq | _];
        [exfalso; apply Hpos; rewrite Heq; repeat constructor|]
    end. exact Hstart.
  - unfold move_token.
    rewrite (proj2 (deref_OK _ _ _) Hpl). cbn [bind].
    unfold steps_of, loc_of in *.
    destruct (home_yard_check_spec pl) as (Hboth & Hq & Hp & Hnone).
    destruct (decide (fst (token_locs pl) = InTheHomeYard)) as [H1 | H1];
      destruct (decide (snd (token_locs pl) = InTheHomeYard)) as [H2 | H2];
      rewrite ?(Hboth H1 H2), ?(Hq H1 H2), ?(Hp H1 H2), ?(Hnone H1 H2);
      destruct Htoken as [-> | ->]; cbn [String.eqb Ascii.eqb Bool.eqb] in *;
      try contradiction.
    all: match goal with
         | |- context [?x =? 57] =>
             destruct (Z.eqb_spec x 57) as [|_]; [contradiction|]
         end.
    all: rewrite ?bool_decide_eq_false_2 by discriminate; cbn [orb].
    all: unfold occupied_space_check; cbv zeta;
      rewrite (proj2 (deref_OK _ _ _) Hpl); cbn [bind].
    all: rewrite ?bool_decide_eq_true_2 by reflexivity;
      rewrite ?bool_decide_eq_false_2 by (unfold get_token_p, get_token_q; congruence).
    all: rewrite Hname; reflexivity.
Qed.

Lemma move_token_unset_start_witness :
  move_token (game_after ["E"] [("E", 6)]) 0%nat "p" 3 = Raise TypeError.
Proof.
  eassert (Hpl : store (game_after ["E"] [("E", 6)]) !! 0%nat = Some _)
    by (vm_compute; reflexivity).
  unshelve eapply
    (move_token_unset_start (game_after ["E"] [("E", 6)]) 0%nat _ "p" 3 Hpl
       _ _ (or_introl eq_refl) _ _ _).
  - apply (bool_decide_unpack _). vm_compute. exact I.
  - vm_compute. reflexivity.
  - side_condition.
  - side_condition.
  - vm_compute. split; discriminate.
Defined.

(** ** Leaving the home yard *)

Lemma write_write (g : LudoGame) (a : addr) (pl1 pl2 : Player) :
  write (write g a pl1) a pl2 = write g a pl2.
Proof.
  unfold write. cbn [game_state players board store].
  rewrite list_insert_insert_eq. reflexivity.
Qed.

Lemma deref_write (g : LudoGame) (a : addr) (pl pl1 : Player) :
  store g !! a = Some pl -> deref (store (write g a pl1)) a = OK pl1.
Proof.
  intros Hpl. apply deref_OK. cbn [write store].
  apply list_lookup_insert_eq. eapply lookup_lt_Some. exact Hpl.
Qed.

(** [move_token] on a token in the home yard puts it on the ready square
    whatever the roll is: the counter becomes 0 and the tag 'ready to go',
    the other token of the player keeps its counter and its tag, and
    nothing else in the game changes.  For 'q' this is so when 'p' is not in
    the home yard too; the tokens are not stacked. *)
Theorem move_token_release (g : LudoGame) (a : addr) (pl : Player)
  (token : string) (roll : Z) :
  store g !! a = Some pl ->
  token = "p" \/ token = "q" ->
  loc_of pl token = InTheHomeYard ->
  steps_of pl token <> 57 ->
  (token = "q" -> fst (token_locs pl) <> InTheHomeYard) ->
  stacked (token_p pl) = false -> stacked (token_q pl) = false ->
  exists pl',
    move_token g a token roll = OK (write g a pl')
    /\ steps_of pl' token = 0
    /\ loc_of pl' token = ReadyToGo
    /\ steps_of pl' (sibling token) = steps_of pl (sibling token)
    /\ loc_of pl' (sibling token) = loc_of pl (sibling token)
    /\ stacked (token_p pl') = false /\ stacked (token_q pl') = false.
Proof.
  intros Hpl Htoken Hloc H57 Hfirst Hsp Hsq.
  unfold move_token. rewrite (proj2 (deref_OK _ _ _) Hpl). cbn [bind].
  unfold steps_of, loc_of, sibling in *.
  destruct (home_yard_check_spec pl) as (Hboth & Hq & Hp & _).
  destruct Htoken as [-> | ->]; cbn [String.eqb Ascii.eqb Bool.eqb] in *.
  - destruct (Z.eqb_spec (p_steps pl) 57) as [|_]; [contradiction|].
    assert (Hrel : bool_decide (home_yard_check pl = Some "p")
                   || bool_decide (home_yard_check pl = Some "both") = true).
    { destruct (decide (snd (token_locs pl) = InTheHomeYard)) as [H2 | H2].
      - rewrite (Hboth Hloc H2). reflexivity.
      - rewrite (Hp Hloc H2). reflexivity. }
    rewrite Hrel. cbn [bind].
    rewrite (deref_write g a pl _ Hpl). cbn [bind]. rewrite write_write.
    eexists. split; [reflexivity|].
    unfold stack_if_possible, stacked_follow_p, release_p, can_token_stack.
    cbn. rewrite Hsp. cbn. rewrite ?Hsp, ?Hsq. cbn. auto 10.
  - destruct (Z.eqb_spec (q_steps pl) 57) as [|_]; [contradiction|].
    rewrite (Hq (Hfirst eq_refl) Hloc).
    rewrite bool_decide_eq_true_2 by reflexivity. cbn [bind].
    rewrite (deref_write g a pl _ Hpl). cbn [bind]. rewrite write_write.
    eexists. split; [reflexivity|].
    unfold stack_if_possible, stacked_follow_q, release_q, can_token_stack.
    cbn. rewrite Hsq. cbn. rewrite ?Hsp. cbn.
    assert (Hc : (0 <? p_steps pl) && (p_steps pl =? 0) = false).
    { destruct (Z.ltb_spec 0 (p_steps pl)); [|reflexivity].
      destruct (Z.eqb_spec (p_steps pl) 0); [lia | reflexivity]. }
    rewrite Hc. cbn. auto 10.
Qed.

Lemma move_token_release_witness :
  exists pl',
    move_token attack_game 1%nat "q" 2 = OK (write attack_game 1%nat pl')
    /\ steps_of pl' "q" = 0.
Proof.
  eassert (Hpl : store attack_game !! 1%nat = Some _)
    by (vm_compute; reflexivity).
  unshelve epose proof
    (move_token_release attack_game 1%nat _ "q" 2 Hpl (or_intror eq_refl)
       _ _ _ _ _)
    as (pl' & Hmove & Hsteps & _); try side_condition.
  { intros _. side_condition. }
  exists pl'. split; [exact Hmove | exact Hsteps].
Defined.

(** [move_token] for 'q' when the token is not released, that is when 'q'
    is out of the home yard or 'p' is in the home yard too: a roll that
    does not pass 57 is added to the counter of 'q', whose tag becomes
    'has finished' at 57 and 'somewhere on the board' below; the counter of
    'p' follows when the tokens are stacked and is kept otherwise.  With
    both tokens in the home yard 'q' so enters the board without a stop on
    the ready square. *)
Theorem move_token_q_advance (g g' : LudoGame) (a : addr) (pl : Player)
  (roll : Z) :
  store g !! a = Some pl ->
  q_steps pl <> 57 ->
  snd (token_locs pl) <> InTheHomeYard \/ fst (token_locs pl) = InTheHomeYard ->
  q_steps pl + roll <= 57 ->
  move_token g a "q" roll = OK g' ->
  exists pl',
    store g' !! a = Some pl'
    /\ q_steps pl' = q_steps pl + roll
    /\ snd (token_locs pl') = (if q_steps pl' =? 57 then HasFinished
                               else SomewhereOnTheBoard)
    /\ p_steps pl' = (if stacked (token_q pl) then q_steps pl + roll
                      else p_steps pl).
Proof.
  intros Hpl H57 Hhome Hroll Hmove.
  pose proof (move_token_player g g' a pl "q" roll Hpl Hmove) as Hmoved.
  exists (moved_player pl "q" roll). split; [exact Hmoved|].
  unfold moved_player. cbn [String.eqb Ascii.eqb Bool.eqb].
  destruct (Z.eqb_spec (q_steps pl) 57) as [|_]; [contradiction|].
  assert (Hcheck : bool_decide (home_yard_check pl = Some "q") = false).
  { apply bool_decide_eq_false_2.
    destruct (home_yard_check_spec pl) as (Hboth & _ & Hp & Hnone).
    destruct (decide (fst (token_locs pl) = InTheHomeYard)) as [H1 | H1];
      destruct (decide (snd (token_locs pl) = InTheHomeYard)) as [H2 | H2];
      rewrite ?(Hboth H1 H2), ?(Hp H1 H2), ?(Hnone H1 H2);
      try discriminate.
    destruct Hhome; contradiction. }
  rewrite Hcheck.
  unfold stack_if_possible, stacked_follow_q, advance_q, can_token_stack.
  destruct (Z.gtb_spec (q_steps pl + roll) 57) as [|_]; [lia|].
  cbn.
  destruct (Z.eqb_spec (q_steps pl + roll) 57) as [E57 | N57]; cbn;
    destruct (stacked (token_q pl)); cbn; rewrite ?E57, ?Z.eqb_refl; cbn;
    repeat match goal with
    | |- context [if ?b then _ else _] => no_test b; destruct b eqn:?; cbn
    end;
    rewrite ?Z.eqb_refl;
    repeat match goal with
    | |- context [?x =? 57] => destruct (Z.eqb_spec x 57); try lia
    end; auto;
    exfalso;
    repeat match goal with
    | H : (_ =? _) = true |- _ => apply Z.eqb_eq in H
    | H : (_ =? _) = false |- _ => apply Z.eqb_neq in H
    end; lia.
Qed.

Lemma move_token_q_advance_witness :
  exists g' pl',
    move_token (game_after ["A"] []) 0%nat "q" 6 = OK g'
    /\ store g' !! 0%nat = Some pl'
    /\ q_steps pl' = 5
    /\ snd (token_locs pl') = SomewhereOnTheBoard.
Proof.
  eassert (Hpl : store (game_after ["A"] []) !! 0%nat = Some _)
    by (vm_compute; reflexivity).
  eassert (Hmove : move_token (game_after ["A"] []) 0%nat "q" 6 = OK _)
    by (vm_compute; reflexivity).
  unshelve epose proof
    (move_token_q_advance _ _ 0%nat _ 6 Hpl _ _ _ Hmove)
    as (pl' & Hpl' & Hsteps & Htag & _).
  { side_condition. }
  { right. reflexivity. }
  { vm_compute. discriminate. }
  eexists _, pl'. split; [exact Hmove|]. split; [exact Hpl'|].
  split; [exact Hsteps|]. rewrite Htag, Hsteps. reflexivity.
Defined.

Lemma move_token_p_advance_witness :
  exists g' pl',
    move_token overshoot_game 0%nat "p" 3 = OK g'
    /\ store g' !! 0%nat = Some pl'
    /\ p_steps pl' = 55
    /\ fst (token_locs pl') = SomewhereOnTheBoard.
Proof.
  eassert (Hpl : store overshoot_game !! 0%nat = Some _)
    by (vm_compute; reflexivity).
  eassert (Hmove : move_token overshoot_game 0%nat "p" 3 = OK _)
    by (vm_compute; reflexivity).
  unshelve epose proof
    (move_token_p_advance _ _ 0%nat _ 3 Hpl _ _ Hmove)
    as (pl' & Hpl' & Hsteps & Htag); try side_condition.
  eexists _, pl'. split; [exact Hmove|]. split; [exact Hpl'|].
  split; [exact Hsteps|]. rewrite Htag, Hsteps. reflexivity.
Defined.

(** ** Stacked tokens over a game *)

(** In the game [play_game] leaves, started from a new game, the two
    stacked flags of every player agree, and the tokens of a player whose
    flags are set have the same counter and are shown on the same square. *)
Theorem play_game_stacked_together (g' : LudoGame) (player_list : list string)
  (turn_list : list (string * Z)) (out : list Space) (a : addr) (pl : Player) :
  play_game new_LudoGame player_list turn_list = OK (g', out) ->
  store g' !! a = Some pl ->
  stacked (token_p pl) = stacked (token_q pl)
  /\ (stacked (token_p pl) = true ->
      p_steps pl = q_steps pl
      /\ get_space_name pl (p_steps pl) = get_space_name pl (q_steps pl)
      /\ (p_steps pl = 57 -> token_locs pl = (HasFinished, HasFinished))).
Proof.
  intros Hplay Hpl.
  assert (Hreach : reachable g')
    by (eapply reachable_play_game; [apply reachable_new | exact Hplay]).
  pose proof (reachable_twin_ok g' a pl Hreach Hpl) as Hok.
  unfold twin_ok in Hok.
  apply andb_prop in Hok as [Hflags Hok].
  apply bool_decide_eq_true_1 in Hflags. split; [exact Hflags|].
  intros Hst. rewrite Hst in Hok. cbn in Hok.
  apply andb_prop in Hok as [Heq Hfin]. apply Z.eqb_eq in Heq.
  split; [exact Heq|]. split; [rewrite Heq; reflexivity|].
  intros H57. rewrite H57 in Hfin. cbn in Hfin.
  apply bool_decide_eq_true_1 in Hfin. exact Hfin.
Qed.

Lemma play_game_stacked_together_witness :
  exists g' out pl,
    play_game new_LudoGame ["A"] stacked_turns = OK (g', out)
    /\ store g' !! 0%nat = Some pl
    /\ p_steps pl = q_steps pl.
Proof.
  eassert (Hplay : play_game new_LudoGame ["A"] stacked_turns = OK (_, _))
    by (vm_compute; reflexivity).
  match type of Hplay with
  | _ = OK (?g1, _) =>
      eassert (Hpl : store g1 !! 0%nat = Some _) by (vm_compute; reflexivity)
  end.
  destruct (play_game_stacked_together _ _ _ _ 0%nat _ Hplay Hpl)
    as (_ & Hst).
  eexists _, _, _. split; [exact Hplay|]. split; [exact Hpl|].
  apply Hst. vm_compute. reflexivity.
Defined.

(** ** The names of the squares *)

Lemma get_space_name_square_of (pl : Player) (c : Z) :
  position pl ∈ seats ->
  get_space_name (set_start_end pl) c = OK (square_of (position pl) c).
Proof.
  intros Hpos. unfold square_of, get_space_name, set_start_end, seats in *.
  repeat (apply elem_of_cons in Hpos as [Heq | Hpos];
          [rewrite Heq; cbn; rewrite ?Heq;
           repeat (destruct (_ =? _) || destruct (_ && _)); reflexivity|]).
  inversion Hpos.
Qed.

Lemma elem_of_counters (c : Z) : -1 <= c <= 57 -> In c counters.
Proof.
  intros Hc. unfold counters. apply in_map_iff.
  exists (Z.to_nat (c + 1)). split; [lia|]. apply in_seq. lia.
Qed.

Lemma forallb_nested {A B : Type} (f : A -> A -> B -> B -> bool)
  (la : list A) (lb : list B) :
  forallb (fun a1 =>
    forallb (fun a2 =>
      forallb (fun b1 => forallb (fun b2 => f a1 a2 b1 b2) lb) lb) la) la
  = true ->
  forall a1 a2 b1 b2,
    In a1 la -> In a2 la -> In b1 lb -> In b2 lb -> f a1 a2 b1 b2 = true.
Proof.
  intros Hall a1 a2 b1 b2 Ha1 Ha2 Hb1 Hb2.
  rewrite forallb_forall in Hall. specialize (Hall a1 Ha1).
  rewrite forallb_forall in Hall. specialize (Hall a2 Ha2).
  rewrite forallb_forall in Hall. specialize (Hall b1 Hb1).
  rewrite forallb_forall in Hall. exact (Hall b2 Hb2).
Qed.

Lemma square_test_all :
  forallb (fun a1 =>
    forallb (fun a2 =>
      forallb (fun b1 => forallb (fun b2 => square_test a1 a2 b1 b2) counters)
        counters) seats) seats
  = true.
Proof. vm_compute. reflexivity. Qed.

(** Two tokens are shown on the same square exactly when their counters are
    one place of the board: for counters between 1 and 50, when the entry
    offsets of the seats plus the counters agree modulo 56; for counters
    between 51 and 56, when counter and seat agree; and otherwise, in the
    home yard, on the ready square and at the end, when the counters agree,
    whatever the seats are. *)
Theorem get_space_name_same_square (pl1 pl2 : Player) (c1 c2 : Z) :
  position pl1 ∈ seats -> position pl2 ∈ seats ->
  -1 <= c1 <= 57 -> -1 <= c2 <= 57 ->
  exists space1 space2,
    get_space_name (set_start_end pl1) c1 = OK space1
    /\ get_space_name (set_start_end pl2) c2 = OK space2
    /\ (space1 = space2
        <-> same_square (position pl1) (position pl2) c1 c2 = true).
Proof.
  intros Hpos1 Hpos2 Hc1 Hc2.
  exists (square_of (position pl1) c1), (square_of (position pl2) c2).
  split; [apply get_space_name_square_of; exact Hpos1|].
  split; [apply get_space_name_square_of; exact Hpos2|].
  pose proof (forallb_nested square_test
                seats counters square_test_all
                (position pl1) (position pl2) c1 c2
                (proj1 (list_elem_of_In _ _) Hpos1)
                (proj1 (list_elem_of_In _ _) Hpos2)
                (elem_of_counters c1 Hc1) (elem_of_counters c2 Hc2)) as Hall.
  unfold square_test in Hall. apply Bool.eqb_prop in Hall. rewrite <- Hall.
  split; [apply bool_decide_eq_true_2 | apply bool_decide_eq_true_1].
Qed.

Lemma get_space_name_same_square_witness :
  exists space1 space2,
    get_space_name (set_start_end (new_Player "A")) 20 = OK space1
    /\ get_space_name (set_start_end (new_Player "D")) 34 = OK space2
    /\ space1 = space2.
Proof.
  destruct (get_space_name_same_square (new_Player "A") (new_Player "D") 20 34)
    as (space1 & space2 & H1 & H2 & Hiff);
    [repeat constructor | repeat constructor | lia | lia |].
  exists space1, space2. split; [exact H1|]. split; [exact H2|].
  apply Hiff. vm_compute. reflexivity.
Defined.

(** The end square of a seat is the square named for counter 50, the last
    square of the ring before the home stretch of the seat. *)
Theorem end_is_counter_50 (pl : Player) :
  position pl ∈ seats ->
  get_space_name (set_start_end pl) 50 = OK (end_ (set_start_end pl)).
Proof.
  intros Hpos. unfold seats in Hpos.
  repeat (apply elem_of_cons in Hpos as [Heq | Hpos];
          [unfold set_start_end, get_space_name; rewrite Heq; reflexivity|]).
  inversion Hpos.
Qed.

Lemma end_is_counter_50_witness :
  get_space_name (set_start_end (new_Player "B")) 50 = OK (Some "8").
Proof.
  apply (end_is_counter_50 (new_Player "B")). repeat constructor.
Defined.
